(** * BrickBreaker: the collision detection and response engine

    A shallow embedding of [Ball.cpp], [Brick.cpp], [Barrier.cpp] and
    [Paddle.cpp] (the parts the per-frame [Ball::move] reaches), and the
    properties of the specification proved or refuted on it; then the
    motion of the paddle, the release of a ball, and the building of a
    level by [GraphicsRunner.cpp] and [StageBuilder.cpp], with the
    properties the code itself shows.

    Number model.  A C++ [float] is modelled as a real number: [+ - * /]
    are the field operations, comparisons are the order on [R],
    [powf(a, 2)] is [a ^ 2], [powf(s, .5)] is [sqrt s], [atanf], [cos] and
    [sin] are the real functions, and a decimal literal denotes its decimal
    value.  Rounding, infinities and NaN are not modelled.  Where a property
    is about the exact value a [float] computation produces, the
    computation is modelled a second time, bit for bit, on IEEE-754
    binary32 (module [Binary32]).

    SFML.  The library types the source uses ([sf::Vector2], [sf::Rect],
    [sf::Transform], [sf::CircleShape], [sf::RectangleShape]) are modelled
    from the library's implementation in module [sf]. *)

From Stdlib Require Import Reals Lra ZArith Ascii List.
From Stdlib Require Import Floats.SpecFloat.
From Stdlib Require String DecimalString.
From stdpp Require Import base option list.

Open Scope R_scope.

(** ** Comparisons of [float] values as booleans *)

Definition Rltb (a b : R) : bool := if Rlt_dec a b then true else false.
Definition Rgtb (a b : R) : bool := Rltb b a.
Definition Rleb (a b : R) : bool := if Rle_dec a b then true else false.
Definition Rgeb (a b : R) : bool := Rleb b a.
Definition Reqb (a b : R) : bool := if Req_dec_T a b then true else false.

(** ** The SFML value types *)

Module sf.

(** [sf::Vector2<T>] *)
Record Vector2 (T : Type) := mkVector2 { x : T; y : T }.
Arguments mkVector2 {T} _ _.
Arguments x {T} _.
Arguments y {T} _.

(** [sf::Rect<T>] *)
Record Rect (T : Type) :=
  mkRect { left : T; top : T; width : T; height : T }.
Arguments mkRect {T} _ _ _ _.
Arguments left {T} _.
Arguments top {T} _.
Arguments width {T} _.
Arguments height {T} _.

Definition Vector2f := Vector2 R.
Definition Vector2u := Vector2 N.
Definition FloatRect := Rect R.

(** [Rect<T>::contains(T x, T y)]: the right and bottom edges are
    excluded, rectangles of negative size are normalised. *)
Definition contains (r : FloatRect) (px py : R) : bool :=
  let minX := Rmin (left r) (left r + width r) in
  let maxX := Rmax (left r) (left r + width r) in
  let minY := Rmin (top r) (top r + height r) in
  let maxY := Rmax (top r) (top r + height r) in
  Rgeb px minX && Rltb px maxX && Rgeb py minY && Rltb py maxY.

(** [Rect<T>::intersects(const Rect<T>&)]: the two rectangles share an
    area that is not empty. *)
Definition intersects (r1 r2 : FloatRect) : bool :=
  let r1MinX := Rmin (left r1) (left r1 + width r1) in
  let r1MaxX := Rmax (left r1) (left r1 + width r1) in
  let r1MinY := Rmin (top r1) (top r1 + height r1) in
  let r1MaxY := Rmax (top r1) (top r1 + height r1) in
  let r2MinX := Rmin (left r2) (left r2 + width r2) in
  let r2MaxX := Rmax (left r2) (left r2 + width r2) in
  let r2MinY := Rmin (top r2) (top r2 + height r2) in
  let r2MaxY := Rmax (top r2) (top r2 + height r2) in
  let interLeft := Rmax r1MinX r2MinX in
  let interTop := Rmax r1MinY r2MinY in
  let interRight := Rmin r1MaxX r2MaxX in
  let interBottom := Rmin r1MaxY r2MaxY in
  Rltb interLeft interRight && Rltb interTop interBottom.

(** [sf::Transform]: a 3x3 matrix. *)
Record Transform := mkTransform {
  a00 : R; a01 : R; a02 : R;
  a10 : R; a11 : R; a12 : R;
  a20 : R; a21 : R; a22 : R }.

Definition Identity : Transform :=
  mkTransform 1 0 0
              0 1 0
              0 0 1.

(** [Transform::combine]: [*this = *this * transform]. *)
Definition combine (a b : Transform) : Transform :=
  mkTransform
    (a00 a * a00 b + a01 a * a10 b + a02 a * a20 b)
    (a00 a * a01 b + a01 a * a11 b + a02 a * a21 b)
    (a00 a * a02 b + a01 a * a12 b + a02 a * a22 b)
    (a10 a * a00 b + a11 a * a10 b + a12 a * a20 b)
    (a10 a * a01 b + a11 a * a11 b + a12 a * a21 b)
    (a10 a * a02 b + a11 a * a12 b + a12 a * a22 b)
    (a20 a * a00 b + a21 a * a10 b + a22 a * a20 b)
    (a20 a * a01 b + a21 a * a11 b + a22 a * a21 b)
    (a20 a * a02 b + a21 a * a12 b + a22 a * a22 b).

(** [Transform::rotate(float angle)], the angle in degrees. *)
Definition rotate (t : Transform) (angle : R) : Transform :=
  let rad := angle * 3.141592654 / 180 in
  let cos := cos rad in
  let sin := sin rad in
  combine t (mkTransform cos (- sin) 0
                         sin cos     0
                         0   0       1).

(** [Transform::transformPoint] *)
Definition transformPoint (t : Transform) (p : Vector2f) : Vector2f :=
  mkVector2 (a00 t * x p + a01 t * y p + a02 t)
            (a10 t * x p + a11 t * y p + a12 t).

(** [Transform::transformRect]: the bounding rectangle of the four
    transformed corners. *)
Definition transformRect (t : Transform) (r : FloatRect) : FloatRect :=
  let p0 := transformPoint t (mkVector2 (left r) (top r)) in
  let p1 := transformPoint t (mkVector2 (left r) (top r + height r)) in
  let p2 := transformPoint t (mkVector2 (left r + width r) (top r)) in
  let p3 := transformPoint t
              (mkVector2 (left r + width r) (top r + height r)) in
  let l := Rmin (Rmin (x p0) (x p1)) (Rmin (x p2) (x p3)) in
  let t' := Rmin (Rmin (y p0) (y p1)) (Rmin (y p2) (y p3)) in
  let r' := Rmax (Rmax (x p0) (x p1)) (Rmax (x p2) (x p3)) in
  let b := Rmax (Rmax (y p0) (y p1)) (Rmax (y p2) (y p3)) in
  mkRect l t' (r' - l) (b - t').

(** [sf::Transformable], the scale left at its default (1, 1). *)
Record Transformable := mkTransformable {
  m_origin : Vector2f;
  m_position : Vector2f;
  m_rotation : R }.

(** [Transformable::getTransform] *)
Definition getTransform (t : Transformable) : Transform :=
  let angle := - m_rotation t * 3.141592654 / 180 in
  let cosine := cos angle in
  let sine := sin angle in
  let tx := - x (m_origin t) * cosine - y (m_origin t) * sine
            + x (m_position t) in
  let ty := x (m_origin t) * sine - y (m_origin t) * cosine
            + y (m_position t) in
  mkTransform cosine    sine   tx
              (- sine)  cosine ty
              0         0      1.

(** [Transformable::move(offsetX, offsetY)] *)
Definition moveBy (t : Transformable) (dx dy : R) : Transformable :=
  mkTransformable (m_origin t)
    (mkVector2 (x (m_position t) + dx) (y (m_position t) + dy))
    (m_rotation t).

(** [Transformable::setPosition(x, y)] *)
Definition setPosition (t : Transformable) (px py : R) : Transformable :=
  mkTransformable (m_origin t) (mkVector2 px py) (m_rotation t).

(** [sf::CircleShape].  Its local bounds are taken to be the square
    around the circle: the polygon approximation and the outline of the
    drawn shape are not modelled (the constructors of [Ball] set an outline
    of thickness 1, which makes the bounds of the drawn ball larger by
    about 1 on every side). *)
Record CircleShape := mkCircleShape {
  c_transformable : Transformable;
  m_radius : R }.

Definition circleLocalBounds (c : CircleShape) : FloatRect :=
  mkRect 0 0 (2 * m_radius c) (2 * m_radius c).

Definition circleGlobalBounds (c : CircleShape) : FloatRect :=
  transformRect (getTransform (c_transformable c)) (circleLocalBounds c).

Definition circlePosition (c : CircleShape) : Vector2f :=
  m_position (c_transformable c).

Definition circleMove (c : CircleShape) (dx dy : R) : CircleShape :=
  mkCircleShape (moveBy (c_transformable c) dx dy) (m_radius c).

Definition circleSetPosition (c : CircleShape) (px py : R) : CircleShape :=
  mkCircleShape (setPosition (c_transformable c) px py) (m_radius c).

(** [sf::RectangleShape], without outline. *)
Record RectangleShape := mkRectangleShape {
  r_transformable : Transformable;
  m_size : Vector2f }.

Definition rectLocalBounds (r : RectangleShape) : FloatRect :=
  mkRect 0 0 (x (m_size r)) (y (m_size r)).

Definition rectGlobalBounds (r : RectangleShape) : FloatRect :=
  transformRect (getTransform (r_transformable r)) (rectLocalBounds r).

Definition rectPosition (r : RectangleShape) : Vector2f :=
  m_position (r_transformable r).

Definition rectRotation (r : RectangleShape) : R :=
  m_rotation (r_transformable r).

End sf.

Import sf.

(** ** Collision outcomes

    The source returns a character: ['n'] none, ['h'] horizontal, ['v']
    vertical, ['s'] side (a paddle end-cap), ['c'] corner, ['y'] contact
    with a ball. *)

Definition chr_n : ascii := "n"%char.
Definition chr_h : ascii := "h"%char.
Definition chr_v : ascii := "v"%char.
Definition chr_s : ascii := "s"%char.
Definition chr_c : ascii := "c"%char.
Definition chr_y : ascii := "y"%char.

(** ** Barrier.cpp *)

Record Barrier := mkBarrier {
  Barrier_left_ : RectangleShape;
  Barrier_top_ : RectangleShape;
  Barrier_right_ : RectangleShape }.

(** A shape as its constructor leaves it: origin (0, 0), no rotation. *)
Definition rectangleAt (px py w h : R) : RectangleShape :=
  mkRectangleShape
    (mkTransformable (mkVector2 0 0) (mkVector2 px py) 0) (mkVector2 w h).

(** [Barrier::Barrier(windowWidth, windowHeight, width, buffer, color)];
    [BANNER_HEIGHT] comes from [Constants.h], which is not among the
    sources, and is a parameter. *)
Definition Barrier_new (BANNER_HEIGHT windowWidth windowHeight width_ buffer : R)
  : Barrier :=
  mkBarrier
    (rectangleAt buffer (buffer + BANNER_HEIGHT)
       width_ (windowHeight - buffer - BANNER_HEIGHT))
    (rectangleAt buffer (buffer + BANNER_HEIGHT)
       (windowWidth - 2 * buffer - width_) width_)
    (rectangleAt (windowWidth - buffer - width_) (buffer + BANNER_HEIGHT)
       width_ (windowHeight - buffer - BANNER_HEIGHT)).

(** [Barrier::collision(FloatRect& boundingBox)]: the character returned and
    the bounding box as the call leaves it. *)
Definition Barrier_collision (this : Barrier) (boundingBox : FloatRect)
  : ascii * FloatRect :=
  if intersects (rectGlobalBounds (Barrier_left_ this)) boundingBox
     || intersects (rectGlobalBounds (Barrier_right_ this)) boundingBox
  then (chr_h, boundingBox)
  else if intersects (rectGlobalBounds (Barrier_top_ this)) boundingBox
  then (chr_v, boundingBox)
  else (chr_n, boundingBox).

(** ** Brick.cpp *)

Record Brick := mkBrick {
  Brick_special_ : ascii;
  Brick_rectangle_ : RectangleShape }.

(** [Brick::Brick(xPos, yPos, width, height, special, color)] *)
Definition Brick_new (xPos yPos width_ height_ : R) (special : ascii) : Brick :=
  mkBrick special (rectangleAt xPos yPos width_ height_).

(** The distance [pow(pow(cx - px, 2) + pow(cy - py, 2), .5)]. *)
Definition distance (cx cy px py : R) : R :=
  sqrt ((cx - px) ^ 2 + (cy - py) ^ 2).

(** [Brick::collision(sf::FloatRect& boundingBox)] *)
Definition Brick_collision (this : Brick) (boundingBox : FloatRect)
  : ascii * FloatRect :=
  let bounds := rectGlobalBounds (Brick_rectangle_ this) in
  let center := mkVector2 (left boundingBox + width boundingBox / 2)
                          (top boundingBox + height boundingBox / 2) in
  let radius := width boundingBox / 2 in
  if intersects bounds boundingBox then
    if contains bounds (x center) (top boundingBox)
       || contains bounds (x center) (top boundingBox + height boundingBox)
    then (chr_v, boundingBox)
    else if contains bounds (left boundingBox) (y center)
            || contains bounds (left boundingBox + width boundingBox) (y center)
    then (chr_h, boundingBox)
    else if Rltb (distance (x center) (y center) (left bounds) (top bounds))
                 radius
    then (chr_c, mkRect (left bounds) (top bounds)
                        (width boundingBox) (height boundingBox))
    else if Rltb (distance (x center) (y center)
                           (left bounds + width bounds) (top bounds)) radius
    then (chr_c, mkRect (left bounds + width bounds) (top bounds)
                        (width boundingBox) (height boundingBox))
    else if Rltb (distance (x center) (y center)
                           (left bounds + width bounds)
                           (top bounds + height bounds)) radius
    then (chr_c, mkRect (left bounds + width bounds)
                        (top bounds + height bounds)
                        (width boundingBox) (height boundingBox))
    else if Rltb (distance (x center) (y center)
                           (left bounds) (top bounds + height bounds)) radius
    then (chr_c, mkRect (left bounds) (top bounds + height bounds)
                        (width boundingBox) (height boundingBox))
    else (chr_n, boundingBox)
  else (chr_n, boundingBox).

(** ** Paddle.cpp *)

Record Paddle := mkPaddle {
  Paddle_rectangle_ : RectangleShape;
  Paddle_leftCircle_ : CircleShape;
  Paddle_rightCircle_ : CircleShape;
  Paddle_vel_ : R;
  Paddle_accel_ : R }.

(** [Paddle::Paddle(game, xPos, yPos, width, height, color)]: the rectangle
    has its origin at the middle of its top edge, the end-caps at their
    centres. *)
Definition Paddle_new (xPos yPos width_ height_ : R) : Paddle :=
  mkPaddle
    (mkRectangleShape
       (mkTransformable (mkVector2 (width_ / 2) 0) (mkVector2 xPos yPos) 0)
       (mkVector2 width_ height_))
    (mkCircleShape
       (mkTransformable (mkVector2 (height_ / 2) (height_ / 2))
          (mkVector2 (xPos - width_ / 2) (yPos + height_ / 2)) 0)
       (height_ / 2))
    (mkCircleShape
       (mkTransformable (mkVector2 (height_ / 2) (height_ / 2))
          (mkVector2 (xPos + width_ / 2) (yPos + height_ / 2)) 0)
       (height_ / 2))
    0 0.

(** [Paddle::collision(sf::FloatRect& boundingBox)] *)
Definition Paddle_collision (this : Paddle) (boundingBox : FloatRect)
  : ascii * FloatRect :=
  let rectBounds := rectGlobalBounds (Paddle_rectangle_ this) in
  let leftPos := circlePosition (Paddle_leftCircle_ this) in
  let rightPos := circlePosition (Paddle_rightCircle_ this) in
  (* the end-caps, tried when the rectangular part reports nothing *)
  let sides :=
    let leftCircleBounds := circleGlobalBounds (Paddle_leftCircle_ this) in
    let rightCircleBounds := circleGlobalBounds (Paddle_rightCircle_ this) in
    let temp := intersects leftCircleBounds boundingBox in
    if temp || intersects rightCircleBounds boundingBox then
      let thisCenter := if temp then leftPos else rightPos in
      let otherCenter := mkVector2 (left boundingBox + width boundingBox / 2)
                                   (top boundingBox + height boundingBox / 2) in
      if Rltb (distance (x thisCenter) (y thisCenter)
                        (x otherCenter) (y otherCenter))
              (width boundingBox / 2 + m_radius (Paddle_rightCircle_ this))
      then (chr_s, mkRect (x thisCenter) (y thisCenter) (Paddle_vel_ this) 0)
      else (chr_n, boundingBox)
    else (chr_n, boundingBox) in
  if intersects rectBounds boundingBox
     && Rgtb (left boundingBox + width boundingBox / 2) (x leftPos)
     && Rltb (left boundingBox + width boundingBox / 2) (x rightPos)
  then
    let ax := left boundingBox + width boundingBox / 2 - x leftPos in
    let ay := y leftPos - (top boundingBox + width boundingBox / 2) in
    let bx := x rightPos - x leftPos in
    let by_ := y leftPos - y rightPos in
    let projFactor := (ax * bx + ay * by_) / (bx * bx + by_ * by_) in
    let dist :=
      sqrt ((ax - bx * projFactor) ^ 2 + (ay - by_ * projFactor) ^ 2) in
    if Rltb dist (width boundingBox / 2
                  + y (m_size (Paddle_rectangle_ this)) / 2)
    then (chr_v, mkRect (rectRotation (Paddle_rectangle_ this))
                        (top boundingBox) (Paddle_vel_ this) 0)
    else sides
  else sides.

(** ** Ball.h and Ball.cpp *)

(** [const sf::Vector2f*]: the one address the source ever stores is that
    of the position of the paddle's rectangle ([Paddle::getPos]). *)
Inductive PositionPtr := PaddlePos.

Record Ball := mkBall {
  Ball_circle_ : CircleShape;
  Ball_vel_ : Vector2f;
  Ball_attachedPos_ : option PositionPtr;      (* [None] is [nullptr] *)
  Ball_collisionState_ : bool }.

(** [Ball::Ball(game, xPos, yPos, xVel, yVel, color, radius)]: a free
    ball, its position measured from its centre. *)
Definition Ball_new (xPos yPos xVel yVel radius : R) : Ball :=
  mkBall
    (mkCircleShape
       (mkTransformable (mkVector2 radius radius) (mkVector2 xPos yPos) 0)
       radius)
    (mkVector2 xVel yVel) None false.

(** [Ball::Ball(game, color, radius)]: a ball attached to the paddle. *)
Definition Ball_newAttached (radius : R) : Ball :=
  mkBall
    (mkCircleShape
       (mkTransformable (mkVector2 radius radius) (mkVector2 0 0) 0) radius)
    (mkVector2 0 0) (Some PaddlePos) false.

(** [Ball::isAttached] *)
Definition Ball_isAttached (this : Ball) : bool :=
  match Ball_attachedPos_ this with Some _ => true | None => false end.

(** [Ball::setVelocity] *)
Definition Ball_setVelocity (this : Ball) (velocity : Vector2f) : Ball :=
  mkBall (Ball_circle_ this) velocity (Ball_attachedPos_ this)
         (Ball_collisionState_ this).

(** [Ball::collision(FloatRect& boundingBox)] *)
Definition Ball_collision (this : Ball) (boundingBox : FloatRect)
  : ascii * FloatRect :=
  if Ball_isAttached this then (chr_n, boundingBox)
  else
    let thisCenter := circlePosition (Ball_circle_ this) in
    let otherCenter := mkVector2 (left boundingBox + width boundingBox / 2)
                                 (top boundingBox + height boundingBox / 2) in
    let distance := distance (x thisCenter) (y thisCenter)
                             (x otherCenter) (y otherCenter) in
    if Rltb distance (width boundingBox / 2 + m_radius (Ball_circle_ this))
       && Rgtb distance (m_radius (Ball_circle_ this) / 4)
    then (chr_y, mkRect (x thisCenter) (y thisCenter)
                        (x (Ball_vel_ this)) (y (Ball_vel_ this)))
    else (chr_n, boundingBox).

(** [Ball::getContactAngle] *)
Definition Ball_getContactAngle (object1 : Vector2f) (object2 : FloatRect)
  : R :=
  let denominator := y object1 - top object2 in
  let contactAngle :=
    if Reqb denominator 0 then 1.570796327
    else atan ((x object1 - left object2) / denominator) in
  contactAngle * 57.295779513.

(** ** The game's objects *)

(** Modelled from the spec: the class [Object] of [Object.h], which is not
    among the sources.  An object is one of the four entities behind the
    virtual interface {draw, move, collision}. *)
Inductive Entity :=
| APaddle (p : Paddle)
| ABarrier (b : Barrier)
| ABrick (b : Brick)
| ABall (b : Ball).

(** Modelled from the spec: the deletion flag [delete_] every object
    carries ([Object.h] is not among the sources). *)
Record Object := mkObject { delete_ : bool; entity : Entity }.

(** The virtual call [object->collision(boundingBox)]. *)
Definition Object_collision (o : Object) (boundingBox : FloatRect)
  : ascii * FloatRect :=
  match entity o with
  | APaddle p => Paddle_collision p boundingBox
  | ABarrier b => Barrier_collision b boundingBox
  | ABrick b => Brick_collision b boundingBox
  | ABall b => Ball_collision b boundingBox
  end.

(** ** GraphicsRunner.h: the fields [Ball.cpp] reads *)

Record GraphicsRunner := mkGraphicsRunner {
  objects_ : list Object;
  indexOfFirstSafetyBrick_ : Z;
  numSafetyBricks_ : Z;
  numBricks_ : Z;
  windowSize_ : Vector2u }.

Definition withObjects (g : GraphicsRunner) (os : list Object)
  : GraphicsRunner :=
  mkGraphicsRunner os (indexOfFirstSafetyBrick_ g) (numSafetyBricks_ g)
                   (numBricks_ g) (windowSize_ g).

(** [objects[i]] for an [int i]: outside the vector the behaviour is
    undefined, here [None]. *)
Definition objectAt (g : GraphicsRunner) (i : Z) : option Object :=
  if (0 <=? i)%Z then objects_ g !! Z.to_nat i else None.

(** What a pointer points to: [PaddlePos] is the position of the rectangle
    of the paddle, which [getPaddle] finds at index 0. *)
Definition deref (g : GraphicsRunner) (p : PositionPtr) : option Vector2f :=
  match p with
  | PaddlePos =>
      match objectAt g 0 with
      | Some (mkObject _ (APaddle pd)) =>
          Some (rectPosition (Paddle_rectangle_ pd))
      | _ => None
      end
  end.

(** ** The per-frame update of a ball

    [Ball::move] runs on the game it belongs to ([game_]) and changes the
    ball itself, the deletion flag of bricks and the velocity of another
    ball.  The ball is one of the game's objects, so it is named by its
    index [self] in [objects_] and every change goes through the vector.

    A computation takes the game and gives [None] where the source has
    undefined behaviour (an index outside [objects_], a null or dangling
    pointer followed), and otherwise a result, the game it leaves and the
    events of the run in order: every call of [collision] on an object and
    the flip of the parity flag. *)

Inductive Event :=
| EvCollision (i : Z)       (* [objects_[i]->collision(..)] was called *)
| EvParityFlip.             (* [collisionState_ = !collisionState_] *)

Definition M (A : Type) : Type :=
  GraphicsRunner -> option (A * GraphicsRunner * list Event).

Definition ret {A} (a : A) : M A := fun g => Some (a, g, []).

Definition bind {A B} (m : M A) (k : A -> M B) : M B :=
  fun g =>
    match m g with
    | None => None
    | Some (a, g1, t1) =>
        match k a g1 with
        | None => None
        | Some (b, g2, t2) => Some (b, g2, t1 ++ t2)
        end
    end.

Notation "x <- m ;; k" := (bind m (fun x => k))
  (at level 90, m at level 89, right associativity).
Notation "m ;;; k" := (bind m (fun _ => k))
  (at level 90, right associativity).

Definition undefined {A} : M A := fun _ => None.

Definition emit (e : Event) : M unit := fun g => Some (tt, g, [e]).

Definition getGame : M GraphicsRunner := fun g => Some (g, g, []).

(** The ball [*this]. *)
Definition thisBall (self : nat) : M Ball :=
  fun g =>
    match objects_ g !! self with
    | Some (mkObject _ (ABall b)) => Some (b, g, [])
    | _ => None
    end.

(** An assignment to fields of [*this]. *)
Definition updateThis (self : nat) (f : Ball -> Ball) : M unit :=
  fun g =>
    match objects_ g !! self with
    | Some (mkObject d (ABall b)) =>
        Some (tt, withObjects g (<[self := mkObject d (ABall (f b))]> (objects_ g)), [])
    | _ => None
    end.

(** [objects[i]->delete_ = true] *)
Definition markDeleted (i : Z) : M unit :=
  fun g =>
    match objectAt g i with
    | Some o =>
        Some (tt, withObjects g (<[Z.to_nat i := mkObject true (entity o)]> (objects_ g)), [])
    | None => None
    end.

(** [delete_ = true] on [*this] *)
Definition deleteThis (self : nat) : M unit :=
  fun g =>
    match objects_ g !! self with
    | Some (mkObject _ (ABall b)) =>
        Some (tt, withObjects g (<[self := mkObject true (ABall b)]> (objects_ g)), [])
    | _ => None
    end.

(** [objects[i]->collision(boundsCopy)]: the character and the copy as the
    call leaves it. *)
Definition callCollision (i : Z) (boundsCopy : FloatRect)
  : M (ascii * FloatRect) :=
  fun g =>
    match objectAt g i with
    | Some o => Some (Object_collision o boundsCopy, g, [EvCollision i])
    | None => None
    end.

Definition setVel (v : Vector2f) (b : Ball) : Ball := Ball_setVelocity b v.

Definition setCircle (c : CircleShape) (b : Ball) : Ball :=
  mkBall c (Ball_vel_ b) (Ball_attachedPos_ b) (Ball_collisionState_ b).

Definition flipCollisionState (b : Ball) : Ball :=
  mkBall (Ball_circle_ b) (Ball_vel_ b) (Ball_attachedPos_ b)
         (negb (Ball_collisionState_ b)).

(** [Ball::handleSimpleCollision] *)
Definition Ball_handleSimpleCollision (self : nat) (c : ascii) : M bool :=
  if Ascii.eqb c chr_v then
    updateThis self (fun b =>
      setVel (mkVector2 (x (Ball_vel_ b)) (y (Ball_vel_ b) * -1)) b) ;;;
    ret true
  else if Ascii.eqb c chr_h then
    updateThis self (fun b =>
      setVel (mkVector2 (x (Ball_vel_ b) * -1) (y (Ball_vel_ b))) b) ;;;
    ret true
  else ret false.

(** [Ball::handleBarrierCollisions] *)
Definition Ball_handleBarrierCollisions (self : nat) (bounds : FloatRect)
  : M bool :=
  r <- callCollision 1 bounds ;;        (* [game_.getBarrier()] *)
  Ball_handleSimpleCollision self (fst r).

(** The response to a moving surface, shared by the two branches of
    [Ball::handlePaddleCollisions]: rotate into the contact frame, invert
    the y velocity and add the surface's, rotate back. *)
Definition paddleResponse (contactAngle : R) (boundsCopy : FloatRect)
  (vel : Vector2f) : Vector2f :=
  let otherVel := mkVector2 (width boundsCopy) (height boundsCopy) in
  let rotation := rotate Identity contactAngle in
  let vel := transformPoint rotation vel in
  let otherVel := transformPoint rotation otherVel in
  let vel := mkVector2 (x vel) (y vel * -1) in
  let vel := mkVector2 (x vel) (y vel + y otherVel * 1.1) in
  let rotation := rotate rotation (-2 * contactAngle) in
  transformPoint rotation vel.

(** [Ball::handlePaddleCollisions] *)
Definition Ball_handlePaddleCollisions (self : nat) (bounds : FloatRect)
  : M bool :=
  r <- callCollision 0 bounds ;;        (* [game_.getPaddle()] *)
  let c := fst r in
  let boundsCopy := snd r in
  if Ascii.eqb c chr_v then
    let contactAngle := - left boundsCopy in
    updateThis self (fun b =>
      setVel (paddleResponse contactAngle boundsCopy (Ball_vel_ b)) b) ;;;
    ret true
  else if Ascii.eqb c chr_s then
    this <- thisBall self ;;
    let contactAngle :=
      Ball_getContactAngle (circlePosition (Ball_circle_ this)) boundsCopy in
    updateThis self (fun b =>
      setVel (paddleResponse contactAngle boundsCopy (Ball_vel_ b)) b) ;;;
    ret true
  else ret false.

(** The response to the corner of a brick. *)
Definition cornerResponse (contactAngle : R) (vel : Vector2f) : Vector2f :=
  let rotation := rotate Identity contactAngle in
  let vel := transformPoint rotation vel in
  let vel := mkVector2 (x vel) (y vel * -1) in
  let rotation := rotate rotation (-2 * contactAngle) in
  transformPoint rotation vel.

(** The loop of [Ball::handleBrickCollisions], from index [i], [n] bricks
    left. *)
Fixpoint brickLoop (self : nat) (bounds : FloatRect) (i : Z) (n : nat)
  : M bool :=
  match n with
  | O => ret false
  | S n' =>
      r <- callCollision i bounds ;;
      let c := fst r in
      let boundsCopy := snd r in
      (if negb (Ascii.eqb c chr_n) then markDeleted i else ret tt) ;;;
      simple <- Ball_handleSimpleCollision self c ;;
      if simple then ret true
      else if Ascii.eqb c chr_c then
        this <- thisBall self ;;
        let contactAngle :=
          Ball_getContactAngle (circlePosition (Ball_circle_ this))
                               boundsCopy in
        updateThis self (fun b =>
          setVel (cornerResponse contactAngle (Ball_vel_ b)) b) ;;;
        ret true
      else brickLoop self bounds (i + 1) n'
  end.

(** [Ball::handleBrickCollisions] *)
Definition Ball_handleBrickCollisions (self : nat) (bounds : FloatRect)
  : M bool :=
  g <- getGame ;;
  let first := indexOfFirstSafetyBrick_ g in
  let last := (indexOfFirstSafetyBrick_ g + numSafetyBricks_ g
               + numBricks_ g)%Z in
  brickLoop self bounds first (Z.to_nat (last - first)).

(** The response to another ball: both velocities go into the contact
    frame, their y components are swapped, both come back.  The pair is
    the new [vel_] and the new [otherVel]. *)
Definition ballResponse (contactAngle : R) (vel otherVel : Vector2f)
  : Vector2f * Vector2f :=
  let rotation := rotate Identity contactAngle in
  let vel := transformPoint rotation vel in
  let otherVel := transformPoint rotation otherVel in
  let temp := y vel in
  let vel := mkVector2 (x vel) (y otherVel) in
  let otherVel := mkVector2 (x otherVel) temp in
  let rotation := rotate rotation (-2 * contactAngle) in
  (transformPoint rotation vel, transformPoint rotation otherVel).

(** [other->setVelocity(otherVel)] after
    [Ball* other = dynamic_cast<Ball*>(objects[i])]: a null [other] when the
    object is no ball. *)
Definition setOtherVelocity (i : Z) (otherVel : Vector2f) : M unit :=
  fun g =>
    match objectAt g i with
    | Some (mkObject d (ABall other)) =>
        Some (tt, withObjects g (<[Z.to_nat i := mkObject d (ABall (Ball_setVelocity other otherVel))]> (objects_ g)), [])
    | _ => None
    end.

(** The loop of [Ball::handleBallCollisions], from index [i], [n] objects
    left. *)
Fixpoint ballLoop (self : nat) (bounds : FloatRect) (i : Z) (n : nat)
  : M bool :=
  match n with
  | O => ret false
  | S n' =>
      g <- getGame ;;
      this <- thisBall self ;;
      match objectAt g i with
      | None => undefined
      | Some object =>
          let skip :=
            match entity object with
            | ABall ball =>
                negb (Bool.eqb (Ball_collisionState_ ball)
                               (Ball_collisionState_ this))
            | _ => false
            end in
          if skip then ballLoop self bounds (i + 1) n'
          else
            r <- callCollision i bounds ;;
            let c := fst r in
            let boundsCopy := snd r in
            if Ascii.eqb c chr_y then
              let contactAngle :=
                Ball_getContactAngle (circlePosition (Ball_circle_ this))
                                     boundsCopy in
              let otherVel := mkVector2 (width boundsCopy)
                                        (height boundsCopy) in
              let vs := ballResponse contactAngle (Ball_vel_ this) otherVel in
              updateThis self (setVel (fst vs)) ;;;
              setOtherVelocity i (snd vs) ;;;
              ret true
            else ballLoop self bounds (i + 1) n'
      end
  end.

(** [Ball::handleBallCollisions].  The loop condition compares the [int i]
    with the unsigned [objects.size()]: a negative start ends the loop at
    once. *)
Definition Ball_handleBallCollisions (self : nat) (bounds : FloatRect)
  : M bool :=
  g <- getGame ;;
  let first := (indexOfFirstSafetyBrick_ g + numSafetyBricks_ g
                + numBricks_ g)%Z in
  if (first <? 0)%Z then ret false
  else ballLoop self bounds first
         (Z.to_nat (Z.of_nat (length (objects_ g)) - first)).

(** [a || b] on computations: [b] runs only when [a] gives [false]. *)
Definition orElse (a b : M bool) : M bool :=
  r <- a ;; if r then ret true else b.

(** The four handlers in the order [Ball::move] tries them: the barrier,
    the paddle, the bricks, the balls. *)
Definition collisionChain (self : nat) (bounds : FloatRect) : M bool :=
  orElse (Ball_handleBarrierCollisions self bounds)
 (orElse (Ball_handlePaddleCollisions self bounds)
 (orElse (Ball_handleBrickCollisions self bounds)
         (Ball_handleBallCollisions self bounds))).

(** The collision checks of [Ball::move] with the extra half step: the
    [if] statement of lines 75 to 85. *)
Definition Ball_move_collisions (self : nat) (bounds : FloatRect) : M unit :=
  this <- thisBall self ;;
  collided <-
    orElse (ret (Ball_isAttached this)) (collisionChain self bounds) ;;
  if collided then
    this <- thisBall self ;;
    if negb (Ball_isAttached this) then
      updateThis self (fun b =>
        setCircle (circleMove (Ball_circle_ b) (x (Ball_vel_ b) * 0.5)
                                               (y (Ball_vel_ b) * 0.5)) b)
    else ret tt
  else ret tt.

Section Constants.

(** [Constants.h] is not among the sources: the speed ceiling is a
    parameter. *)
Variable BALL_MAX_SPEED : R.

(** The speed clamp of [Ball::move], lines 96 to 99. *)
Definition clampSpeed (vel : Vector2f) : Vector2f :=
  if Rgtb (x vel) BALL_MAX_SPEED || Rgtb (y vel) BALL_MAX_SPEED
  then mkVector2 (x vel * 0.99) (y vel * 0.99)
  else vel.

(** The rest of [Ball::move], lines 87 to 102: the parity flag, the snap to
    the anchor, the speed clamp and the translation. *)
Definition Ball_move_finish (self : nat) : M unit :=
  updateThis self flipCollisionState ;;;
  emit EvParityFlip ;;;
  this <- thisBall self ;;
  (match Ball_attachedPos_ this with
   | Some p =>
       g <- getGame ;;
       match deref g p with
       | Some anchor =>
           updateThis self (fun b =>
             setCircle (circleSetPosition (Ball_circle_ b) (x anchor)
                          (y anchor - m_radius (Ball_circle_ b))) b)
       | None => undefined
       end
   | None => ret tt
   end) ;;;
  updateThis self (fun b => setVel (clampSpeed (Ball_vel_ b)) b) ;;;
  updateThis self (fun b =>
    setCircle (circleMove (Ball_circle_ b) (x (Ball_vel_ b))
                                           (y (Ball_vel_ b))) b).

(** [Ball::move] *)
Definition Ball_move (self : nat) : M unit :=
  this <- thisBall self ;;
  g <- getGame ;;
  let bounds := circleGlobalBounds (Ball_circle_ this) in
  if Rgtb (top bounds) (IZR (Z.of_N (y (windowSize_ g)))) then
    deleteThis self
  else
    Ball_move_collisions self bounds ;;;
    Ball_move_finish self.

End Constants.

(** ** [Ball::getContactAngle] on IEEE-754 binary32

    The same function with every operation rounded as the machine rounds
    it, for the property that names the exact value returned.  [atanf]
    belongs to the C library and is a parameter. *)

Module Binary32.

Definition prec : Z := 24.
Definition emax : Z := 128.

Definition float : Type := spec_float.

Definition fsub : float -> float -> float := SFsub prec emax.
Definition fmul : float -> float -> float := SFmul prec emax.
Definition fdiv : float -> float -> float := SFdiv prec emax.

(** [a == b] on [float]: the two zeros are equal, a NaN equals nothing. *)
Definition feqb : float -> float -> bool := SFeqb.

(** The [int] literal [0] converted to [float]. *)
Definition fzero : float := S754_zero false.

(** The literal [1.570796327f]: the binary32 value nearest to the decimal
    (lemma [lit_1_570796327f_nearest]). *)
Definition lit_1_570796327f : float := S754_finite false 13176795 (-23).

(** The literal [57.295779513f] (lemma [lit_57_295779513f_nearest]). *)
Definition lit_57_295779513f : float := S754_finite false 15019745 (-18).

(** 90 as a binary32 value: 11796480 / 2^17. *)
Definition f90 : float := S754_finite false 11796480 (-17).

(** An integer as a binary32 value (exact below 2^24). *)
Definition ofZ (z : Z) : float := binary_normalize prec emax z 0 false.

(** The real number a finite binary32 value stands for. *)
Definition toR (f : float) : R :=
  match f with
  | S754_finite s m e => IZR (cond_Zopp s (Zpos m)) * powerRZ 2 e
  | _ => 0
  end.

Section Libm.

Variable atanf : float -> float.

(** [Ball::getContactAngle] *)
Definition getContactAngle (object1 : Vector2 float) (object2 : Rect float)
  : float :=
  let denominator := fsub (y object1) (top object2) in
  let contactAngle :=
    if feqb denominator fzero then lit_1_570796327f
    else atanf (fdiv (fsub (x object1) (left object2)) denominator) in
  fmul contactAngle lit_57_295779513f.

End Libm.

End Binary32.

(** ** The vocabulary of the properties *)

(** The four corners of a rectangle in the order the source tries them:
    top left, top right, bottom right, bottom left. *)
Definition corners (bounds : FloatRect) : list (R * R) :=
  [ (left bounds, top bounds);
    (left bounds + width bounds, top bounds);
    (left bounds + width bounds, top bounds + height bounds);
    (left bounds, top bounds + height bounds) ].

(** The first corner nearer to the centre of the box than its radius. *)
Definition cornerHit (bounds boundingBox : FloatRect) : option (R * R) :=
  let cx := left boundingBox + width boundingBox / 2 in
  let cy := top boundingBox + height boundingBox / 2 in
  find (fun p => Rltb (distance cx cy (fst p) (snd p)) (width boundingBox / 2))
       (corners bounds).

(** The ball at index [self], if the object there is a ball. *)
Definition ballAt (g : GraphicsRunner) (self : nat) : option Ball :=
  match objects_ g !! self with
  | Some (mkObject _ (ABall b)) => Some b
  | _ => None
  end.

(** The game with the object at [self] replaced by the ball [b], deletion
    flag [d]. *)
Definition setBall (g : GraphicsRunner) (self : nat) (d : bool) (b : Ball)
  : GraphicsRunner :=
  withObjects g (<[self := mkObject d (ABall b)]> (objects_ g)).

Definition isCollisionEvent (e : Event) : Prop :=
  match e with EvCollision _ => True | EvParityFlip => False end.

(** What the collision handlers may change in an object: its deletion flag
    and, for a ball, its velocity. *)
Definition objStable (o o' : Object) : Prop :=
  match entity o, entity o' with
  | ABall b, ABall b' =>
      Ball_circle_ b' = Ball_circle_ b
      /\ Ball_attachedPos_ b' = Ball_attachedPos_ b
      /\ Ball_collisionState_ b' = Ball_collisionState_ b
  | ABall _, _ => False
  | e, e' => e' = e
  end.

Definition stable (g g' : GraphicsRunner) : Prop :=
  indexOfFirstSafetyBrick_ g' = indexOfFirstSafetyBrick_ g
  /\ numSafetyBricks_ g' = numSafetyBricks_ g
  /\ numBricks_ g' = numBricks_ g
  /\ windowSize_ g' = windowSize_ g
  /\ Forall2 objStable (objects_ g) (objects_ g').

(** The layout [Ball::move] relies on: the paddle at index 0, an object
    (the barrier) at index 1, and the bricks the counters announce inside
    the vector. *)
Definition layoutOk (g : GraphicsRunner) : Prop :=
  (exists d p, objects_ g !! 0%nat = Some (mkObject d (APaddle p)))
  /\ is_Some (objects_ g !! 1%nat)
  /\ (0 <= indexOfFirstSafetyBrick_ g)%Z
  /\ (indexOfFirstSafetyBrick_ g + numSafetyBricks_ g + numBricks_ g
      <= Z.of_nat (length (objects_ g)))%Z.

(** What a collision handler guarantees: it returns, it changes nothing but
    velocities and deletion flags, it only queries, and when it reports no
    collision the ball is as before. *)
Definition handled (self : nat) (g : GraphicsRunner)
  (res : option (bool * GraphicsRunner * list Event)) : Prop :=
  exists r g' tr,
    res = Some (r, g', tr)
    /\ stable g g'
    /\ Forall isCollisionEvent tr
    /\ (r = false -> ballAt g' self = ballAt g self).

(** The anchor an attached ball follows. *)
Definition anchorOf (g : GraphicsRunner) (b : Ball) : option Vector2f :=
  match Ball_attachedPos_ b with
  | Some p => deref g p
  | None => None
  end.

(** The ball as lines 87 to 102 of [Ball::move] leave it: parity flipped,
    snapped to the anchor if there is one, velocity clamped, translated by
    the velocity. *)
Definition finishBall (BALL_MAX_SPEED : R) (anchor : option Vector2f)
  (b : Ball) : Ball :=
  let b1 := flipCollisionState b in
  let b2 :=
    match anchor with
    | Some a =>
        setCircle (circleSetPosition (Ball_circle_ b1) (x a)
                     (y a - m_radius (Ball_circle_ b1))) b1
    | None => b1
    end in
  let b3 := setVel (clampSpeed BALL_MAX_SPEED (Ball_vel_ b2)) b2 in
  setCircle (circleMove (Ball_circle_ b3) (x (Ball_vel_ b3)) (y (Ball_vel_ b3))) b3.

(** ** Concrete scenes

    The sizes that [Constants.h] fixes are not known; the scenes take an
    800 x 600 window, a barrier 10 thick and 5 from the edges under a
    banner of height 40, a paddle 100 wide and 20 high, balls of radius 5
    and, where a speed ceiling is needed, 10. *)

(** The barrier as [GraphicsRunner]'s constructor builds it. *)
Definition barrier800 : Barrier := Barrier_new 40 800 600 10 5.

(** The brick of the first example scenario of the specification. *)
Definition brick_90_80 : Brick := Brick_new 90 80 40 20 "000"%char.

(** The game with the paddle where [GraphicsRunner]'s constructor places
    it (the middle of its top edge at (400, 560)), the barrier, no bricks,
    and the balls given. *)
Definition game800 (balls : list Ball) : GraphicsRunner :=
  mkGraphicsRunner
    (mkObject false (APaddle (Paddle_new 400 560 100 20))
     :: mkObject false (ABarrier barrier800)
     :: map (fun b => mkObject false (ABall b)) balls)
    2 0 0 (mkVector2 800%N 600%N).

(** A ball that fell through the open bottom of the field. *)
Definition fallenBall : Ball := Ball_new 400 700 1 2 5.

(** An attached ball on which [setVelocity] stored (1, 0). *)
Definition pushedBall : Ball :=
  Ball_setVelocity (Ball_newAttached 5) (mkVector2 1 0).

(** A free ball in the middle of the field, away from everything, with the
    velocity given, and its bounds. *)
Definition midBall (vx vy : R) : Ball := Ball_new 400 300 vx vy 5.

Definition midBounds : FloatRect := mkRect (400 - 5) (300 - 5) (2 * 5) (2 * 5).

(** The two balls of the second example scenario of the specification, and
    the bounds of the first. *)
Definition ballA : Ball := Ball_new 100 100 0 (-2) 5.

Definition ballB : Ball := Ball_new 100 108 0 3 5.

Definition boundsA : FloatRect := mkRect (100 - 5) (100 - 5) (2 * 5) (2 * 5).

(** ** Releasing a ball: [Ball::detach] and [GraphicsRunner::releaseBall] *)

(** [Ball::detach].  [rnd] is the value [rand()] returns; the remainder and
    the subtraction are on [int], the division on [float]. *)
Definition Ball_detach (BALL_MAX_SPEED : R) (rnd : Z) (this : Ball) : Ball :=
  let vel := mkVector2 (x (Ball_vel_ this)) (BALL_MAX_SPEED * 0.75) in
  let circle := circleMove (Ball_circle_ this) (- x vel) (- y vel) in
  let vel := mkVector2 (IZR (Z.rem rnd 10 - 5) / 20.0) (y vel) in
  mkBall circle vel None (Ball_collisionState_ this).

(** The loop of [GraphicsRunner::releaseBall], from index [i], [n] objects
    left: an object that is no ball makes [ball] a null pointer, and the
    call on it is undefined. *)
Fixpoint releaseLoop (BALL_MAX_SPEED : R) (rnd : Z) (i n : nat)
  (objects : list Object) : option (list Object) :=
  match n with
  | O => Some objects
  | S n' =>
      match objects !! i with
      | Some (mkObject d (ABall ball)) =>
          if Ball_isAttached ball then
            Some (<[i := mkObject d (ABall (Ball_detach BALL_MAX_SPEED rnd ball))]>
                    objects)
          else releaseLoop BALL_MAX_SPEED rnd (S i) n' objects
      | _ => None
      end
  end.

(** [GraphicsRunner::releaseBall].  [status_] is the status character of
    the game, here an argument; the text that the function clears when the
    intro is up is not part of the model.  The loop compares the [long i]
    with the unsigned [objects_.size()]: a negative start ends it at
    once. *)
Definition GraphicsRunner_releaseBall (BALL_MAX_SPEED : R) (rnd : Z)
  (status_ : ascii) (g : GraphicsRunner) : option GraphicsRunner :=
  if negb (Ascii.eqb status_ Ascii.zero) then Some g
  else
    let first := (indexOfFirstSafetyBrick_ g + numSafetyBricks_ g
                  + numBricks_ g)%Z in
    if (first <? 0)%Z then Some g
    else
      match releaseLoop BALL_MAX_SPEED rnd (Z.to_nat first)
              (length (objects_ g) - Z.to_nat first) (objects_ g) with
      | Some objects => Some (withObjects g objects)
      | None => None
      end.

(** The objects after the bricks are balls. *)
Definition ballsAfterBricks (g : GraphicsRunner) : Prop :=
  (0 <= indexOfFirstSafetyBrick_ g + numSafetyBricks_ g + numBricks_ g)%Z
  /\ forall i o,
       (Z.to_nat (indexOfFirstSafetyBrick_ g + numSafetyBricks_ g
                  + numBricks_ g) <= i)%nat ->
       objects_ g !! i = Some o -> exists b, entity o = ABall b.

(** ** More of SFML: what [Paddle.cpp] uses to move and turn the paddle *)

(** The integer part of a real number towards zero, and [fmod] of
    <math.h>: the remainder with the sign of the dividend. *)
Definition truncZ (r : R) : Z :=
  if Rle_dec 0 r then Int_part r else (- Int_part (- r))%Z.

Definition fmod (a b : R) : R := a - IZR (truncZ (a / b)) * b.

(** [Transformable::setRotation(angle)]: the angle is kept in [0, 360). *)
Definition setRotation (t : Transformable) (angle : R) : Transformable :=
  let r := fmod angle 360 in
  mkTransformable (m_origin t) (m_position t)
                  (if Rltb r 0 then r + 360 else r).

(** [Transformable::rotate(angle)] *)
Definition rotateBy (t : Transformable) (angle : R) : Transformable :=
  setRotation t (m_rotation t + angle).

(** [Transformable::setOrigin(x, y)] *)
Definition setOrigin (t : Transformable) (ox oy : R) : Transformable :=
  mkTransformable (mkVector2 ox oy) (m_position t) (m_rotation t).

Definition rectMove (r : RectangleShape) (dx dy : R) : RectangleShape :=
  mkRectangleShape (moveBy (r_transformable r) dx dy) (m_size r).

Definition rectSetSize (r : RectangleShape) (size : Vector2f) : RectangleShape :=
  mkRectangleShape (r_transformable r) size.

Definition rectSetOrigin (r : RectangleShape) (ox oy : R) : RectangleShape :=
  mkRectangleShape (setOrigin (r_transformable r) ox oy) (m_size r).

Definition rectRotate (r : RectangleShape) (angle : R) : RectangleShape :=
  mkRectangleShape (rotateBy (r_transformable r) angle) (m_size r).

(** ** Paddle.cpp: the motion of the paddle *)

(** The paddle with the field [timer_] of [Paddle.h], which the collision
    code never reads and the record [Paddle] leaves out.  A [time_t] is an
    integer number of seconds. *)
Record TimedPaddle := mkTimedPaddle {
  paddle : Paddle;
  timer_ : Z }.

Definition withRectangle (p : Paddle) (r : RectangleShape) : Paddle :=
  mkPaddle r (Paddle_leftCircle_ p) (Paddle_rightCircle_ p)
           (Paddle_vel_ p) (Paddle_accel_ p).

(** The keys and the event types [Paddle::processKey] tells apart. *)
Inductive Key := KeyJ | KeyL | KeyA | KeyD | KeyOther.

Inductive EventType := KeyPressed | KeyReleased | OtherEvent.

Definition Key_eqb (a b : Key) : bool :=
  match a, b with
  | KeyJ, KeyJ | KeyL, KeyL | KeyA, KeyA | KeyD, KeyD | KeyOther, KeyOther => true
  | _, _ => false
  end.

Definition EventType_eqb (a b : EventType) : bool :=
  match a, b with
  | KeyPressed, KeyPressed | KeyReleased, KeyReleased
  | OtherEvent, OtherEvent => true
  | _, _ => false
  end.

Section PaddleConstants.

(** The constants of [Constants.h], which is not among the sources, are
    parameters; the elongation time is taken to be a whole number of
    seconds. *)
Variable PADDLE_WIDTH : R.
Variable PADDLE_ELONGATION_FACTOR : R.
Variable PADDLE_ELONGATION_TIME : Z.
Variable PADDLE_ACCELERATION : R.
Variable PADDLE_MAX_ROTATION : R.

(** [Paddle::changeLength(type)] at the time [now] that [time(0)]
    returns. *)
Definition Paddle_changeLength (now : Z) (type : bool) (this : TimedPaddle)
  : TimedPaddle :=
  let rectangle_ := Paddle_rectangle_ (paddle this) in
  if type && Rgtb (IZR (now - timer_ this)) 0 then
    let rectangle_ :=
      rectSetSize rectangle_
        (mkVector2 (PADDLE_WIDTH * PADDLE_ELONGATION_FACTOR)
                   (y (m_size rectangle_))) in
    let rectangle_ := rectSetOrigin rectangle_ (x (m_size rectangle_) / 2) 0 in
    mkTimedPaddle (withRectangle (paddle this) rectangle_)
                  (now + PADDLE_ELONGATION_TIME)
  else if negb type && negb (Reqb (x (m_size rectangle_)) PADDLE_WIDTH) then
    let rectangle_ :=
      rectSetSize rectangle_ (mkVector2 PADDLE_WIDTH (y (m_size rectangle_))) in
    let rectangle_ := rectSetOrigin rectangle_ (x (m_size rectangle_) / 2) 0 in
    mkTimedPaddle (withRectangle (paddle this) rectangle_) (timer_ this)
  else this.

(** [Paddle::handleCollision]: [windowSize_.x / 2] is a division of
    unsigned integers. *)
Definition Paddle_handleCollision (windowSize : Vector2u) (this : Paddle)
  : Paddle :=
  let rectangle_ :=
    if Rltb (x (rectPosition (Paddle_rectangle_ this)))
            (IZR (Z.of_N (x windowSize / 2)))
    then rectMove (Paddle_rectangle_ this) 1 0
    else rectMove (Paddle_rectangle_ this) (-1) 0 in
  mkPaddle rectangle_ (Paddle_leftCircle_ this) (Paddle_rightCircle_ this) 0 0.

(** [Paddle::move] at the time [now]; [barrier] is the object that
    [game_.getBarrier()] returns and [windowSize] is [game_.windowSize_]. *)
Definition Paddle_move (now : Z) (barrier : Object) (windowSize : Vector2u)
  (this : TimedPaddle) : TimedPaddle :=
  let this :=
    if Reqb (IZR (now - timer_ this)) 0
    then Paddle_changeLength now false this else this in
  let p := paddle this in
  let leftCircle := circleGlobalBounds (Paddle_leftCircle_ p) in
  let rightCircle := circleGlobalBounds (Paddle_rightCircle_ p) in
  let rectangle := rectGlobalBounds (Paddle_rectangle_ p) in
  let p :=
    if negb (Ascii.eqb (fst (Object_collision barrier leftCircle)) chr_n)
       || negb (Ascii.eqb (fst (Object_collision barrier rightCircle)) chr_n)
       || negb (Ascii.eqb (fst (Object_collision barrier rectangle)) chr_n)
    then Paddle_handleCollision windowSize p else p in
  let vel_ := Paddle_vel_ p + Paddle_accel_ p in
  let vel_ := vel_ - vel_ / 13 in
  let rectangle_ := rectMove (Paddle_rectangle_ p) vel_ 0 in
  let size := m_size rectangle_ in
  let center := mkVector2 (x (rectPosition rectangle_))
                          (y (rectPosition rectangle_) + y size / 2) in
  let rotation := rectRotation rectangle_ * 0.017453294 in
  let leftCircle_ :=
    circleSetPosition (Paddle_leftCircle_ p)
      (x center - x size / 2 * cos rotation)
      (y center - x size / 2 * sin rotation) in
  let rightCircle_ :=
    circleSetPosition (Paddle_rightCircle_ p)
      (x center + x size / 2 * cos rotation)
      (y center + x size / 2 * sin rotation) in
  mkTimedPaddle
    (mkPaddle rectangle_ leftCircle_ rightCircle_ vel_ (Paddle_accel_ p))
    (timer_ this).

(** [Paddle::rotate(direction)] *)
Definition Paddle_rotate (direction : bool) (this : Paddle) : Paddle :=
  let rotation := rectRotation (Paddle_rectangle_ this) in
  let rotation :=
    if Rgtb rotation PADDLE_MAX_ROTATION then rotation - 360 else rotation in
  if direction && Rltb rotation PADDLE_MAX_ROTATION
     || negb direction && Rgtb rotation (- PADDLE_MAX_ROTATION)
  then withRectangle this
         (rectRotate (Paddle_rectangle_ this)
            (IZR (3 * ((if direction then 1 else 0) * 2 - 1))))
  else this.

(** [Paddle::processKey(type, key)] *)
Definition Paddle_processKey (type : EventType) (key : Key) (this : Paddle)
  : Paddle :=
  if Key_eqb key KeyJ || Key_eqb key KeyL then
    if EventType_eqb type KeyReleased then
      if Key_eqb key KeyL && Rgtb (Paddle_accel_ this) 0
         || Key_eqb key KeyJ && Rltb (Paddle_accel_ this) 0
      then mkPaddle (Paddle_rectangle_ this) (Paddle_leftCircle_ this)
                    (Paddle_rightCircle_ this) (Paddle_vel_ this) 0
      else this
    else
      mkPaddle (Paddle_rectangle_ this) (Paddle_leftCircle_ this)
               (Paddle_rightCircle_ this) (Paddle_vel_ this)
               (PADDLE_ACCELERATION
                * IZR ((if Key_eqb key KeyL then 1 else 0) * 2 - 1))
  else
    if EventType_eqb type KeyPressed
    then Paddle_rotate (Key_eqb key KeyD) this
    else this.

(** What can happen to the paddle between two frames and in a frame: a
    key event, a frame at a time of the clock, and the elongation that
    [GraphicsRunner::handleSpecialBrick] asks for. *)
Inductive PaddleOp :=
| OpKey (type : EventType) (key : Key)
| OpMove (now : Z) (barrier : Object) (windowSize : Vector2u)
| OpElongate (now : Z).

Definition runPaddleOp (op : PaddleOp) (this : TimedPaddle) : TimedPaddle :=
  match op with
  | OpKey type key =>
      mkTimedPaddle (Paddle_processKey type key (paddle this)) (timer_ this)
  | OpMove now barrier windowSize => Paddle_move now barrier windowSize this
  | OpElongate now => Paddle_changeLength now true this
  end.

Definition runPaddleOps (ops : list PaddleOp) (this : TimedPaddle)
  : TimedPaddle :=
  fold_left (fun p op => runPaddleOp op p) ops this.

End PaddleConstants.

(** ** GraphicsRunner.cpp: clearing the stage and the clock *)

(** The loop of [GraphicsRunner::clear]: the iterator [i] stays on the last
    object; stepping it back from the first object of the vector is
    undefined.  [fuel] bounds the number of rounds by the number of
    objects. *)
Fixpoint clearLoop (first : nat) (fuel : nat) (objects : list Object)
  : option (list Object) :=
  match fuel with
  | O => Some objects
  | S fuel' =>
      if (first <? length objects)%nat then
        if (length objects =? 1)%nat then None
        else clearLoop first fuel' (removelast objects)
      else Some objects
  end.

(** [GraphicsRunner::clear].  On an empty vector the iterator cannot be
    stepped back from [end()]; the size is compared as an unsigned number,
    so that a negative index keeps the loop from running. *)
Definition GraphicsRunner_clear (g : GraphicsRunner) : option GraphicsRunner :=
  match objects_ g with
  | [] => None
  | _ =>
      if (indexOfFirstSafetyBrick_ g <? 0)%Z then Some g
      else
        match clearLoop (Z.to_nat (indexOfFirstSafetyBrick_ g))
                (length (objects_ g)) (objects_ g) with
        | Some objects => Some (withObjects g objects)
        | None => None
        end
  end.

(** [std::to_string(int)] *)
Definition to_string (z : Z) : String.string :=
  DecimalString.NilZero.string_of_int (Z.to_int z).

(** The string literals ["0"] and [":"]. *)
Definition str_0 : String.string :=
  String.String "0"%char String.EmptyString.

Definition str_colon : String.string :=
  String.String ":"%char String.EmptyString.

(** [GraphicsRunner::getTimeStringFromSeconds(double totalSeconds)]; the
    conversions to [int] cut the fraction off. *)
Definition GraphicsRunner_getTimeStringFromSeconds (totalSeconds : R)
  : String.string :=
  let minuteString := to_string (truncZ (totalSeconds / 60)) in
  let minuteString :=
    if (String.length minuteString =? 1)%nat
    then String.append str_0 minuteString else minuteString in
  let secondString := to_string (Z.rem (truncZ totalSeconds) 60) in
  let secondString :=
    if (String.length secondString =? 1)%nat
    then String.append str_0 secondString else secondString in
  String.append minuteString (String.append str_colon secondString).

(** The two decimal digits of a number below 100. *)
Definition digitChar (d : Z) : ascii := ascii_of_nat (48 + Z.to_nat d).

Definition twoDigits (n : Z) : String.string :=
  String.String (digitChar (n / 10))
    (String.String (digitChar (n mod 10)) String.EmptyString).

(** ** StageBuilder.cpp *)

(** The builder holds a reference to the vector of the game's objects;
    its functions take the vector and give it back. *)
Record StageBuilder := mkStageBuilder {
  stageSize_ : Vector2f;
  origin_ : Vector2f;
  brickHeight_ : R;
  separation_ : R }.

(** The loop of [StageBuilder::addSafetyBricks], from column [col], [n]
    bricks left. *)
Fixpoint addSafetyLoop (this : StageBuilder) (brickWidth : R) (col : Z)
  (n : nat) (objects : list Object) : list Object :=
  match n with
  | O => objects
  | S n' =>
      addSafetyLoop this brickWidth (col + 1) n'
        (objects ++
         [mkObject false
            (ABrick
               (Brick_new
                  (2 * separation_ this + x (origin_ this)
                   + brickWidth * IZR col)
                  (y (origin_ this) + y (stageSize_ this)
                   - brickHeight_ this * 0.5 - separation_ this)
                  (brickWidth - 2 * separation_ this)
                  (brickHeight_ this * 0.5)
                  chr_s))])
  end.

(** [StageBuilder::addSafetyBricks(int numBricks)] *)
Definition StageBuilder_addSafetyBricks (this : StageBuilder) (numBricks : Z)
  (objects : list Object) : list Object :=
  let brickWidth :=
    (x (stageSize_ this) - 2 * separation_ this) / IZR numBricks in
  addSafetyLoop this brickWidth 0 (Z.to_nat numBricks) objects.

(** The safety brick of column [col] in a row of [numBricks]. *)
Definition safetyBrick (this : StageBuilder) (numBricks : Z) (col : Z) : Brick :=
  let brickWidth :=
    (x (stageSize_ this) - 2 * separation_ this) / IZR numBricks in
  Brick_new (2 * separation_ this + x (origin_ this) + brickWidth * IZR col)
            (y (origin_ this) + y (stageSize_ this)
             - brickHeight_ this * 0.5 - separation_ this)
            (brickWidth - 2 * separation_ this)
            (brickHeight_ this * 0.5)
            chr_s.

Section StageConstants.

(** The constants of [Constants.h], which is not among the sources. *)
Variable NUM_BRICKS_PER_LINE : Z.
Variable NUM_BRICK_ROWS : Z.
Variable NUM_SPECIAL_BRICKS : Z.
Variable NUM_EMPTY_ROWS : Z.
Variable SPECIALS : list ascii.

(** [rand()]: the call number [calls] returns [rand calls]; the number of
    calls made so far is part of the state. *)
Variable rand : nat -> Z.

(** [SPECIALS[rand() % (sizeof(SPECIALS)/sizeof(char))]] *)
Definition randomSpecial (calls : nat) : ascii :=
  nth (Z.to_nat (Z.rem (rand calls) (Z.of_nat (length SPECIALS))))
      SPECIALS Ascii.zero.

(** The first loop of [StageBuilder::getLevel]: the indices of the special
    bricks. *)
Fixpoint drawSpecials (calls : nat) (n : nat) : list Z :=
  match n with
  | O => []
  | S n' =>
      Z.rem (rand calls) (NUM_BRICKS_PER_LINE * NUM_BRICK_ROWS)
      :: drawSpecials (S calls) n'
  end.

(** The loop over [k]: is the index among the special ones? *)
Fixpoint isSpecial (specials : list Z) (index : Z) : bool :=
  match specials with
  | [] => false
  | s :: specials' => if (s =? index)%Z then true else isSpecial specials' index
  end.

(** A brick of the grid of level 1. *)
Definition gridBrick (this : StageBuilder) (brickWidth : R) (row col : Z)
  (special : ascii) : Brick :=
  Brick_new (x (origin_ this) + separation_ this + brickWidth * IZR col)
            (y (origin_ this) + separation_ this
             + IZR (NUM_EMPTY_ROWS + row)
               * (brickHeight_ this + separation_ this))
            (brickWidth - separation_ this)
            (brickHeight_ this)
            special.

(** The loop over the columns of a row, from column [col], [n] columns
    left; the state is the number of calls of [rand()] and the vector. *)
Fixpoint columnLoop (this : StageBuilder) (brickWidth : R)
  (specials : list Z) (row col : Z) (n : nat) (st : nat * list Object)
  : nat * list Object :=
  match n with
  | O => st
  | S n' =>
      let st' :=
        if isSpecial specials (row * NUM_BRICKS_PER_LINE + col) then
          (S (fst st),
           snd st ++ [mkObject false
                        (ABrick (gridBrick this brickWidth row col
                                   (randomSpecial (fst st))))])
        else
          (fst st,
           snd st ++ [mkObject false
                        (ABrick (gridBrick this brickWidth row col Ascii.zero))])
      in
      columnLoop this brickWidth specials row (col + 1) n' st'
  end.

(** The loop over the rows, from row [row], [n] rows left. *)
Fixpoint rowLoop (this : StageBuilder) (brickWidth : R) (specials : list Z)
  (row : Z) (n : nat) (st : nat * list Object) : nat * list Object :=
  match n with
  | O => st
  | S n' =>
      rowLoop this brickWidth specials (row + 1) n'
        (columnLoop this brickWidth specials row 0
           (Z.to_nat NUM_BRICKS_PER_LINE) st)
  end.

(** [StageBuilder::getLevel(1)]: the number of calls of [rand()] made and
    the vector; the remainder by zero, when there are special bricks to
    draw for a grid without bricks, is undefined. *)
Definition StageBuilder_getLevel1 (this : StageBuilder)
  (objects : list Object) : option (nat * list Object) :=
  let brickWidth :=
    (x (stageSize_ this) - separation_ this) / IZR NUM_BRICKS_PER_LINE in
  if (0 <? NUM_SPECIAL_BRICKS)%Z
     && (NUM_BRICKS_PER_LINE * NUM_BRICK_ROWS =? 0)%Z
  then None
  else
    let specials := drawSpecials 0 (Z.to_nat NUM_SPECIAL_BRICKS) in
    Some (rowLoop this brickWidth specials 0 (Z.to_nat NUM_BRICK_ROWS)
            (Z.to_nat NUM_SPECIAL_BRICKS, objects)).

End StageConstants.

(** *** Levels from files *)

Definition chr_dash : ascii := "-"%char.
Definition chr_tilde : ascii := "~"%char.
Definition chr_space : ascii := " "%char.

(** A brick of a level that is read from a file. *)
Definition fileBrick (this : StageBuilder) (brickWidth : R) (row col : Z)
  (special : ascii) : Brick :=
  Brick_new (x (origin_ this) + separation_ this + brickWidth * IZR col)
            (y (origin_ this) + separation_ this
             + IZR row * (brickHeight_ this + separation_ this))
            (brickWidth - separation_ this)
            (brickHeight_ this)
            special.

(** The state of the loops of [StageBuilder::loadLevelFromFile]: the
    variable [special], the number of calls of [rand()] and the vector. *)
Record LoadState := mkLoadState {
  ls_special : ascii;
  ls_calls : nat;
  ls_objects : list Object }.

(** The loop [for (char c : line)], from column [col]. *)
Fixpoint charLoop (SPECIALS : list ascii) (rand : nat -> Z)
  (this : StageBuilder) (brickWidth : R) (row col : Z) (line : list ascii)
  (st : LoadState) : LoadState :=
  match line with
  | [] => st
  | c :: line' =>
      let st1 :=
        if Ascii.eqb c chr_dash then
          (c, mkLoadState Ascii.zero (ls_calls st) (ls_objects st))
        else if Ascii.eqb c chr_tilde then
          (c, mkLoadState (randomSpecial SPECIALS rand (ls_calls st))
                          (S (ls_calls st)) (ls_objects st))
        else (chr_space, st) in
      let st2 :=
        if negb (Ascii.eqb (fst st1) chr_space) then
          mkLoadState (ls_special (snd st1)) (ls_calls (snd st1))
            (ls_objects (snd st1)
             ++ [mkObject false
                   (ABrick (fileBrick this brickWidth row col
                              (ls_special (snd st1))))])
        else snd st1 in
      charLoop SPECIALS rand this brickWidth row (col + 1) line' st2
  end.

(** The loop [while (getline(levelFile, line))], from row [row], with the
    length of the first line and the width of a brick as found so far. *)
Fixpoint lineLoop (SPECIALS : list ascii) (rand : nat -> Z)
  (this : StageBuilder) (numBricksPerLines : nat) (brickWidth : R) (row : Z)
  (lines : list (list ascii)) (st : LoadState) : LoadState :=
  match lines with
  | [] => st
  | line :: lines' =>
      let numBricksPerLines' :=
        if (numBricksPerLines =? 0)%nat then length line
        else numBricksPerLines in
      let brickWidth' :=
        if (numBricksPerLines =? 0)%nat
        then (x (stageSize_ this) - separation_ this)
             / IZR (Z.of_nat (length line))
        else brickWidth in
      let line :=
        if (numBricksPerLines' <? length line)%nat
        then take numBricksPerLines' line else line in
      lineLoop SPECIALS rand this numBricksPerLines' brickWidth' (row + 1)
        lines'
        (charLoop SPECIALS rand this brickWidth' row 0 line st)
  end.

(** [StageBuilder::loadLevelFromFile(level)].  [file] is what the file of
    the level holds, line by line, or [None] when it cannot be opened;
    [calls] is the number of calls of [rand()] made before. *)
Definition StageBuilder_loadLevelFromFile (SPECIALS : list ascii)
  (rand : nat -> Z) (this : StageBuilder) (file : option (list (list ascii)))
  (calls : nat) (objects : list Object) : bool * (nat * list Object) :=
  match file with
  | None => (false, (calls, objects))
  | Some lines =>
      let st := lineLoop SPECIALS rand this 0 0 0 lines
                  (mkLoadState Ascii.zero calls objects) in
      (true, (ls_calls st, ls_objects st))
  end.

(** The characters of a file that stand for bricks, with their rows and
    columns, in the order of reading; the lines are cut to [w]
    characters. *)
Definition isBrickChar (c : ascii) : bool :=
  Ascii.eqb c chr_dash || Ascii.eqb c chr_tilde.

Fixpoint lineCells (row col : Z) (line : list ascii) : list (Z * Z * ascii) :=
  match line with
  | [] => []
  | c :: line' =>
      (if isBrickChar c then [(row, col, c)] else [])
      ++ lineCells row (col + 1) line'
  end.

Fixpoint fileCells (w : nat) (row : Z) (lines : list (list ascii))
  : list (Z * Z * ascii) :=
  match lines with
  | [] => []
  | line :: lines' => lineCells row 0 (take w line) ++ fileCells w (row + 1) lines'
  end.

(** The length of the first line that is not empty, 0 without one. *)
Fixpoint firstWidth (lines : list (list ascii)) : nat :=
  match lines with
  | [] => 0
  | line :: lines' =>
      if (length line =? 0)%nat then firstWidth lines' else length line
  end.

(** The bricks for a list of such characters, with the calls of [rand()]
    before and after. *)
Fixpoint layFile (SPECIALS : list ascii) (rand : nat -> Z)
  (this : StageBuilder) (brickWidth : R) (cells : list (Z * Z * ascii))
  (calls : nat) : nat * list Brick :=
  match cells with
  | [] => (calls, [])
  | (row, col, c) :: cells' =>
      if Ascii.eqb c chr_dash then
        let r := layFile SPECIALS rand this brickWidth cells' calls in
        (fst r, fileBrick this brickWidth row col Ascii.zero :: snd r)
      else
        let r := layFile SPECIALS rand this brickWidth cells' (S calls) in
        (fst r,
         fileBrick this brickWidth row col (randomSpecial SPECIALS rand calls)
         :: snd r)
  end.

(** [StageBuilder::getLevel(level)]; [levels] gives what the file of a
    level holds. *)
Definition StageBuilder_getLevel
  (NUM_BRICKS_PER_LINE NUM_BRICK_ROWS NUM_SPECIAL_BRICKS NUM_EMPTY_ROWS : Z)
  (SPECIALS : list ascii) (rand : nat -> Z)
  (levels : Z -> option (list (list ascii)))
  (this : StageBuilder) (level : Z) (calls : nat) (objects : list Object)
  : option (bool * (nat * list Object)) :=
  if (level =? 1)%Z then
    match StageBuilder_getLevel1 NUM_BRICKS_PER_LINE NUM_BRICK_ROWS
            NUM_SPECIAL_BRICKS NUM_EMPTY_ROWS SPECIALS rand this objects with
    | Some st => Some (true, st)
    | None => None
    end
  else
    Some (StageBuilder_loadLevelFromFile SPECIALS rand this (levels level)
            calls objects).

(** ** GraphicsRunner.cpp: the next level *)

(** What [GraphicsRunner::nextLevel] leaves behind. *)
Record NextLevel := mkNextLevel {
  nl_level_ : Z;
  nl_status_ : ascii;
  nl_calls : nat;
  nl_game : GraphicsRunner }.

(** [GraphicsRunner::nextLevel(needClear)] on the objects and the counters
    of the game; the texts and the timers that the function also sets are
    not part of the model.  [level_] is the level before the call and
    [builder_] the stage builder of the game; the status is ['o'] when
    [gameOver] has been called and 0 otherwise.  The new ball takes the
    address of the position of the paddle, which index 0 must hold. *)
Definition GraphicsRunner_nextLevel
  (NUM_SAFETY_BRICKS NUM_BRICKS_PER_LINE NUM_BRICK_ROWS NUM_SPECIAL_BRICKS
     NUM_EMPTY_ROWS : Z)
  (SPECIALS : list ascii) (BALL_RADIUS : R) (rand : nat -> Z)
  (levels : Z -> option (list (list ascii))) (builder_ : StageBuilder)
  (needClear : bool) (level_ : Z) (calls : nat) (g : GraphicsRunner)
  : option NextLevel :=
  let level_ := (level_ + 1)%Z in
  match (if needClear then GraphicsRunner_clear g else Some g) with
  | None => None
  | Some g1 =>
      let numSafetyBricks_ := (NUM_SAFETY_BRICKS - level_ + 1)%Z in
      let objects :=
        StageBuilder_addSafetyBricks builder_ numSafetyBricks_ (objects_ g1) in
      match StageBuilder_getLevel NUM_BRICKS_PER_LINE NUM_BRICK_ROWS
              NUM_SPECIAL_BRICKS NUM_EMPTY_ROWS SPECIALS rand levels builder_
              level_ calls objects with
      | None => None
      | Some (loaded, (calls', objects)) =>
          let status_ := if loaded then Ascii.zero else "o"%char in
          let numBricks_ :=
            (Z.of_nat (length objects)
             - (indexOfFirstSafetyBrick_ g1 + numSafetyBricks_))%Z in
          match objects !! 0%nat with
          | Some (mkObject _ (APaddle _)) =>
              Some (mkNextLevel level_ status_ calls'
                      (mkGraphicsRunner
                         (objects
                          ++ [mkObject false (ABall (Ball_newAttached BALL_RADIUS))])
                         (indexOfFirstSafetyBrick_ g1) numSafetyBricks_
                         numBricks_ (windowSize_ g1)))
          | _ => None
          end
      end
  end.

(** ** More vocabulary: the brick loop and the frame *)

(** The velocity [Ball::handleBrickCollisions] leaves after the answer [r]
    (the character and the box) of a brick: a flip for a side, the corner
    response for a corner. *)
Definition brickResponse (r : ascii * FloatRect) (b : Ball) : Vector2f :=
  if Ascii.eqb (fst r) chr_v then
    mkVector2 (x (Ball_vel_ b)) (y (Ball_vel_ b) * -1)
  else if Ascii.eqb (fst r) chr_h then
    mkVector2 (x (Ball_vel_ b) * -1) (y (Ball_vel_ b))
  else
    cornerResponse
      (Ball_getContactAngle (circlePosition (Ball_circle_ b)) (snd r))
      (Ball_vel_ b).

(** The first object from index [i], among [n], that does not answer
    ['n'] to the bounds, with its answer. *)
Fixpoint firstTouched (g : GraphicsRunner) (bounds : FloatRect) (i : Z)
  (n : nat) : option (Z * (ascii * FloatRect)) :=
  match n with
  | O => None
  | S n' =>
      match objectAt g i with
      | Some o =>
          if Ascii.eqb (fst (Object_collision o bounds)) chr_n
          then firstTouched g bounds (i + 1) n'
          else Some (i, Object_collision o bounds)
      | None => None
      end
  end.

(** The queries of the objects [i], [i + 1], ... ([n] of them). *)
Fixpoint queries (i : Z) (n : nat) : list Event :=
  match n with
  | O => []
  | S n' => EvCollision i :: queries (i + 1) n'
  end.

(** The objects the counters announce as bricks are bricks. *)
Definition bricksInRange (g : GraphicsRunner) : Prop :=
  forall i : Z,
    (indexOfFirstSafetyBrick_ g <= i
     < indexOfFirstSafetyBrick_ g + numSafetyBricks_ g + numBricks_ g)%Z ->
    exists d br, objectAt g i = Some (mkObject d (ABrick br)).

(** What a frame of a ball may change in the object at an index: a
    deletion flag may be set, never cleared; a paddle, a barrier or a brick
    is otherwise as it was; a ball stays a ball and, unless it is the ball
    that moves, keeps its shape, attachment and parity. *)
Definition objFrame (isSelf : bool) (o o' : Object) : Prop :=
  (delete_ o = true -> delete_ o' = true)
  /\ match entity o with
     | ABall b =>
         exists b', entity o' = ABall b'
           /\ (isSelf = false ->
               Ball_circle_ b' = Ball_circle_ b
               /\ Ball_attachedPos_ b' = Ball_attachedPos_ b
               /\ Ball_collisionState_ b' = Ball_collisionState_ b)
     | e => entity o' = e
     end.

Definition frame (self : nat) (g g' : GraphicsRunner) : Prop :=
  length (objects_ g') = length (objects_ g)
  /\ indexOfFirstSafetyBrick_ g' = indexOfFirstSafetyBrick_ g
  /\ numSafetyBricks_ g' = numSafetyBricks_ g
  /\ numBricks_ g' = numBricks_ g
  /\ windowSize_ g' = windowSize_ g
  /\ forall i o, objects_ g !! i = Some o ->
       exists o', objects_ g' !! i = Some o'
         /\ objFrame (Nat.eqb i self) o o'.

(** A computation that keeps the frame from wherever it starts. *)
Definition keepsFrame {A} (self : nat) (m : M A) : Prop :=
  forall g a g' tr, m g = Some (a, g', tr) -> frame self g g'.

(** The game after the ball at [self] has hit the brick at index [j],
    whose answer was [r]: the brick is marked for deletion and the ball has
    the velocity of the response. *)
Definition hitBrick (g : GraphicsRunner) (self : nat) (j : Z)
  (r : ascii * FloatRect) : GraphicsRunner :=
  match objectAt g j, objects_ g !! self with
  | Some o, Some (mkObject d (ABall b)) =>
      withObjects g
        (<[self := mkObject d (ABall (Ball_setVelocity b (brickResponse r b)))]>
           (<[Z.to_nat j := mkObject true (entity o)]> (objects_ g)))
  | _, _ => g
  end.

(** The paddle is under control: it accelerates by the constant or not at
    all, and its speed is at most twelve times the constant. *)
Definition paddleCalm (PADDLE_ACCELERATION : R) (p : Paddle) : Prop :=
  (Paddle_accel_ p = 0 \/ Paddle_accel_ p = PADDLE_ACCELERATION
   \/ Paddle_accel_ p = - PADDLE_ACCELERATION)
  /\ Rabs (Paddle_vel_ p) <= 12 * Rabs PADDLE_ACCELERATION.

(** The angle that [Transformable] stores for a rotation by [k] steps of
    three degrees, clockwise for a positive [k]. *)
Definition stepsAngle (k : Z) : R :=
  if (k <? 0)%Z then 360 + IZR (3 * k) else IZR (3 * k).

(** An operation that leaves an elongation until the second [t] alone: no
    frame in the second [t] itself, no new elongation after it. *)
Definition keepsElongation (t : Z) (op : PaddleOp) : Prop :=
  match op with
  | OpKey _ _ => True
  | OpMove now _ _ => now <> t
  | OpElongate now => (now <= t)%Z
  end.

(** The paddle is elongated until the second [t]. *)
Definition elongatedUntil (PADDLE_WIDTH PADDLE_ELONGATION_FACTOR : R) (t : Z)
  (this : TimedPaddle) : Prop :=
  timer_ this = t
  /\ x (m_size (Paddle_rectangle_ (paddle this)))
     = PADDLE_WIDTH * PADDLE_ELONGATION_FACTOR.

(** The cells of a grid of [rows] rows of [columns] columns, as (row,
    column), row after row. *)
Definition rowCells (row col : Z) (n : nat) : list (Z * Z) :=
  map (fun k : nat => (row, (col + Z.of_nat k)%Z)) (seq 0 n).

Fixpoint gridCells (columns : nat) (row : Z) (rows : nat) : list (Z * Z) :=
  match rows with
  | O => []
  | S rows' => rowCells row 0 columns ++ gridCells columns (row + 1) rows'
  end.

(** The bricks that the loops of [StageBuilder::getLevel] lay on a list of
    cells, with the number of calls of [rand()] before and after. *)
Fixpoint layBricks (NUM_BRICKS_PER_LINE NUM_EMPTY_ROWS : Z)
  (SPECIALS : list ascii) (rand : nat -> Z) (this : StageBuilder)
  (brickWidth : R) (specials : list Z) (cells : list (Z * Z)) (calls : nat)
  : nat * list Brick :=
  match cells with
  | [] => (calls, [])
  | (row, col) :: cells' =>
      if isSpecial specials (row * NUM_BRICKS_PER_LINE + col) then
        let r := layBricks NUM_BRICKS_PER_LINE NUM_EMPTY_ROWS SPECIALS rand
                   this brickWidth specials cells' (S calls) in
        (fst r,
         gridBrick NUM_EMPTY_ROWS this brickWidth row col
           (randomSpecial SPECIALS rand calls) :: snd r)
      else
        let r := layBricks NUM_BRICKS_PER_LINE NUM_EMPTY_ROWS SPECIALS rand
                   this brickWidth specials cells' calls in
        (fst r,
         gridBrick NUM_EMPTY_ROWS this brickWidth row col Ascii.zero :: snd r)
  end.

(** A brick lies on a cell of the grid: it is the brick of the grid there,
    and it is special only if the index of the cell was drawn. *)
Definition liesOn (NUM_BRICKS_PER_LINE NUM_EMPTY_ROWS : Z)
  (this : StageBuilder) (brickWidth : R) (specials : list Z)
  (cell : Z * Z) (b : Brick) : Prop :=
  exists special : ascii,
    b = gridBrick NUM_EMPTY_ROWS this brickWidth (fst cell) (snd cell) special
    /\ (special <> Ascii.zero ->
        In (fst cell * NUM_BRICKS_PER_LINE + snd cell)%Z specials).

Definition isSpecialBrick (b : Brick) : bool :=
  negb (Ascii.eqb (Brick_special_ b) Ascii.zero).

(** A game with one brick, the brick of the first example scenario, and a
    ball that touches it from below. *)
Definition brickGame : GraphicsRunner :=
  mkGraphicsRunner
    [ mkObject false (APaddle (Paddle_new 400 560 100 20));
      mkObject false (ABarrier barrier800);
      mkObject false (ABrick brick_90_80);
      mkObject false (ABall (Ball_new 100 100 1 (-2) 5)) ]
    2 0 1 (mkVector2 800%N 600%N).

(** * Properties *)

(** ** Comparisons *)

Lemma Rltb_true (a b : R) : a < b -> Rltb a b = true.
Proof. intros H. unfold Rltb. destruct (Rlt_dec a b); [reflexivity | contradiction]. Qed.

Lemma Rltb_false (a b : R) : ~ a < b -> Rltb a b = false.
Proof. intros H. unfold Rltb. destruct (Rlt_dec a b); [contradiction | reflexivity]. Qed.

Lemma Rltb_lt (a b : R) : Rltb a b = true <-> a < b.
Proof.
  unfold Rltb. destruct (Rlt_dec a b); split; intros; auto; discriminate.
Qed.

Lemma Rleb_true (a b : R) : a <= b -> Rleb a b = true.
Proof. intros H. unfold Rleb. destruct (Rle_dec a b); [reflexivity | contradiction]. Qed.

Lemma Rleb_false (a b : R) : ~ a <= b -> Rleb a b = false.
Proof. intros H. unfold Rleb. destruct (Rle_dec a b); [contradiction | reflexivity]. Qed.

Lemma Reqb_true (a b : R) : a = b -> Reqb a b = true.
Proof. intros H. unfold Reqb. destruct (Req_dec_T a b); [reflexivity | contradiction]. Qed.

Lemma Reqb_false (a b : R) : a <> b -> Reqb a b = false.
Proof. intros H. unfold Reqb. destruct (Req_dec_T a b); [contradiction | reflexivity]. Qed.

(** Decides the comparisons, minima and maxima of a goal whose operands
    are numerals or are ordered by the hypotheses. *)
Ltac Rdecide :=
  unfold Rgtb, Rgeb;
  repeat match goal with
    | |- context [Rmin ?a ?b] =>
        first [rewrite (Rmin_left a b) by lra | rewrite (Rmin_right a b) by lra]
    | |- context [Rmax ?a ?b] =>
        first [rewrite (Rmax_left a b) by lra | rewrite (Rmax_right a b) by lra]
    | |- context [Rltb ?a ?b] =>
        first [rewrite (Rltb_true a b) by lra | rewrite (Rltb_false a b) by lra]
    | |- context [Rleb ?a ?b] =>
        first [rewrite (Rleb_true a b) by lra | rewrite (Rleb_false a b) by lra]
    | |- context [Reqb ?a ?b] =>
        first [rewrite (Reqb_true a b) by lra | rewrite (Reqb_false a b) by lra]
    end.

(** ** Bounds of shapes that are not rotated *)

Lemma getTransform_unrotated (t : Transformable) :
  m_rotation t = 0 ->
  getTransform t =
    mkTransform 1 0 (x (m_position t) - x (m_origin t))
                0 1 (y (m_position t) - y (m_origin t))
                0 0 1.
Proof.
  intros H. unfold getTransform.
  replace (- m_rotation t * 3.141592654 / 180) with 0 by (rewrite H; lra).
  rewrite cos_0, sin_0. f_equal; lra.
Qed.

Lemma transformRect_translation (tx ty w h : R) :
  0 <= w -> 0 <= h ->
  transformRect (mkTransform 1 0 tx 0 1 ty 0 0 1) (mkRect 0 0 w h)
  = mkRect tx ty w h.
Proof.
  intros Hw Hh. unfold transformRect, transformPoint.
  cbn [left top width height x y a00 a01 a02 a10 a11 a12].
  Rdecide. f_equal; lra.
Qed.

Lemma rectGlobalBounds_unrotated (r : RectangleShape) :
  rectRotation r = 0 -> 0 <= x (m_size r) -> 0 <= y (m_size r) ->
  rectGlobalBounds r =
    mkRect (x (rectPosition r) - x (m_origin (r_transformable r)))
           (y (rectPosition r) - y (m_origin (r_transformable r)))
           (x (m_size r)) (y (m_size r)).
Proof.
  intros H Hw Hh. unfold rectGlobalBounds, rectLocalBounds.
  rewrite getTransform_unrotated by exact H.
  apply transformRect_translation; assumption.
Qed.

Lemma circleGlobalBounds_unrotated (c : CircleShape) :
  m_rotation (c_transformable c) = 0 -> 0 <= m_radius c ->
  circleGlobalBounds c =
    mkRect (x (circlePosition c) - x (m_origin (c_transformable c)))
           (y (circlePosition c) - y (m_origin (c_transformable c)))
           (2 * m_radius c) (2 * m_radius c).
Proof.
  intros H Hr. unfold circleGlobalBounds, circleLocalBounds.
  rewrite getTransform_unrotated by exact H.
  apply transformRect_translation; lra.
Qed.

Lemma rectangleAt_bounds (px py w h : R) :
  0 <= w -> 0 <= h ->
  rectGlobalBounds (rectangleAt px py w h) = mkRect px py w h.
Proof.
  intros Hw Hh. rewrite rectGlobalBounds_unrotated; cbn; try assumption; try reflexivity.
  f_equal; lra.
Qed.

Lemma Ball_new_bounds (px py vx vy r : R) :
  0 <= r ->
  circleGlobalBounds (Ball_circle_ (Ball_new px py vx vy r))
  = mkRect (px - r) (py - r) (2 * r) (2 * r).
Proof.
  intros Hr. rewrite circleGlobalBounds_unrotated; cbn; try assumption; reflexivity.
Qed.

(** ** Barrier *)

Lemma Barrier_collision_box (this : Barrier) (boundingBox : FloatRect) :
  snd (Barrier_collision this boundingBox) = boundingBox.
Proof.
  unfold Barrier_collision.
  destruct (_ || _); [reflexivity |].
  destruct (intersects _ _); reflexivity.
Qed.

Lemma barrier800_left :
  rectGlobalBounds (Barrier_left_ barrier800) = mkRect 5 (5 + 40) 10 (600 - 5 - 40).
Proof. apply rectangleAt_bounds; lra. Qed.

Lemma barrier800_top :
  rectGlobalBounds (Barrier_top_ barrier800)
  = mkRect 5 (5 + 40) (800 - 2 * 5 - 10) 10.
Proof. apply rectangleAt_bounds; lra. Qed.

Lemma barrier800_right :
  rectGlobalBounds (Barrier_right_ barrier800)
  = mkRect (800 - 5 - 10) (5 + 40) 10 (600 - 5 - 40).
Proof. apply rectangleAt_bounds; lra. Qed.

(** Evaluates [intersects] and [contains] on rectangles given by
    numerals. *)
Ltac Rgeometry :=
  unfold intersects, contains;
  cbn [left top width height x y];
  Rdecide.

(** The order of the two tests shows in the top corners, where the walls
    overlap: a box there intersects the top wall as well as a side wall,
    and the result is horizontal. *)
Lemma Barrier_collision_corner :
  let box := mkRect 10 50 10 10 in
  intersects (rectGlobalBounds (Barrier_left_ barrier800)) box = true
  /\ intersects (rectGlobalBounds (Barrier_top_ barrier800)) box = true
  /\ fst (Barrier_collision barrier800 box) = chr_h.
Proof.
  cbv zeta. unfold Barrier_collision.
  rewrite barrier800_left, barrier800_top, barrier800_right.
  assert (E : intersects (mkRect 5 (5 + 40) 10 (600 - 5 - 40))
                (mkRect 10 50 10 10) = true) by (Rgeometry; reflexivity).
  split; [exact E |].
  split; [Rgeometry; reflexivity |].
  rewrite E. reflexivity.
Qed.

(** C5, as stated, fails in the top corners: the box at (10, 50) of size
    10 by 10 intersects the top wall of the barrier, and the result is
    horizontal, not vertical, because the side walls are tested first and
    the box intersects the left wall as well. *)
Lemma C5_counterexample_top_corner :
  let box := mkRect 10 50 10 10 in
  intersects (rectGlobalBounds (Barrier_top_ barrier800)) box = true
  /\ fst (Barrier_collision barrier800 box) = chr_h
  /\ fst (Barrier_collision barrier800 box) <> chr_v.
Proof.
  destruct Barrier_collision_corner as (_ & Htop & Hh).
  split; [exact Htop |]. split; [exact Hh |].
  rewrite Hh. discriminate.
Qed.

(** C5 (amended): [Barrier::collision] tests the side walls before the top
    wall: a box that intersects the left or the right wall gets
    horizontal; one that intersects neither of them, and intersects the top
    wall, gets vertical; any other gets none; and in every case the box
    comes back as it was passed. *)
Theorem C5_Barrier_collision_priority (this : Barrier) (boundingBox : FloatRect) :
  let hitsLeft := intersects (rectGlobalBounds (Barrier_left_ this)) boundingBox in
  let hitsRight := intersects (rectGlobalBounds (Barrier_right_ this)) boundingBox in
  let hitsTop := intersects (rectGlobalBounds (Barrier_top_ this)) boundingBox in
  (hitsLeft = true \/ hitsRight = true ->
     fst (Barrier_collision this boundingBox) = chr_h)
  /\ (hitsLeft = false -> hitsRight = false -> hitsTop = true ->
        fst (Barrier_collision this boundingBox) = chr_v)
  /\ (hitsLeft = false -> hitsRight = false -> hitsTop = false ->
        fst (Barrier_collision this boundingBox) = chr_n)
  /\ snd (Barrier_collision this boundingBox) = boundingBox.
Proof.
  cbv zeta. unfold Barrier_collision.
  destruct (intersects (rectGlobalBounds (Barrier_left_ this)) boundingBox);
    destruct (intersects (rectGlobalBounds (Barrier_right_ this)) boundingBox);
    destruct (intersects (rectGlobalBounds (Barrier_top_ this)) boundingBox);
    cbn; repeat split; intros; try reflexivity; try discriminate;
    match goal with H : _ \/ _ |- _ => destruct H; discriminate end.
Qed.

(** The three cases on the concrete barrier: a box on the left wall, one
    on the top wall only, one in the open field. *)
Lemma C5_Barrier_collision_priority_witness :
  fst (Barrier_collision barrier800 (mkRect 10 300 10 10)) = chr_h
  /\ fst (Barrier_collision barrier800 (mkRect 400 50 10 10)) = chr_v
  /\ fst (Barrier_collision barrier800 (mkRect 400 300 10 10)) = chr_n.
Proof.
  split; [| split].
  - apply (C5_Barrier_collision_priority barrier800 (mkRect 10 300 10 10)).
    left. rewrite barrier800_left. Rgeometry. reflexivity.
  - apply (C5_Barrier_collision_priority barrier800 (mkRect 400 50 10 10)).
    + rewrite barrier800_left. Rgeometry. reflexivity.
    + rewrite barrier800_right. Rgeometry. reflexivity.
    + rewrite barrier800_top. Rgeometry. reflexivity.
  - apply (C5_Barrier_collision_priority barrier800 (mkRect 400 300 10 10)).
    + rewrite barrier800_left. Rgeometry. reflexivity.
    + rewrite barrier800_right. Rgeometry. reflexivity.
    + rewrite barrier800_top. Rgeometry. reflexivity.
Defined.

(** ** Brick *)

Lemma Brick_collision_disjoint (this : Brick) (boundingBox : FloatRect) :
  intersects (rectGlobalBounds (Brick_rectangle_ this)) boundingBox = false ->
  Brick_collision this boundingBox = (chr_n, boundingBox).
Proof. intros H. unfold Brick_collision. rewrite H. reflexivity. Qed.

(** C3: for a box that overlaps the brick's bounds, [Brick::collision]
    gives exactly one of vertical, horizontal, corner, none, decided in
    this order: vertical when the top or the bottom midline point of the
    box is inside the brick; else horizontal when the left or the right
    midline point is inside; else corner when a corner of the brick is
    nearer to the centre than the radius, that corner (the first in the
    order top left, top right, bottom right, bottom left) written to
    [left] and [top] of the box; else none.  Only a corner writes. *)
Theorem C3_Brick_collision_dispatch (this : Brick) (boundingBox : FloatRect) :
  let bounds := rectGlobalBounds (Brick_rectangle_ this) in
  let cx := left boundingBox + width boundingBox / 2 in
  let cy := top boundingBox + height boundingBox / 2 in
  let vertical :=
    contains bounds cx (top boundingBox)
    || contains bounds cx (top boundingBox + height boundingBox) in
  let horizontal :=
    contains bounds (left boundingBox) cy
    || contains bounds (left boundingBox + width boundingBox) cy in
  let r := Brick_collision this boundingBox in
  intersects bounds boundingBox = true ->
  (vertical = true -> r = (chr_v, boundingBox))
  /\ (vertical = false -> horizontal = true -> r = (chr_h, boundingBox))
  /\ (vertical = false -> horizontal = false ->
      forall px py, cornerHit bounds boundingBox = Some (px, py) ->
      r = (chr_c, mkRect px py (width boundingBox) (height boundingBox)))
  /\ (vertical = false -> horizontal = false ->
      cornerHit bounds boundingBox = None -> r = (chr_n, boundingBox))
  /\ (fst r = chr_v \/ fst r = chr_h \/ fst r = chr_c \/ fst r = chr_n).
Proof.
  cbv zeta. intros Hov. unfold Brick_collision. rewrite Hov.
  unfold cornerHit, corners. cbn [find fst snd x y].
  set (bounds := rectGlobalBounds (Brick_rectangle_ this)).
  set (vertical := contains bounds _ (top boundingBox) || _).
  set (horizontal := contains bounds (left boundingBox) _ || _).
  destruct vertical.
  { repeat split; intros; try reflexivity; try discriminate; cbn [fst]; auto. }
  destruct horizontal.
  { repeat split; intros; try reflexivity; try discriminate; cbn [fst]; auto. }
  repeat match goal with
  | |- context [if Rltb ?a ?b then _ else _] => destruct (Rltb a b)
  end;
  repeat split; intros; try reflexivity; try discriminate;
  try (match goal with H : Some _ = Some _ |- _ => inversion H; subst end;
       reflexivity);
  cbn [fst]; auto.
Qed.

Lemma brick_90_80_bounds :
  rectGlobalBounds (Brick_rectangle_ brick_90_80) = mkRect 90 80 40 20.
Proof. apply rectangleAt_bounds; lra. Qed.

(** The first example scenario: the box of a ball of radius 5 centred at
    (100, 100) against the brick (90, 80, 40, 20) is a vertical
    collision. *)
Lemma C3_Brick_collision_dispatch_witness :
  intersects (rectGlobalBounds (Brick_rectangle_ brick_90_80))
             (mkRect 95 95 10 10) = true
  /\ Brick_collision brick_90_80 (mkRect 95 95 10 10)
     = (chr_v, mkRect 95 95 10 10).
Proof.
  assert (H : intersects (rectGlobalBounds (Brick_rectangle_ brick_90_80))
                (mkRect 95 95 10 10) = true).
  { rewrite brick_90_80_bounds. Rgeometry. reflexivity. }
  split; [exact H |].
  apply (C3_Brick_collision_dispatch brick_90_80 (mkRect 95 95 10 10) H).
  rewrite brick_90_80_bounds. Rgeometry. reflexivity.
Defined.

(** ** The peer-facing query of a ball *)

Lemma distance_nonneg (cx cy px py : R) : 0 <= distance cx cy px py.
Proof. apply sqrt_pos. Qed.

Lemma distance_same (cx cy px py : R) :
  cx = px -> cy = py -> distance cx cy px py = 0.
Proof.
  intros -> ->. unfold distance.
  replace ((px - px) ^ 2 + (py - py) ^ 2) with 0 by ring.
  apply sqrt_0.
Qed.

Lemma Ball_collision_attached (this : Ball) (boundingBox : FloatRect) :
  Ball_isAttached this = true ->
  Ball_collision this boundingBox = (chr_n, boundingBox).
Proof. intros H. unfold Ball_collision. rewrite H. reflexivity. Qed.

(** A ball as its constructor builds it, queried with its own bounds as
    the loop of [Ball::handleBallCollisions] does: the distance is zero and
    the answer is none. *)
Lemma Ball_collision_own_bounds (px py vx vy r : R) :
  0 <= r ->
  let b := Ball_new px py vx vy r in
  Ball_collision b (circleGlobalBounds (Ball_circle_ b))
  = (chr_n, circleGlobalBounds (Ball_circle_ b)).
Proof.
  intros Hr. cbv zeta. rewrite Ball_new_bounds by exact Hr.
  unfold Ball_collision, Ball_new, circlePosition.
  cbn [Ball_isAttached Ball_attachedPos_ Ball_circle_ c_transformable
       m_position m_radius left top width height x y].
  rewrite distance_same by lra. Rdecide. rewrite andb_false_r. reflexivity.
Qed.

(** C9: a free ball queried with a box whose centre is no farther from
    the ball's centre than a quarter of the ball's radius answers none and
    leaves the box as it was.  The ball queried with its own bounds is
    the case of distance zero (see the witness). *)
Theorem C9_Ball_collision_epsilon_guard (this : Ball) (boundingBox : FloatRect) :
  Ball_isAttached this = false ->
  distance (x (circlePosition (Ball_circle_ this)))
           (y (circlePosition (Ball_circle_ this)))
           (left boundingBox + width boundingBox / 2)
           (top boundingBox + height boundingBox / 2)
    <= m_radius (Ball_circle_ this) / 4 ->
  Ball_collision this boundingBox = (chr_n, boundingBox).
Proof.
  intros Hfree Hd. unfold Ball_collision. rewrite Hfree. cbn [x y].
  unfold Rgtb at 1.
  rewrite (Rltb_false (m_radius (Ball_circle_ this) / 4)) by lra.
  rewrite andb_false_r. reflexivity.
Qed.

(** The first ball of the second example scenario, queried with its own
    bounds: the distance is zero and the answer is none. *)
Lemma C9_Ball_collision_epsilon_guard_witness :
  let b := Ball_new 100 100 0 (-2) 5 in
  Ball_collision b (circleGlobalBounds (Ball_circle_ b))
  = (chr_n, circleGlobalBounds (Ball_circle_ b)).
Proof.
  cbv zeta.
  apply (C9_Ball_collision_epsilon_guard (Ball_new 100 100 0 (-2) 5)).
  - reflexivity.
  - rewrite Ball_new_bounds by lra. cbn.
    rewrite distance_same by lra. lra.
Defined.

(** ** Running [Ball::move] *)

Lemma objStable_refl (o : Object) : objStable o o.
Proof. unfold objStable. destruct (entity o); auto. Qed.

Lemma objStable_trans (a b c : Object) :
  objStable a b -> objStable b c -> objStable a c.
Proof.
  unfold objStable.
  destruct (entity a), (entity b), (entity c); try tauto; try congruence.
  intros (-> & -> & ->) (-> & -> & ->). auto.
Qed.

Lemma stable_refl (g : GraphicsRunner) : stable g g.
Proof.
  repeat split. apply Forall2_same_length_lookup. split; [reflexivity |].
  intros i a b Ha Hb. rewrite Ha in Hb. inversion Hb. apply objStable_refl.
Qed.

Lemma stable_trans (a b c : GraphicsRunner) :
  stable a b -> stable b c -> stable a c.
Proof.
  intros (A1 & A2 & A3 & A4 & A5) (B1 & B2 & B3 & B4 & B5).
  repeat split; try congruence.
  apply Forall2_same_length_lookup. split.
  - rewrite (Forall2_length _ _ _ A5). apply (Forall2_length _ _ _ B5).
  - intros i o o'' Ho Ho''.
    destruct (Forall2_lookup_l _ _ _ _ _ A5 Ho) as (o' & Ho' & S1).
    pose proof (Forall2_lookup_lr _ _ _ _ _ _ B5 Ho' Ho'') as S2.
    eapply objStable_trans; eassumption.
Qed.

Lemma stable_insert (g : GraphicsRunner) (i : nat) (o o' : Object) :
  objects_ g !! i = Some o -> objStable o o' ->
  stable g (withObjects g (<[i := o']> (objects_ g))).
Proof.
  intros Hi Hs. repeat split. cbn.
  rewrite <- (list_insert_id _ _ _ Hi) at 1.
  apply Forall2_insert; [| exact Hs].
  pose proof (stable_refl g) as (_ & _ & _ & _ & H). exact H.
Qed.

Lemma stable_length (g g' : GraphicsRunner) :
  stable g g' -> length (objects_ g') = length (objects_ g).
Proof. intros (_ & _ & _ & _ & H). symmetry. apply (Forall2_length _ _ _ H). Qed.

Lemma stable_lookup (g g' : GraphicsRunner) (i : nat) (o : Object) :
  stable g g' -> objects_ g !! i = Some o ->
  exists o', objects_ g' !! i = Some o' /\ objStable o o'.
Proof. intros (_ & _ & _ & _ & H) Hi. apply (Forall2_lookup_l _ _ _ _ _ H Hi). Qed.

Lemma stable_ball (g g' : GraphicsRunner) (self : nat) (d : bool) (b : Ball) :
  stable g g' -> objects_ g !! self = Some (mkObject d (ABall b)) ->
  exists d' b', objects_ g' !! self = Some (mkObject d' (ABall b'))
    /\ Ball_circle_ b' = Ball_circle_ b
    /\ Ball_attachedPos_ b' = Ball_attachedPos_ b
    /\ Ball_collisionState_ b' = Ball_collisionState_ b.
Proof.
  intros Hs Hi. destruct (stable_lookup _ _ _ _ Hs Hi) as ([d' e'] & Ho' & S).
  unfold objStable in S. cbn in S. destruct e'; try contradiction.
  exists d', b0. auto.
Qed.

Lemma stable_layoutOk (g g' : GraphicsRunner) :
  stable g g' -> layoutOk g -> layoutOk g'.
Proof.
  intros Hs ((d & p & H0) & [o1 H1] & Hf & Hl).
  pose proof (stable_length _ _ Hs) as Hlen.
  destruct Hs as (E1 & E2 & E3 & E4 & HF).
  repeat split.
  - destruct (Forall2_lookup_l _ _ _ _ _ HF H0) as ([d' e'] & Ho' & S).
    unfold objStable in S. cbn in S. subst e'. eauto.
  - destruct (Forall2_lookup_l _ _ _ _ _ HF H1) as (o' & Ho' & _). eauto.
  - rewrite E1. exact Hf.
  - rewrite E1, E2, E3, Hlen. exact Hl.
Qed.

Lemma stable_deref (g g' : GraphicsRunner) (p : PositionPtr) (v : Vector2f) :
  stable g g' -> deref g p = Some v -> deref g' p = Some v.
Proof.
  intros Hs. destruct p. unfold deref, objectAt.
  change (0 <=? 0)%Z with true. change (Z.to_nat 0) with 0%nat. cbv iota.
  destruct (objects_ g !! 0%nat) as [[d e] |] eqn:H0; [| discriminate].
  destruct e; try discriminate. intros Hv.
  destruct (stable_lookup _ _ _ _ Hs H0) as ([d' e'] & Ho' & S).
  unfold objStable in S. cbn in S. subst e'. rewrite Ho'. exact Hv.
Qed.

(** *** The primitive steps *)

Lemma thisBall_eq (g : GraphicsRunner) (self : nat) (d : bool) (b : Ball) :
  objects_ g !! self = Some (mkObject d (ABall b)) ->
  thisBall self g = Some (b, g, []).
Proof. intros H. unfold thisBall. rewrite H. reflexivity. Qed.

Lemma updateThis_eq (g : GraphicsRunner) (self : nat) (d : bool) (b : Ball)
  (f : Ball -> Ball) :
  objects_ g !! self = Some (mkObject d (ABall b)) ->
  updateThis self f g = Some (tt, setBall g self d (f b), []).
Proof. intros H. unfold updateThis. rewrite H. reflexivity. Qed.

Lemma lookup_setBall (g : GraphicsRunner) (self : nat) (d : bool) (b : Ball)
  (o : Object) :
  objects_ g !! self = Some o ->
  objects_ (setBall g self d b) !! self = Some (mkObject d (ABall b)).
Proof.
  intros H. cbn. apply list_lookup_insert_eq. eapply lookup_lt_Some, H.
Qed.

Lemma setBall_setBall (g : GraphicsRunner) (self : nat) (d1 d2 : bool)
  (b1 b2 : Ball) :
  setBall (setBall g self d1 b1) self d2 b2 = setBall g self d2 b2.
Proof.
  unfold setBall, withObjects. cbn. rewrite list_insert_insert_eq. reflexivity.
Qed.

Lemma objectAt_nat (g : GraphicsRunner) (i : nat) :
  objectAt g (Z.of_nat i) = objects_ g !! i.
Proof.
  unfold objectAt. rewrite Nat2Z.id.
  destruct (0 <=? Z.of_nat i)%Z eqn:E; [reflexivity |].
  apply Z.leb_gt in E. lia.
Qed.

Lemma objectAt_inrange (g : GraphicsRunner) (i : Z) :
  (0 <= i < Z.of_nat (length (objects_ g)))%Z -> is_Some (objectAt g i).
Proof.
  intros [H0 H1]. unfold objectAt.
  destruct (0 <=? i)%Z eqn:E; [| apply Z.leb_gt in E; lia].
  apply lookup_lt_is_Some_2. lia.
Qed.

Lemma objectAt_Some (g : GraphicsRunner) (i : Z) (o : Object) :
  objectAt g i = Some o -> objects_ g !! Z.to_nat i = Some o.
Proof.
  unfold objectAt. destruct (0 <=? i)%Z; [auto | discriminate].
Qed.

Lemma ballAt_Some (g : GraphicsRunner) (self : nat) (b : Ball) :
  ballAt g self = Some b <->
  exists d, objects_ g !! self = Some (mkObject d (ABall b)).
Proof.
  unfold ballAt. split.
  - destruct (objects_ g !! self) as [[d []] |]; try discriminate.
    intros [= ->]. eauto.
  - intros [d ->]. reflexivity.
Qed.

Lemma ballAt_setBall (g : GraphicsRunner) (self : nat) (d : bool) (b : Ball)
  (o : Object) :
  objects_ g !! self = Some o -> ballAt (setBall g self d b) self = Some b.
Proof.
  intros H. unfold ballAt. rewrite (lookup_setBall _ _ _ _ _ H). reflexivity.
Qed.

Lemma stable_ballAt (g g' : GraphicsRunner) (self : nat) (b : Ball) :
  stable g g' -> ballAt g self = Some b ->
  exists b', ballAt g' self = Some b'
    /\ Ball_circle_ b' = Ball_circle_ b
    /\ Ball_attachedPos_ b' = Ball_attachedPos_ b
    /\ Ball_collisionState_ b' = Ball_collisionState_ b.
Proof.
  intros Hs Hb. apply ballAt_Some in Hb as [d Hb].
  destruct (stable_ball _ _ _ _ _ Hs Hb) as (d' & b' & H & ?).
  exists b'. split; [apply ballAt_Some; eauto | assumption].
Qed.

Lemma stable_setVel (g : GraphicsRunner) (self : nat) (d : bool) (b : Ball)
  (v : Vector2f) :
  objects_ g !! self = Some (mkObject d (ABall b)) ->
  stable g (setBall g self d (setVel v b)).
Proof.
  intros H. apply (stable_insert _ _ _ _ H). unfold objStable. cbn. auto.
Qed.

Lemma handled_true (self : nat) (g g' : GraphicsRunner) (tr : list Event) :
  stable g g' -> Forall isCollisionEvent tr ->
  handled self g (Some (true, g', tr)).
Proof.
  intros Hs Ht. exists true, g', tr.
  split; [reflexivity |]. split; [exact Hs |]. split; [exact Ht |]. discriminate.
Qed.

Lemma handled_false (self : nat) (g g' : GraphicsRunner) (tr : list Event) :
  stable g g' -> Forall isCollisionEvent tr ->
  ballAt g' self = ballAt g self ->
  handled self g (Some (false, g', tr)).
Proof.
  intros Hs Ht Hb. exists false, g', tr.
  split; [reflexivity |]. split; [exact Hs |]. split; [exact Ht |]. auto.
Qed.

Lemma Ball_handleSimpleCollision_ok (g : GraphicsRunner) (self : nat)
  (b : Ball) (c : ascii) :
  ballAt g self = Some b ->
  exists r g',
    Ball_handleSimpleCollision self c g = Some (r, g', [])
    /\ stable g g' /\ (r = false -> g' = g).
Proof.
  intros Hb. apply ballAt_Some in Hb as [d Hb].
  unfold Ball_handleSimpleCollision.
  destruct (Ascii.eqb c chr_v).
  { unfold bind. rewrite (updateThis_eq _ _ _ _ _ Hb). cbn.
    eexists _, _. split; [reflexivity |]. split; [| discriminate].
    apply (stable_setVel _ _ _ _ _ Hb). }
  destruct (Ascii.eqb c chr_h).
  { unfold bind. rewrite (updateThis_eq _ _ _ _ _ Hb). cbn.
    eexists _, _. split; [reflexivity |]. split; [| discriminate].
    apply (stable_setVel _ _ _ _ _ Hb). }
  exists false, g. split; [reflexivity |]. split; [apply stable_refl | auto].
Qed.

Lemma Ball_handleBarrierCollisions_ok (g : GraphicsRunner) (self : nat)
  (b : Ball) (bounds : FloatRect) :
  layoutOk g -> ballAt g self = Some b ->
  handled self g (Ball_handleBarrierCollisions self bounds g).
Proof.
  intros (_ & [o1 H1] & _) Hb.
  unfold Ball_handleBarrierCollisions, bind, callCollision.
  change 1%Z with (Z.of_nat 1). rewrite objectAt_nat, H1.
  destruct (Ball_handleSimpleCollision_ok g self b
              (fst (Object_collision o1 bounds)) Hb) as (r & g' & E & Hs & Hr).
  rewrite E. exists r, g', [EvCollision (Z.of_nat 1)].
  split; [reflexivity |]. split; [exact Hs |]. split.
  - repeat constructor.
  - intros Ef. rewrite (Hr Ef). reflexivity.
Qed.

Lemma Ball_handlePaddleCollisions_ok (g : GraphicsRunner) (self : nat)
  (b : Ball) (bounds : FloatRect) :
  layoutOk g -> ballAt g self = Some b ->
  handled self g (Ball_handlePaddleCollisions self bounds g).
Proof.
  intros ((d0 & p & H0) & _) Hb. apply ballAt_Some in Hb as [d Hb].
  unfold Ball_handlePaddleCollisions, bind, callCollision.
  change 0%Z with (Z.of_nat 0). rewrite objectAt_nat, H0.
  set (r := Object_collision _ _).
  destruct (Ascii.eqb (fst r) chr_v).
  { rewrite (updateThis_eq _ _ _ _ _ Hb). cbn.
    apply handled_true; [apply (stable_setVel _ _ _ _ _ Hb) | repeat constructor]. }
  destruct (Ascii.eqb (fst r) chr_s).
  { rewrite (thisBall_eq _ _ _ _ Hb), (updateThis_eq _ _ _ _ _ Hb). cbn.
    apply handled_true; [apply (stable_setVel _ _ _ _ _ Hb) | repeat constructor]. }
  cbn. apply handled_false; [apply stable_refl | repeat constructor | reflexivity].
Qed.

Lemma ballAt_markDeleted (g : GraphicsRunner) (i : Z) (o : Object) (self : nat) :
  objectAt g i = Some o ->
  ballAt (withObjects g (<[Z.to_nat i := mkObject true (entity o)]> (objects_ g)))
         self
  = ballAt g self.
Proof.
  intros Ho. apply objectAt_Some in Ho. unfold ballAt. cbn.
  destruct (Nat.eq_dec (Z.to_nat i) self) as [<- | Hne].
  - rewrite list_lookup_insert_eq by (eapply lookup_lt_Some, Ho).
    rewrite Ho. destruct o as [d e]. reflexivity.
  - rewrite list_lookup_insert_ne by exact Hne. reflexivity.
Qed.

Lemma stable_markDeleted (g : GraphicsRunner) (i : Z) (o : Object) :
  objectAt g i = Some o ->
  stable g (withObjects g (<[Z.to_nat i := mkObject true (entity o)]> (objects_ g))).
Proof.
  intros Ho. apply (stable_insert _ _ _ _ (objectAt_Some _ _ _ Ho)).
  unfold objStable. cbn. destruct (entity o); auto.
Qed.

Lemma brickLoop_ok (n : nat) :
  forall (g : GraphicsRunner) (self : nat) (b : Ball) (bounds : FloatRect) (i : Z),
  ballAt g self = Some b ->
  (0 <= i)%Z ->
  (i + Z.of_nat n <= Z.of_nat (length (objects_ g)))%Z ->
  handled self g (brickLoop self bounds i n g).
Proof.
  induction n as [| n IH]; intros g self b bounds i Hb Hi0 Hin.
  { apply handled_false; [apply stable_refl | constructor | reflexivity]. }
  destruct (objectAt_inrange g i) as [o Ho]; [lia |].
  cbn [brickLoop]. unfold bind at 1. unfold callCollision. rewrite Ho.
  set (r := Object_collision o bounds).
  assert (Hmark : exists g1,
    (if negb (Ascii.eqb (fst r) chr_n) then markDeleted i else ret tt) g
      = Some (tt, g1, [])
    /\ stable g g1 /\ ballAt g1 self = ballAt g self).
  { destruct (negb _).
    - unfold markDeleted. rewrite Ho. eexists. split; [reflexivity |].
      split; [apply (stable_markDeleted _ _ _ Ho) | apply (ballAt_markDeleted _ _ _ _ Ho)].
    - exists g. split; [reflexivity |]. split; [apply stable_refl | reflexivity]. }
  destruct Hmark as (g1 & E1 & S1 & B1).
  unfold bind at 1. rewrite E1.
  assert (Hb1 : ballAt g1 self = Some b) by (rewrite B1; exact Hb).
  destruct (Ball_handleSimpleCollision_ok g1 self b (fst r) Hb1)
    as (simple & g2 & E2 & S2 & R2).
  unfold bind at 1. rewrite E2.
  destruct simple.
  { cbn. apply handled_true; [| repeat constructor].
    eapply stable_trans; eassumption. }
  rewrite (R2 eq_refl).
  destruct (Ascii.eqb (fst r) chr_c).
  { apply ballAt_Some in Hb1 as [d Hd].
    unfold bind. rewrite (thisBall_eq _ _ _ _ Hd), (updateThis_eq _ _ _ _ _ Hd).
    cbn. apply handled_true; [| repeat constructor].
    eapply stable_trans; [exact S1 | apply (stable_setVel _ _ _ _ _ Hd)]. }
  assert (Hlen : length (objects_ g1) = length (objects_ g))
    by (apply stable_length; exact S1).
  destruct (IH g1 self b bounds (i + 1)%Z Hb1) as (r' & g' & tr' & E' & S' & T' & R');
    [lia | lia |].
  rewrite E'. cbn.
  exists r', g', (EvCollision i :: tr').
  split; [reflexivity |]. split; [| split].
  - eapply stable_trans; eassumption.
  - constructor; [exact I | exact T'].
  - intros Ef. rewrite (R' Ef). exact B1.
Qed.

Lemma Ball_handleBrickCollisions_ok (g : GraphicsRunner) (self : nat)
  (b : Ball) (bounds : FloatRect) :
  layoutOk g -> ballAt g self = Some b ->
  handled self g (Ball_handleBrickCollisions self bounds g).
Proof.
  intros (_ & _ & Hf & Hl) Hb.
  unfold Ball_handleBrickCollisions, bind, getGame.
  set (n := Z.to_nat _).
  destruct n as [| n'] eqn:En.
  { cbn. apply handled_false; [apply stable_refl | constructor | reflexivity]. }
  destruct (brickLoop_ok (S n') g self b bounds (indexOfFirstSafetyBrick_ g) Hb Hf)
    as (r & g' & tr & E & S' & T & R); [lia |].
  rewrite E. cbn. exists r, g', tr. auto.
Qed.

(** Only a ball answers ['y']. *)
Lemma Object_collision_y (o : Object) (boundingBox : FloatRect) :
  fst (Object_collision o boundingBox) = chr_y ->
  exists b, entity o = ABall b.
Proof.
  unfold Object_collision. destruct (entity o) as [p | ba | br | b].
  - unfold Paddle_collision.
    repeat match goal with
    | |- context [if ?c then _ else _] => destruct c
    end; cbn; discriminate.
  - unfold Barrier_collision.
    repeat match goal with
    | |- context [if ?c then _ else _] => destruct c
    end; cbn; discriminate.
  - unfold Brick_collision.
    repeat match goal with
    | |- context [if ?c then _ else _] => destruct c
    end; cbn; discriminate.
  - eauto.
Qed.

Lemma ballLoop_ok (n : nat) :
  forall (g : GraphicsRunner) (self : nat) (b : Ball) (bounds : FloatRect) (i : Z),
  ballAt g self = Some b ->
  (0 <= i)%Z ->
  (i + Z.of_nat n <= Z.of_nat (length (objects_ g)))%Z ->
  handled self g (ballLoop self bounds i n g).
Proof.
  induction n as [| n IH]; intros g self b bounds i Hb Hi0 Hin.
  { apply handled_false; [apply stable_refl | constructor | reflexivity]. }
  destruct (objectAt_inrange g i) as [o Ho]; [lia |].
  pose proof Hb as Hb'. apply ballAt_Some in Hb' as [d Hd].
  cbn [ballLoop]. unfold bind at 1. unfold getGame.
  unfold bind at 1. rewrite (thisBall_eq _ _ _ _ Hd). rewrite Ho.
  destruct (IH g self b bounds (i + 1)%Z Hb) as (r' & g' & tr' & E' & S' & T' & R');
    [lia | lia |].
  match goal with
  | |- context [if ?c then _ else _] => destruct c
  end.
  { rewrite E'. cbn. exists r', g', tr'. auto. }
  unfold bind at 1. unfold callCollision. rewrite Ho.
  set (r := Object_collision o bounds).
  destruct (Ascii.eqb (fst r) chr_y) eqn:Ey.
  - apply Ascii.eqb_eq in Ey.
    destruct (Object_collision_y o bounds Ey) as [other Hother].
    unfold bind. rewrite (updateThis_eq _ _ _ _ _ Hd).
    set (vs := ballResponse _ _ _).
    set (g1 := setBall g self d (setVel (fst vs) b)).
    assert (S1 : stable g g1) by apply (stable_setVel _ _ _ _ _ Hd).
    destruct (stable_lookup _ _ _ _ S1 (objectAt_Some _ _ _ Ho)) as ([d' e'] & Ho' & So).
    unfold objStable in So. rewrite Hother in So. cbn in So.
    destruct e' as [| | | other']; try contradiction.
    unfold setOtherVelocity, objectAt.
    destruct (0 <=? i)%Z eqn:E0; [| apply Z.leb_gt in E0; lia].
    rewrite Ho'. cbn.
    apply handled_true; [| repeat constructor].
    eapply stable_trans; [exact S1 |].
    apply (stable_insert _ _ _ _ Ho'). unfold objStable. cbn. auto.
  - rewrite E'. cbn.
    exists r', g', (EvCollision i :: tr').
    split; [reflexivity |]. split; [exact S' |]. split; [| exact R'].
    constructor; [exact I | exact T'].
Qed.

Lemma Ball_handleBallCollisions_ok (g : GraphicsRunner) (self : nat)
  (b : Ball) (bounds : FloatRect) :
  layoutOk g -> ballAt g self = Some b ->
  handled self g (Ball_handleBallCollisions self bounds g).
Proof.
  intros (_ & _ & Hf & Hl) Hb.
  unfold Ball_handleBallCollisions, bind, getGame.
  destruct (_ <? 0)%Z eqn:E0.
  { cbn. apply handled_false; [apply stable_refl | constructor | reflexivity]. }
  apply Z.ltb_ge in E0.
  match goal with
  | |- context [ballLoop self bounds ?i ?n g] =>
      destruct (ballLoop_ok n g self b bounds i Hb E0) as (r & g' & tr & E & S & T & R);
      [lia |]
  end.
  rewrite E. cbn. exists r, g', tr. auto.
Qed.

Lemma handled_orElse (self : nat) (g : GraphicsRunner) (a b : M bool) :
  handled self g (a g) ->
  (forall g1, stable g g1 -> ballAt g1 self = ballAt g self ->
     handled self g1 (b g1)) ->
  handled self g (orElse a b g).
Proof.
  intros (r & g1 & tr & E & S1 & T & R) Hb.
  unfold orElse, bind. rewrite E. destruct r.
  - cbn. apply handled_true; [exact S1 |].
    apply Forall_app. split; [exact T | constructor].
  - destruct (Hb g1 S1 (R eq_refl)) as (r2 & g2 & tr2 & E2 & S2 & T2 & R2).
    rewrite E2. exists r2, g2, (tr ++ tr2).
    split; [reflexivity |]. split; [| split].
    + eapply stable_trans; eassumption.
    + apply Forall_app. auto.
    + intros Ef. rewrite (R2 Ef). apply R. reflexivity.
Qed.

(** The four handlers in the order of [Ball::move], for a free ball. *)
Lemma collision_chain_ok (g : GraphicsRunner) (self : nat) (b : Ball)
  (bounds : FloatRect) :
  layoutOk g -> ballAt g self = Some b ->
  handled self g (collisionChain self bounds g).
Proof.
  intros Hl Hb. unfold collisionChain.
  apply handled_orElse; [apply (Ball_handleBarrierCollisions_ok _ _ b); assumption |].
  intros g1 S1 B1.
  assert (L1 : layoutOk g1) by (eapply stable_layoutOk; eassumption).
  assert (Hb1 : ballAt g1 self = Some b) by (rewrite B1; exact Hb).
  apply handled_orElse; [apply (Ball_handlePaddleCollisions_ok _ _ b); assumption |].
  intros g2 S2 B2.
  assert (L2 : layoutOk g2) by (eapply stable_layoutOk; eassumption).
  assert (Hb2 : ballAt g2 self = Some b) by (rewrite B2; exact Hb1).
  apply handled_orElse; [apply (Ball_handleBrickCollisions_ok _ _ b); assumption |].
  intros g3 S3 B3.
  assert (L3 : layoutOk g3) by (eapply stable_layoutOk; eassumption).
  assert (Hb3 : ballAt g3 self = Some b) by (rewrite B3; exact Hb2).
  apply (Ball_handleBallCollisions_ok _ _ b); assumption.
Qed.

Lemma layoutOk_setBall (g : GraphicsRunner) (self : nat) (d d' : bool)
  (b b' : Ball) :
  layoutOk g -> objects_ g !! self = Some (mkObject d (ABall b)) ->
  layoutOk (setBall g self d' b').
Proof.
  intros ((d0 & p & H0) & [o1 H1] & Hf & Hl) Hb.
  assert (Hne : self <> 0%nat) by (intros ->; rewrite H0 in Hb; discriminate).
  unfold layoutOk, setBall. cbn [objects_ withObjects indexOfFirstSafetyBrick_
    numSafetyBricks_ numBricks_].
  rewrite length_insert. split; [| split; [| auto]].
  - exists d0, p. rewrite list_lookup_insert_ne by exact Hne. exact H0.
  - destruct (Nat.eq_dec self 1%nat) as [-> | Hn1].
    + rewrite list_lookup_insert_eq by (eapply lookup_lt_Some, H1). eauto.
    + rewrite list_lookup_insert_ne by exact Hn1. eauto.
Qed.

Lemma deref_setBall (g : GraphicsRunner) (self : nat) (d d' : bool)
  (b b' : Ball) (p : PositionPtr) :
  objects_ g !! self = Some (mkObject d (ABall b)) ->
  deref (setBall g self d' b') p = deref g p.
Proof.
  intros Hb. destruct p. unfold deref, objectAt.
  change (0 <=? 0)%Z with true. change (Z.to_nat 0) with 0%nat. cbv iota.
  unfold setBall. cbn [objects_ withObjects].
  destruct (Nat.eq_dec self 0%nat) as [-> | Hne].
  - rewrite list_lookup_insert_eq by (eapply lookup_lt_Some, Hb).
    rewrite Hb. reflexivity.
  - rewrite list_lookup_insert_ne by exact Hne. reflexivity.
Qed.

(** The collision phase of [Ball::move] returns; it leaves the ball a
    ball, attached or free and of the parity it had; it logs nothing but
    collision queries; and for an attached ball it does nothing at all. *)
Lemma Ball_move_collisions_ok (g : GraphicsRunner) (self : nat) (b : Ball)
  (bounds : FloatRect) :
  layoutOk g -> ballAt g self = Some b ->
  exists g1 checks d1 b1,
    Ball_move_collisions self bounds g = Some (tt, g1, checks)
    /\ Forall isCollisionEvent checks
    /\ objects_ g1 !! self = Some (mkObject d1 (ABall b1))
    /\ Ball_attachedPos_ b1 = Ball_attachedPos_ b
    /\ Ball_collisionState_ b1 = Ball_collisionState_ b
    /\ layoutOk g1
    /\ (forall p, deref g1 p = deref g p)
    /\ (Ball_isAttached b = true -> g1 = g /\ checks = [])
    /\ (forall g2 tr2, collisionChain self bounds g = Some (false, g2, tr2) ->
        b1 = b).
Proof.
  intros Hl Hb. pose proof Hb as Hb'. apply ballAt_Some in Hb' as [d Hd].
  unfold Ball_move_collisions. unfold bind at 1.
  rewrite (thisBall_eq _ _ _ _ Hd).
  destruct (Ball_isAttached b) eqn:Eatt.
  - (* attached: the chain is cut at once *)
    unfold orElse at 1. unfold bind, ret.
    rewrite (thisBall_eq _ _ _ _ Hd). rewrite Eatt. cbn.
    exists g, [], d, b.
    split; [reflexivity |]. split; [constructor |]. split; [exact Hd |].
    auto 10.
  - unfold orElse at 1. unfold bind at 2. unfold ret at 1. cbv iota beta.
    destruct (collision_chain_ok g self b bounds Hl Hb)
      as (r & g' & tr & E & S' & T & R).
    unfold bind. rewrite E.
    destruct (stable_ball _ _ _ _ _ S' Hd) as (d' & b' & Hd' & Hc & Ha & Hs).
    assert (Eatt' : Ball_isAttached b' = false)
      by (unfold Ball_isAttached in *; rewrite Ha; exact Eatt).
    assert (Hderef : forall p, deref g' p = deref g p).
    { intros p. destruct (deref g p) eqn:Ed.
      - apply (stable_deref _ _ _ _ S' Ed).
      - destruct p. unfold deref, objectAt in *.
        change (0 <=? 0)%Z with true in *. change (Z.to_nat 0) with 0%nat in *.
        cbv iota in *.
        destruct Hl as ((d0 & p0 & H0) & _). rewrite H0 in Ed. discriminate. }
    destruct r.
    + rewrite (thisBall_eq _ _ _ _ Hd'). rewrite Eatt'. cbn [negb].
      rewrite (updateThis_eq _ _ _ _ _ Hd'). cbn.
      eexists _, _, d', _. split; [reflexivity |].
      split; [repeat (apply Forall_app; split); auto |].
      split; [apply (lookup_setBall _ _ _ _ _ Hd') |].
      split; [exact Ha |]. split; [exact Hs |].
      split; [eapply layoutOk_setBall; [eapply stable_layoutOk |]; eassumption |].
      split; [| split; [discriminate | intros g2 tr2; discriminate]].
      intros p. rewrite (deref_setBall _ _ _ _ _ _ _ Hd'). apply Hderef.
    + cbn. eexists g', _, d', b'. split; [reflexivity |].
      split; [repeat (apply Forall_app; split); auto |].
      split; [exact Hd' |]. split; [exact Ha |]. split; [exact Hs |].
      split; [eapply stable_layoutOk; eassumption |].
      split; [exact Hderef |]. split; [discriminate |].
      intros _ _ _. specialize (R eq_refl).
      assert (Hb' : ballAt g' self = Some b') by (apply ballAt_Some; eauto).
      congruence.
Qed.

Lemma thisBall_setBall (g : GraphicsRunner) (self : nat) (d : bool) (b : Ball)
  (o : Object) :
  objects_ g !! self = Some o ->
  thisBall self (setBall g self d b) = Some (b, setBall g self d b, []).
Proof. intros H. apply (thisBall_eq _ _ d). apply (lookup_setBall _ _ _ _ _ H). Qed.

Lemma updateThis_setBall (g : GraphicsRunner) (self : nat) (d : bool) (b : Ball)
  (o : Object) (f : Ball -> Ball) :
  objects_ g !! self = Some o ->
  updateThis self f (setBall g self d b) = Some (tt, setBall g self d (f b), []).
Proof.
  intros H. rewrite (updateThis_eq _ _ d b) by apply (lookup_setBall _ _ _ _ _ H).
  rewrite setBall_setBall. reflexivity.
Qed.

Lemma Ball_move_finish_eq (BALL_MAX_SPEED : R) (g : GraphicsRunner)
  (self : nat) (d : bool) (b : Ball) :
  objects_ g !! self = Some (mkObject d (ABall b)) ->
  (Ball_isAttached b = true -> is_Some (anchorOf g b)) ->
  Ball_move_finish BALL_MAX_SPEED self g
  = Some (tt, setBall g self d (finishBall BALL_MAX_SPEED (anchorOf g b) b),
          [EvParityFlip]).
Proof.
  intros Hd Hanchor. unfold Ball_move_finish, bind, emit, getGame.
  rewrite (updateThis_eq _ _ _ _ _ Hd).
  rewrite (thisBall_setBall _ _ _ _ _ Hd).
  unfold finishBall, anchorOf in *. unfold Ball_isAttached in Hanchor.
  change (Ball_attachedPos_ (flipCollisionState b)) with (Ball_attachedPos_ b).
  destruct (Ball_attachedPos_ b) as [p |].
  - rewrite (deref_setBall _ _ _ _ _ _ _ Hd).
    destruct (Hanchor eq_refl) as [a Ha]. rewrite Ha.
    rewrite (updateThis_setBall _ _ _ _ _ _ Hd).
    rewrite (updateThis_setBall _ _ _ _ _ _ Hd).
    rewrite (updateThis_setBall _ _ _ _ _ _ Hd).
    reflexivity.
  - unfold ret.
    rewrite (updateThis_setBall _ _ _ _ _ _ Hd).
    rewrite (updateThis_setBall _ _ _ _ _ _ Hd).
    reflexivity.
Qed.

(** [Ball::move] on a ball that has left the field. *)
Lemma Ball_move_left_field (BALL_MAX_SPEED : R) (g : GraphicsRunner)
  (self : nat) (d : bool) (b : Ball) :
  objects_ g !! self = Some (mkObject d (ABall b)) ->
  top (circleGlobalBounds (Ball_circle_ b)) > IZR (Z.of_N (y (windowSize_ g))) ->
  Ball_move BALL_MAX_SPEED self g = Some (tt, setBall g self true b, []).
Proof.
  intros Hd Hout. unfold Ball_move, bind, getGame.
  rewrite (thisBall_eq _ _ _ _ Hd).
  unfold Rgtb. rewrite Rltb_true by exact Hout.
  unfold deleteThis. rewrite Hd. reflexivity.
Qed.

(** [Ball::move] on a ball that is still in the field: the collision phase,
    then the closing steps. *)
Lemma Ball_move_in_field (BALL_MAX_SPEED : R) (g : GraphicsRunner)
  (self : nat) (b : Ball) :
  layoutOk g -> ballAt g self = Some b ->
  ~ top (circleGlobalBounds (Ball_circle_ b)) > IZR (Z.of_N (y (windowSize_ g))) ->
  exists g1 checks d1 b1,
    Ball_move_collisions self (circleGlobalBounds (Ball_circle_ b)) g
      = Some (tt, g1, checks)
    /\ Forall isCollisionEvent checks
    /\ objects_ g1 !! self = Some (mkObject d1 (ABall b1))
    /\ Ball_attachedPos_ b1 = Ball_attachedPos_ b
    /\ Ball_collisionState_ b1 = Ball_collisionState_ b
    /\ (Ball_isAttached b = true -> g1 = g /\ checks = [])
    /\ (forall g2 tr2,
          collisionChain self (circleGlobalBounds (Ball_circle_ b)) g
            = Some (false, g2, tr2) -> b1 = b)
    /\ anchorOf g1 b1 = anchorOf g b
    /\ Ball_move BALL_MAX_SPEED self g
       = Some (tt, setBall g1 self d1
                     (finishBall BALL_MAX_SPEED (anchorOf g b) b1),
               checks ++ [EvParityFlip]).
Proof.
  intros Hl Hb Hin. pose proof Hb as Hb'. apply ballAt_Some in Hb' as [d Hd].
  destruct (Ball_move_collisions_ok g self b (circleGlobalBounds (Ball_circle_ b)) Hl Hb)
    as (g1 & checks & d1 & b1 & E & T & Hd1 & Ha & Hs & L1 & Hderef & Hatt & Hno).
  assert (Hanc : anchorOf g1 b1 = anchorOf g b).
  { unfold anchorOf. rewrite Ha. destruct (Ball_attachedPos_ b); [apply Hderef | reflexivity]. }
  exists g1, checks, d1, b1.
  repeat (split; [assumption |]).
  unfold Ball_move. unfold bind at 1. rewrite (thisBall_eq _ _ _ _ Hd).
  unfold bind at 1. unfold getGame.
  unfold Rgtb. rewrite Rltb_false by exact Hin.
  unfold bind. rewrite E.
  rewrite (Ball_move_finish_eq BALL_MAX_SPEED g1 self d1 b1 Hd1).
  - rewrite Hanc. reflexivity.
  - intros Hatt1. unfold anchorOf. unfold Ball_isAttached in Hatt1.
    destruct (Ball_attachedPos_ b1) as [[] |]; [| discriminate].
    unfold deref, objectAt.
    change (0 <=? 0)%Z with true. change (Z.to_nat 0) with 0%nat. cbv iota.
    destruct L1 as ((d0 & p0 & H0) & _). rewrite H0. eauto.
Qed.

(** [Ball::move] on an attached ball in the field: no handler runs. *)
Lemma Ball_move_attached_eq (BALL_MAX_SPEED : R) (g : GraphicsRunner)
  (self : nat) (d : bool) (b : Ball) (p : PositionPtr) (anchor : Vector2f) :
  objects_ g !! self = Some (mkObject d (ABall b)) ->
  Ball_attachedPos_ b = Some p ->
  deref g p = Some anchor ->
  ~ top (circleGlobalBounds (Ball_circle_ b)) > IZR (Z.of_N (y (windowSize_ g))) ->
  Ball_move BALL_MAX_SPEED self g
  = Some (tt, setBall g self d (finishBall BALL_MAX_SPEED (Some anchor) b),
          [EvParityFlip]).
Proof.
  intros Hd Hp Ha Hin.
  assert (Hatt : Ball_isAttached b = true) by (unfold Ball_isAttached; rewrite Hp; reflexivity).
  assert (Hanc : anchorOf g b = Some anchor) by (unfold anchorOf; rewrite Hp; exact Ha).
  unfold Ball_move. unfold bind at 1. rewrite (thisBall_eq _ _ _ _ Hd).
  unfold bind at 1. unfold getGame.
  unfold Rgtb. rewrite Rltb_false by exact Hin.
  assert (E : Ball_move_collisions self (circleGlobalBounds (Ball_circle_ b)) g
              = Some (tt, g, [])).
  { unfold Ball_move_collisions, orElse, bind, ret.
    rewrite (thisBall_eq _ _ _ _ Hd). rewrite Hatt. cbv iota beta.
    rewrite (thisBall_eq _ _ _ _ Hd). rewrite Hatt. reflexivity. }
  unfold bind. rewrite E.
  rewrite (Ball_move_finish_eq BALL_MAX_SPEED g self d b Hd).
  - rewrite Hanc. reflexivity.
  - intros _. rewrite Hanc. eauto.
Qed.

Lemma game800_layoutOk (balls : list Ball) : layoutOk (game800 balls).
Proof.
  unfold layoutOk, game800. cbn [objects_ indexOfFirstSafetyBrick_
    numSafetyBricks_ numBricks_ length].
  split; [eexists _, _; reflexivity |].
  split; [eexists; reflexivity |]. lia.
Qed.

Lemma game800_anchor (balls : list Ball) :
  deref (game800 balls) PaddlePos = Some (mkVector2 400 560).
Proof. reflexivity. Qed.

Lemma game800_field_height (balls : list Ball) :
  IZR (Z.of_N (y (windowSize_ (game800 balls)))) = 600.
Proof. reflexivity. Qed.

(** ** A ball that has left the field *)

(** C8: a ball whose bounds begin below the field height is marked for
    deletion and [Ball::move] stops: no collision is queried and the
    parity flag is not flipped (the log is empty), the ball's position,
    velocity, parity flag and attachment are as before, and so is every
    other object and the rest of the game. *)
Theorem C8_move_left_field (BALL_MAX_SPEED : R) (g : GraphicsRunner)
  (self : nat) (d : bool) (b : Ball) :
  objects_ g !! self = Some (mkObject d (ABall b)) ->
  top (circleGlobalBounds (Ball_circle_ b)) > IZR (Z.of_N (y (windowSize_ g))) ->
  exists g',
    Ball_move BALL_MAX_SPEED self g = Some (tt, g', [])
    /\ objects_ g' !! self = Some (mkObject true (ABall b))
    /\ (forall j, j <> self -> objects_ g' !! j = objects_ g !! j)
    /\ length (objects_ g') = length (objects_ g)
    /\ indexOfFirstSafetyBrick_ g' = indexOfFirstSafetyBrick_ g
    /\ numSafetyBricks_ g' = numSafetyBricks_ g
    /\ numBricks_ g' = numBricks_ g
    /\ windowSize_ g' = windowSize_ g.
Proof.
  intros Hd Hout. exists (setBall g self true b).
  split; [apply (Ball_move_left_field _ _ _ _ _ Hd Hout) |].
  split; [apply (lookup_setBall _ _ _ _ _ Hd) |].
  split.
  { intros j Hj. cbn. apply list_lookup_insert_ne. auto. }
  split; [cbn; apply length_insert |].
  repeat split.
Qed.

Lemma fallenBall_out :
  top (circleGlobalBounds (Ball_circle_ fallenBall))
  > IZR (Z.of_N (y (windowSize_ (game800 [fallenBall])))).
Proof.
  rewrite game800_field_height. unfold fallenBall.
  rewrite Ball_new_bounds by lra. cbn [top]. lra.
Qed.

Lemma C8_move_left_field_witness :
  exists g',
    Ball_move 10 2 (game800 [fallenBall]) = Some (tt, g', [])
    /\ objects_ g' !! 2%nat = Some (mkObject true (ABall fallenBall)).
Proof.
  destruct (C8_move_left_field 10 (game800 [fallenBall]) 2 false fallenBall
              eq_refl fallenBall_out) as (g' & E & H & _).
  exists g'. split; [exact E | exact H].
Defined.

(** ** An attached ball *)

Lemma clampSpeed_zero (BALL_MAX_SPEED : R) :
  clampSpeed BALL_MAX_SPEED (mkVector2 0 0) = mkVector2 0 0.
Proof.
  unfold clampSpeed. destruct (_ || _); [| reflexivity].
  cbn [x y]. f_equal; lra.
Qed.

Lemma finishBall_attached_position (BALL_MAX_SPEED : R) (anchor : Vector2f)
  (b : Ball) :
  circlePosition (Ball_circle_ (finishBall BALL_MAX_SPEED (Some anchor) b))
  = mkVector2
      (x anchor + x (clampSpeed BALL_MAX_SPEED (Ball_vel_ b)))
      (y anchor - m_radius (Ball_circle_ b)
       + y (clampSpeed BALL_MAX_SPEED (Ball_vel_ b))).
Proof. reflexivity. Qed.

Lemma pushedBall_in :
  ~ top (circleGlobalBounds (Ball_circle_ pushedBall))
    > IZR (Z.of_N (y (windowSize_ (game800 [pushedBall])))).
Proof.
  rewrite game800_field_height. unfold pushedBall, Ball_newAttached.
  rewrite circleGlobalBounds_unrotated; cbn; lra.
Qed.

(** C4, as stated, fails: with (1, 0) in its velocity field an attached
    ball ends [Ball::move] at the anchor moved by that velocity,
    (401, 555), not at (anchor.x, anchor.y - radius) = (400, 555). *)
Lemma C4_counterexample_velocity :
  exists g' b',
    Ball_move 10 2 (game800 [pushedBall]) = Some (tt, g', [EvParityFlip])
    /\ ballAt g' 2 = Some b'
    /\ circlePosition (Ball_circle_ b') = mkVector2 (400 + 1) (560 - 5 + 0)
    /\ circlePosition (Ball_circle_ b') <> mkVector2 400 (560 - 5).
Proof.
  eexists _, _.
  split.
  { apply (Ball_move_attached_eq 10 (game800 [pushedBall]) 2 false pushedBall
             PaddlePos (mkVector2 400 560) eq_refl eq_refl eq_refl pushedBall_in). }
  split; [reflexivity |].
  rewrite finishBall_attached_position.
  assert (E : clampSpeed 10 (Ball_vel_ pushedBall) = mkVector2 1 0).
  { unfold clampSpeed, pushedBall. cbn [Ball_vel_ Ball_setVelocity x y]. Rdecide. reflexivity. }
  rewrite E. cbn [x y Ball_circle_ pushedBall Ball_setVelocity Ball_newAttached m_radius].
  split; [reflexivity |].
  intros H. injection H as H1 H2. lra.
Qed.

(** C4 (amended): an attached ball that has not left the field ends
    [Ball::move] at the anchor, (anchor.x, anchor.y - radius), moved by its
    stored velocity after the speed clamp; with the stored velocity zero,
    as the constructor of an attached ball leaves it, that is
    (anchor.x, anchor.y - radius) itself.  No collision is queried during
    the call: the log holds the parity flip alone. *)
Theorem C4_attached_ball_follows_anchor (BALL_MAX_SPEED : R)
  (g : GraphicsRunner) (self : nat) (d : bool) (b : Ball) (p : PositionPtr)
  (anchor : Vector2f) :
  objects_ g !! self = Some (mkObject d (ABall b)) ->
  Ball_attachedPos_ b = Some p ->
  deref g p = Some anchor ->
  ~ top (circleGlobalBounds (Ball_circle_ b)) > IZR (Z.of_N (y (windowSize_ g))) ->
  exists g' b',
    Ball_move BALL_MAX_SPEED self g = Some (tt, g', [EvParityFlip])
    /\ objects_ g' !! self = Some (mkObject d (ABall b'))
    /\ circlePosition (Ball_circle_ b')
       = mkVector2
           (x anchor + x (clampSpeed BALL_MAX_SPEED (Ball_vel_ b)))
           (y anchor - m_radius (Ball_circle_ b)
            + y (clampSpeed BALL_MAX_SPEED (Ball_vel_ b)))
    /\ (Ball_vel_ b = mkVector2 0 0 ->
        circlePosition (Ball_circle_ b')
        = mkVector2 (x anchor) (y anchor - m_radius (Ball_circle_ b))).
Proof.
  intros Hd Hp Ha Hin.
  exists (setBall g self d (finishBall BALL_MAX_SPEED (Some anchor) b)),
         (finishBall BALL_MAX_SPEED (Some anchor) b).
  split; [apply (Ball_move_attached_eq _ _ _ _ _ _ _ Hd Hp Ha Hin) |].
  split; [apply (lookup_setBall _ _ _ _ _ Hd) |].
  split; [apply finishBall_attached_position |].
  intros Hv. rewrite finishBall_attached_position, Hv, clampSpeed_zero.
  cbn [x y]. f_equal; lra.
Qed.

Lemma newAttached_in :
  ~ top (circleGlobalBounds (Ball_circle_ (Ball_newAttached 5)))
    > IZR (Z.of_N (y (windowSize_ (game800 [Ball_newAttached 5])))).
Proof.
  rewrite game800_field_height. unfold Ball_newAttached.
  rewrite circleGlobalBounds_unrotated; cbn; lra.
Qed.

(** The ball a new level starts with, on its first frame: it goes to
    (400, 555), on top of the paddle. *)
Lemma C4_attached_ball_follows_anchor_witness :
  exists g' b',
    Ball_move 10 2 (game800 [Ball_newAttached 5]) = Some (tt, g', [EvParityFlip])
    /\ objects_ g' !! 2%nat = Some (mkObject false (ABall b'))
    /\ circlePosition (Ball_circle_ b') = mkVector2 400 (560 - 5).
Proof.
  destruct (C4_attached_ball_follows_anchor 10 (game800 [Ball_newAttached 5]) 2
              false (Ball_newAttached 5) PaddlePos (mkVector2 400 560)
              eq_refl eq_refl eq_refl newAttached_in)
    as (g' & b' & E & H & _ & Hz).
  exists g', b'. split; [exact E |]. split; [exact H |].
  apply Hz. reflexivity.
Defined.

(** ** A free ball in the open field

    A ball of radius 5 centred at (400, 300) in [game800] touches nothing:
    each handler of the chain reports no collision. *)

Lemma midBall_bounds (vx vy : R) :
  circleGlobalBounds (Ball_circle_ (midBall vx vy)) = midBounds.
Proof. unfold midBall. rewrite Ball_new_bounds by lra. reflexivity. Qed.

Lemma midBall_in (vx vy : R) :
  ~ top (circleGlobalBounds (Ball_circle_ (midBall vx vy)))
    > IZR (Z.of_N (y (windowSize_ (game800 [midBall vx vy])))).
Proof.
  rewrite game800_field_height, midBall_bounds. unfold midBounds. cbn [top]. lra.
Qed.

Lemma barrier800_mid : Barrier_collision barrier800 midBounds = (chr_n, midBounds).
Proof.
  unfold Barrier_collision.
  rewrite barrier800_left, barrier800_top, barrier800_right.
  unfold midBounds. Rgeometry. reflexivity.
Qed.

Lemma paddle800_mid :
  Paddle_collision (Paddle_new 400 560 100 20) midBounds = (chr_n, midBounds).
Proof.
  unfold Paddle_collision.
  rewrite rectGlobalBounds_unrotated by (cbn; lra).
  rewrite !circleGlobalBounds_unrotated by (cbn; lra).
  unfold midBounds, Paddle_new, rectPosition, circlePosition.
  cbn [Paddle_rectangle_ Paddle_leftCircle_ Paddle_rightCircle_ r_transformable
       c_transformable m_position m_origin m_size m_radius].
  Rgeometry. reflexivity.
Qed.

Lemma midBall_self (vx vy : R) :
  Ball_collision (midBall vx vy) midBounds = (chr_n, midBounds).
Proof.
  unfold Ball_collision, midBall, Ball_new, midBounds, circlePosition.
  cbn [Ball_isAttached Ball_attachedPos_ Ball_circle_ c_transformable
       m_position m_radius left top width height x y].
  rewrite distance_same by lra. Rdecide. reflexivity.
Qed.

Lemma midBall_chain (vx vy : R) :
  collisionChain 2 midBounds (game800 [midBall vx vy])
  = Some (false, game800 [midBall vx vy],
          [EvCollision 1; EvCollision 0; EvCollision 2]).
Proof.
  assert (Ebar : Ball_handleBarrierCollisions 2 midBounds (game800 [midBall vx vy])
                 = Some (false, game800 [midBall vx vy], [EvCollision 1])).
  { unfold Ball_handleBarrierCollisions, bind, callCollision.
    change (objectAt (game800 [midBall vx vy]) 1)
      with (Some (mkObject false (ABarrier barrier800))).
    unfold Object_collision. cbn [entity]. rewrite barrier800_mid. reflexivity. }
  assert (Epad : Ball_handlePaddleCollisions 2 midBounds (game800 [midBall vx vy])
                 = Some (false, game800 [midBall vx vy], [EvCollision 0])).
  { unfold Ball_handlePaddleCollisions, bind, callCollision.
    change (objectAt (game800 [midBall vx vy]) 0)
      with (Some (mkObject false (APaddle (Paddle_new 400 560 100 20)))).
    unfold Object_collision. cbn [entity]. rewrite paddle800_mid. reflexivity. }
  assert (Ebrick : Ball_handleBrickCollisions 2 midBounds (game800 [midBall vx vy])
                   = Some (false, game800 [midBall vx vy], [])).
  { reflexivity. }
  assert (Eball : Ball_handleBallCollisions 2 midBounds (game800 [midBall vx vy])
                  = Some (false, game800 [midBall vx vy], [EvCollision 2])).
  { unfold Ball_handleBallCollisions, bind, getGame.
    change (indexOfFirstSafetyBrick_ (game800 [midBall vx vy])
            + numSafetyBricks_ (game800 [midBall vx vy])
            + numBricks_ (game800 [midBall vx vy]))%Z with 2%Z.
    change (2 <? 0)%Z with false. cbv iota.
    change (Z.to_nat (Z.of_nat (length (objects_ (game800 [midBall vx vy]))) - 2))
      with 1%nat.
    cbn [ballLoop]. unfold bind, getGame, callCollision.
    change (thisBall 2 (game800 [midBall vx vy]))
      with (Some (midBall vx vy, game800 [midBall vx vy], @nil Event)).
    change (objectAt (game800 [midBall vx vy]) 2)
      with (Some (mkObject false (ABall (midBall vx vy)))).
    cbn [entity]. rewrite Bool.eqb_reflx. cbn [negb].
    change (objectAt (game800 [midBall vx vy]) 2)
      with (Some (mkObject false (ABall (midBall vx vy)))).
    unfold Object_collision. cbn [entity].
    rewrite midBall_self. reflexivity. }
  unfold collisionChain, orElse, bind.
  rewrite Ebar. cbv iota. rewrite Epad. cbv iota. rewrite Ebrick. cbv iota.
  rewrite Eball. reflexivity.
Qed.

(** ** The closing steps of [Ball::move] *)

Lemma finishBall_vel (BALL_MAX_SPEED : R) (anchor : option Vector2f) (b : Ball) :
  Ball_vel_ (finishBall BALL_MAX_SPEED anchor b)
  = clampSpeed BALL_MAX_SPEED (Ball_vel_ b).
Proof. destruct anchor; reflexivity. Qed.

Lemma finishBall_parity (BALL_MAX_SPEED : R) (anchor : option Vector2f) (b : Ball) :
  Ball_collisionState_ (finishBall BALL_MAX_SPEED anchor b)
  = negb (Ball_collisionState_ b).
Proof. destruct anchor; reflexivity. Qed.

Lemma clampSpeed_over (BALL_MAX_SPEED : R) (v : Vector2f) :
  x v > BALL_MAX_SPEED \/ y v > BALL_MAX_SPEED ->
  clampSpeed BALL_MAX_SPEED v = mkVector2 (x v * 0.99) (y v * 0.99).
Proof.
  intros H. unfold clampSpeed, Rgtb.
  destruct H as [H | H].
  - rewrite (Rltb_true _ _ H). reflexivity.
  - rewrite (Rltb_true _ _ H). rewrite orb_true_r. reflexivity.
Qed.

Lemma clampSpeed_under (BALL_MAX_SPEED : R) (v : Vector2f) :
  x v <= BALL_MAX_SPEED -> y v <= BALL_MAX_SPEED ->
  clampSpeed BALL_MAX_SPEED v = v.
Proof.
  intros Hx Hy. unfold clampSpeed, Rgtb.
  rewrite !Rltb_false by lra. reflexivity.
Qed.

Lemma damped_abs (a : R) : Rabs (a * 0.99) = Rabs a * 0.99.
Proof. rewrite Rabs_mult. rewrite (Rabs_right 0.99) by lra. reflexivity. Qed.

Lemma damped_le (a : R) : Rabs (a * 0.99) <= Rabs a.
Proof. rewrite damped_abs. pose proof (Rabs_pos a). lra. Qed.

Lemma damped_lt (a : R) : a <> 0 -> Rabs (a * 0.99) < Rabs a.
Proof. intros H. rewrite damped_abs. pose proof (Rabs_pos_lt a H). lra. Qed.

(** ** The parity flag *)

(** C7, as stated, fails: [Ball::move] on a ball that has left the field
    returns before the flip; the flag is as it was and the log is empty. *)
Lemma C7_counterexample_left_field :
  exists g' b',
    Ball_move 10 2 (game800 [fallenBall]) = Some (tt, g', [])
    /\ ballAt g' 2 = Some b'
    /\ Ball_collisionState_ b' = Ball_collisionState_ fallenBall.
Proof.
  exists (setBall (game800 [fallenBall]) 2 true fallenBall), fallenBall.
  split; [| split; reflexivity].
  apply (Ball_move_left_field 10 (game800 [fallenBall]) 2 false fallenBall
           eq_refl fallenBall_out).
Qed.

(** C7 (amended): on a ball that has not left the field, [Ball::move]
    returns, flips the parity flag exactly once, and the flip comes after
    every collision query of the frame: the log is a list of collision
    queries followed by the one flip, and the flag ends negated. *)
Theorem C7_parity_flips_once_after_checks (BALL_MAX_SPEED : R)
  (g : GraphicsRunner) (self : nat) (b : Ball) :
  layoutOk g ->
  ballAt g self = Some b ->
  ~ top (circleGlobalBounds (Ball_circle_ b)) > IZR (Z.of_N (y (windowSize_ g))) ->
  exists g' checks b',
    Ball_move BALL_MAX_SPEED self g = Some (tt, g', checks ++ [EvParityFlip])
    /\ Forall isCollisionEvent checks
    /\ ballAt g' self = Some b'
    /\ Ball_collisionState_ b' = negb (Ball_collisionState_ b).
Proof.
  intros Hl Hb Hin.
  destruct (Ball_move_in_field BALL_MAX_SPEED g self b Hl Hb Hin)
    as (g1 & checks & d1 & b1 & _ & T & Hd1 & _ & Hs & _ & _ & _ & E).
  eexists _, checks, _. split; [exact E |]. split; [exact T |].
  split; [apply (ballAt_setBall _ _ _ _ _ Hd1) |].
  rewrite finishBall_parity, Hs. reflexivity.
Qed.

Lemma C7_parity_flips_once_after_checks_witness :
  exists g' checks b',
    Ball_move 10 2 (game800 [midBall 0 3]) = Some (tt, g', checks ++ [EvParityFlip])
    /\ Forall isCollisionEvent checks
    /\ ballAt g' 2 = Some b'
    /\ Ball_collisionState_ b' = true.
Proof.
  apply (C7_parity_flips_once_after_checks 10 (game800 [midBall 0 3]) 2 (midBall 0 3)
           (game800_layoutOk _) eq_refl (midBall_in 0 3)).
Defined.

(** ** The speed clamp *)

Lemma Ball_move_midBall (BALL_MAX_SPEED vx vy : R) :
  exists g',
    Ball_move BALL_MAX_SPEED 2 (game800 [midBall vx vy])
    = Some (tt, g', [EvCollision 1; EvCollision 0; EvCollision 2; EvParityFlip])
    /\ ballAt g' 2
       = Some (finishBall BALL_MAX_SPEED None (midBall vx vy)).
Proof.
  destruct (Ball_move_in_field BALL_MAX_SPEED (game800 [midBall vx vy]) 2
              (midBall vx vy) (game800_layoutOk _) eq_refl (midBall_in vx vy))
    as (g1 & checks & d1 & b1 & Ec & _ & Hd1 & _ & _ & _ & Hno & _ & E).
  rewrite midBall_bounds in Ec, Hno.
  rewrite (Hno _ _ (midBall_chain vx vy)) in *.
  assert (Hchk : checks = [EvCollision 1; EvCollision 0; EvCollision 2]).
  { unfold Ball_move_collisions, orElse in Ec. unfold bind in Ec.
    change (thisBall 2 (game800 [midBall vx vy]))
      with (Some (midBall vx vy, game800 [midBall vx vy], @nil Event)) in Ec.
    cbn [Ball_isAttached midBall Ball_new Ball_attachedPos_ ret] in Ec.
    change (Ball_new 400 300 vx vy 5) with (midBall vx vy) in Ec.
    rewrite midBall_chain in Ec. cbn in Ec. congruence. }
  subst checks. eexists. split; [exact E |].
  apply (ballAt_setBall _ _ _ _ _ Hd1).
Qed.

(** C1, as stated, fails, with the speed ceiling 10, on two free balls in
    the open field.  One flies upwards with velocity (0, -12): the test
    compares the signed components with the ceiling, nothing is damped and
    the ball leaves [Ball::move] with (0, -12).  The other flies to the
    right with (12, 0): both components are multiplied by 0.99, and the y
    component, zero, is not strictly smaller than before. *)
Lemma C1_counterexample_not_smaller :
  (exists g' tr b',
     Ball_move 10 2 (game800 [midBall 0 (-12)]) = Some (tt, g', tr)
     /\ ballAt g' 2 = Some b'
     /\ Rabs (y (Ball_vel_ (midBall 0 (-12)))) > 10
     /\ Ball_vel_ b' = mkVector2 0 (-12)
     /\ ~ Rabs (y (Ball_vel_ b')) < Rabs (y (Ball_vel_ (midBall 0 (-12)))))
  /\ (exists g' tr b',
       Ball_move 10 2 (game800 [midBall 12 0]) = Some (tt, g', tr)
       /\ ballAt g' 2 = Some b'
       /\ Rabs (x (Ball_vel_ (midBall 12 0))) > 10
       /\ Ball_vel_ b' = mkVector2 (12 * 0.99) (0 * 0.99)
       /\ ~ Rabs (y (Ball_vel_ b')) < Rabs (y (Ball_vel_ (midBall 12 0)))).
Proof.
  split.
  - destruct (Ball_move_midBall 10 0 (-12)) as (g' & E & Hb).
    eexists g', _, _. split; [exact E |]. split; [exact Hb |].
    rewrite finishBall_vel.
    rewrite clampSpeed_under by (cbn; lra).
    cbn [Ball_vel_ midBall Ball_new y].
    split; [rewrite Rabs_left by lra; lra |].
    split; [reflexivity | lra].
  - destruct (Ball_move_midBall 10 12 0) as (g' & E & Hb).
    eexists g', _, _. split; [exact E |]. split; [exact Hb |].
    rewrite finishBall_vel.
    rewrite clampSpeed_over by (left; cbn; lra).
    cbn [Ball_vel_ midBall Ball_new x y].
    split; [rewrite Rabs_right by lra; lra |].
    split; [reflexivity |].
    replace (0 * 0.99) with 0 by lra. lra.
Qed.

(** C1 (amended): on a ball that has not left the field, [Ball::move]
    returns, and if the velocity [b1] the collision checks of the frame
    leave has [x > MAX] or [y > MAX] (signed), both components are
    multiplied by 0.99: neither grows in magnitude and each one that is
    not zero becomes strictly smaller.  That velocity is the one the ball
    entered with when the ball is attached or no handler reported a
    collision. *)
Theorem C1_speed_clamp (BALL_MAX_SPEED : R) (g : GraphicsRunner)
  (self : nat) (b : Ball) :
  layoutOk g ->
  ballAt g self = Some b ->
  ~ top (circleGlobalBounds (Ball_circle_ b)) > IZR (Z.of_N (y (windowSize_ g))) ->
  exists g1 checks b1 g' b',
    Ball_move_collisions self (circleGlobalBounds (Ball_circle_ b)) g
      = Some (tt, g1, checks)
    /\ ballAt g1 self = Some b1
    /\ Ball_move BALL_MAX_SPEED self g = Some (tt, g', checks ++ [EvParityFlip])
    /\ ballAt g' self = Some b'
    /\ (x (Ball_vel_ b1) > BALL_MAX_SPEED \/ y (Ball_vel_ b1) > BALL_MAX_SPEED ->
        Ball_vel_ b'
        = mkVector2 (x (Ball_vel_ b1) * 0.99) (y (Ball_vel_ b1) * 0.99)
        /\ Rabs (x (Ball_vel_ b')) <= Rabs (x (Ball_vel_ b1))
        /\ Rabs (y (Ball_vel_ b')) <= Rabs (y (Ball_vel_ b1))
        /\ (x (Ball_vel_ b1) <> 0 ->
            Rabs (x (Ball_vel_ b')) < Rabs (x (Ball_vel_ b1)))
        /\ (y (Ball_vel_ b1) <> 0 ->
            Rabs (y (Ball_vel_ b')) < Rabs (y (Ball_vel_ b1))))
    /\ (Ball_isAttached b = true -> b1 = b)
    /\ (forall g2 tr2,
          collisionChain self (circleGlobalBounds (Ball_circle_ b)) g
            = Some (false, g2, tr2) -> b1 = b).
Proof.
  intros Hl Hb Hin.
  destruct (Ball_move_in_field BALL_MAX_SPEED g self b Hl Hb Hin)
    as (g1 & checks & d1 & b1 & Ec & _ & Hd1 & _ & _ & Hatt & Hno & _ & E).
  eexists g1, checks, b1, _, _.
  split; [exact Ec |].
  split; [apply ballAt_Some; eauto |].
  split; [exact E |].
  split; [apply (ballAt_setBall _ _ _ _ _ Hd1) |].
  split; [| split; [| exact Hno]].
  - intros Hover. rewrite finishBall_vel, (clampSpeed_over _ _ Hover). cbn [x y].
    split; [reflexivity |].
    split; [apply damped_le |]. split; [apply damped_le |].
    split; apply damped_lt.
  - intros Ha. destruct (Hatt Ha) as [-> _].
    apply ballAt_Some in Hb as [d Hd]. congruence.
Qed.

(** A free ball in the open field with velocity (12, 3) under the ceiling
    10 leaves the frame with (12 * 0.99, 3 * 0.99). *)
Lemma C1_speed_clamp_witness :
  exists g' tr b',
    Ball_move 10 2 (game800 [midBall 12 3]) = Some (tt, g', tr)
    /\ ballAt g' 2 = Some b'
    /\ Ball_vel_ b' = mkVector2 (12 * 0.99) (3 * 0.99).
Proof.
  destruct (C1_speed_clamp 10 (game800 [midBall 12 3]) 2 (midBall 12 3)
              (game800_layoutOk _) eq_refl (midBall_in 12 3))
    as (g1 & checks & b1 & g' & b' & _ & _ & E & Hb' & Hclamp & _ & Hno).
  exists g', (checks ++ [EvParityFlip]), b'.
  split; [exact E |]. split; [exact Hb' |].
  rewrite midBall_bounds in Hno.
  rewrite (Hno _ _ (midBall_chain 12 3)) in Hclamp.
  apply Hclamp. left. cbn. lra.
Defined.

(** ** Ball against ball *)

(** [rotation.rotate(a); rotation.rotate(-2 * a)] leaves the rotation by
    [-a]. *)
Lemma rotate_there_and_back (contactAngle : R) :
  let c := cos (contactAngle * 3.141592654 / 180) in
  let s := sin (contactAngle * 3.141592654 / 180) in
  rotate (rotate Identity contactAngle) (-2 * contactAngle)
  = mkTransform c s 0
                (- s) c 0
                0 0 1.
Proof.
  cbv zeta. unfold rotate, combine, Identity.
  cbn [a00 a01 a02 a10 a11 a12 a20 a21 a22].
  replace (-2 * contactAngle * 3.141592654 / 180)
    with (- (2 * (contactAngle * 3.141592654 / 180))) by lra.
  rewrite cos_neg, sin_neg, cos_2a, sin_2a.
  set (c := cos (contactAngle * 3.141592654 / 180)).
  set (s := sin (contactAngle * 3.141592654 / 180)).
  assert (H : s * s + c * c = 1).
  { pose proof (sin2_cos2 (contactAngle * 3.141592654 / 180)) as H.
    unfold Rsqr in H. exact H. }
  assert (Hc : c * (s * s + c * c) = c) by (rewrite H; ring).
  assert (Hs : s * (s * s + c * c) = s) by (rewrite H; ring).
  f_equal; ring_simplify; ring_simplify in Hc; ring_simplify in Hs; lra.
Qed.

(** The response in closed form: with [c] and [s] the cosine and sine of
    the contact angle, the velocities in the contact frame are
    [(c x - s y, s x + c y)]; their y components are swapped; the
    rotation by the opposite angle brings both back. *)
Lemma ballResponse_eq (contactAngle : R) (vel otherVel : Vector2f) :
  let c := cos (contactAngle * 3.141592654 / 180) in
  let s := sin (contactAngle * 3.141592654 / 180) in
  let back := mkTransform c s 0 (- s) c 0 0 0 1 in
  ballResponse contactAngle vel otherVel
  = (transformPoint back
       (mkVector2 (c * x vel - s * y vel) (s * x otherVel + c * y otherVel)),
     transformPoint back
       (mkVector2 (c * x otherVel - s * y otherVel) (s * x vel + c * y vel))).
Proof.
  cbv zeta. unfold ballResponse. rewrite rotate_there_and_back.
  unfold rotate, combine, Identity, transformPoint.
  cbn [a00 a01 a02 a10 a11 a12 a20 a21 a22 x y].
  f_equal; f_equal; ring.
Qed.


Lemma ballResponse_zero (vel otherVel : Vector2f) :
  ballResponse 0 vel otherVel
  = (mkVector2 (x vel) (y otherVel), mkVector2 (x otherVel) (y vel)).
Proof.
  rewrite ballResponse_eq. cbv zeta.
  replace (0 * 3.141592654 / 180) with 0 by lra.
  rewrite cos_0, sin_0. unfold transformPoint.
  cbn [a00 a01 a02 a10 a11 a12 x y].
  f_equal; f_equal; ring.
Qed.



Lemma distance_eq (cx cy px py d : R) :
  0 <= d -> (cx - px) ^ 2 + (cy - py) ^ 2 = d * d ->
  distance cx cy px py = d.
Proof. intros Hd H. unfold distance. rewrite H. apply sqrt_square, Hd. Qed.

(** *** The second example scenario of the specification

    Two free balls of radius 5 at (100, 100) and (100, 108) with
    velocities (0, -2) and (0, 3). *)

Lemma ballA_bounds : circleGlobalBounds (Ball_circle_ ballA) = boundsA.
Proof. unfold ballA. rewrite Ball_new_bounds by lra. reflexivity. Qed.

Lemma scenario2_distance :
  distance 100 108 (100 - 5 + 2 * 5 / 2) (100 - 5 + 2 * 5 / 2) = 8.
Proof. apply distance_eq; lra. Qed.

Lemma scenario2_self : Ball_collision ballA boundsA = (chr_n, boundsA).
Proof.
  unfold Ball_collision, ballA, Ball_new, boundsA, circlePosition.
  cbn [Ball_isAttached Ball_attachedPos_ Ball_circle_ c_transformable
       m_position m_radius left top width height x y].
  rewrite distance_same by lra. Rdecide. reflexivity.
Qed.

Lemma scenario2_query :
  Ball_collision ballB boundsA = (chr_y, mkRect 100 108 0 3).
Proof.
  unfold Ball_collision, ballB, Ball_new, boundsA, circlePosition.
  cbn [Ball_isAttached Ball_attachedPos_ Ball_circle_ Ball_vel_ c_transformable
       m_position m_radius left top width height x y].
  rewrite scenario2_distance. Rdecide. reflexivity.
Qed.

Lemma scenario2_angle :
  Ball_getContactAngle (circlePosition (Ball_circle_ ballA)) (mkRect 100 108 0 3)
  = 0.
Proof.
  unfold Ball_getContactAngle, ballA, Ball_new, circlePosition.
  cbn [Ball_circle_ c_transformable m_position left top x y].
  Rdecide.
  replace ((100 - 100) / (100 - 108)) with 0 by lra.
  rewrite atan_0. lra.
Qed.

Lemma scenario2_resolution :
  Ball_handleBallCollisions 2 boundsA (game800 [ballA; ballB])
  = Some (true,
          game800 [Ball_setVelocity ballA (mkVector2 0 3);
                   Ball_setVelocity ballB (mkVector2 0 (-2))],
          [EvCollision 2; EvCollision 3]).
Proof.
  unfold Ball_handleBallCollisions, bind, getGame.
  change (indexOfFirstSafetyBrick_ (game800 [ballA; ballB])
          + numSafetyBricks_ (game800 [ballA; ballB])
          + numBricks_ (game800 [ballA; ballB]))%Z with 2%Z.
  change (2 <? 0)%Z with false. cbv beta iota.
  change (Z.to_nat (Z.of_nat (length (objects_ (game800 [ballA; ballB]))) - 2))
    with 2%nat.
  cbn [ballLoop]. unfold bind, getGame, callCollision.
  change (thisBall 2 (game800 [ballA; ballB]))
    with (Some (ballA, game800 [ballA; ballB], @nil Event)).
  change (objectAt (game800 [ballA; ballB]) 2)
    with (Some (mkObject false (ABall ballA))).
  cbn [entity]. rewrite Bool.eqb_reflx. cbn [negb].
  change (objectAt (game800 [ballA; ballB]) 2)
    with (Some (mkObject false (ABall ballA))).
  unfold Object_collision at 1. cbn [entity].
  rewrite scenario2_self. cbn [fst snd].
  change (Ascii.eqb chr_n chr_y) with false. cbv beta iota.
  change (2 + 1)%Z with 3%Z.
  change (thisBall 2 (game800 [ballA; ballB]))
    with (Some (ballA, game800 [ballA; ballB], @nil Event)).
  change (objectAt (game800 [ballA; ballB]) 3)
    with (Some (mkObject false (ABall ballB))).
  cbn [entity]. change (Ball_collisionState_ ballB) with (Ball_collisionState_ ballA).
  rewrite Bool.eqb_reflx. cbn [negb].
  change (objectAt (game800 [ballA; ballB]) 3)
    with (Some (mkObject false (ABall ballB))).
  unfold Object_collision. cbn [entity].
  rewrite scenario2_query. cbn [fst snd width height].
  change (Ascii.eqb chr_y chr_y) with true. cbv beta iota.
  rewrite scenario2_angle, ballResponse_zero.
  cbn [fst snd x y Ball_vel_ ballA Ball_new].
  reflexivity.
Qed.

(** C2: in the second example scenario the query of the second ball with
    the bounds of the first reports contact (the centres are 8 apart,
    less than 5 + 5 and more than 5 / 4) and writes the second ball's
    position and velocity to the box; the contact angle is 0 degrees; and
    [Ball::handleBallCollisions] of the first ball swaps the y velocities:
    the first ball leaves with (0, 3) and the second, written to in place,
    with (0, -2). *)
Theorem C2_scenario_two_balls :
  circleGlobalBounds (Ball_circle_ ballA) = boundsA
  /\ distance 100 108 (left boundsA + width boundsA / 2)
                      (top boundsA + height boundsA / 2) = 8
  /\ 8 < width boundsA / 2 + m_radius (Ball_circle_ ballB)
  /\ 8 > m_radius (Ball_circle_ ballB) / 4
  /\ Ball_collision ballB boundsA = (chr_y, mkRect 100 108 0 3)
  /\ Ball_getContactAngle (circlePosition (Ball_circle_ ballA))
                          (mkRect 100 108 0 3) = 0
  /\ exists g',
       Ball_handleBallCollisions 2 boundsA (game800 [ballA; ballB])
       = Some (true, g', [EvCollision 2; EvCollision 3])
       /\ ballAt g' 2 = Some (Ball_setVelocity ballA (mkVector2 0 3))
       /\ ballAt g' 3 = Some (Ball_setVelocity ballB (mkVector2 0 (-2))).
Proof.
  split; [exact ballA_bounds |].
  split; [exact scenario2_distance |].
  split; [cbn; lra |]. split; [cbn; lra |].
  split; [exact scenario2_query |].
  split; [exact scenario2_angle |].
  eexists. split; [exact scenario2_resolution |]. split; reflexivity.
Qed.




(** ** The contact angle *)

(** In the model on real numbers a tangential contact gives the product of
    the two decimal literals, 90 within 2 / 10^8. *)
Lemma Ball_getContactAngle_tangential (object1 : Vector2f) (object2 : FloatRect) :
  y object1 = top object2 ->
  Ball_getContactAngle object1 object2 = 1.570796327 * 57.295779513
  /\ Rabs (Ball_getContactAngle object1 object2 - 90) < 2 / 10 ^ 8.
Proof.
  intros H. unfold Ball_getContactAngle.
  rewrite Reqb_true by lra. split; [reflexivity |].
  apply Rabs_def1; lra.
Qed.

Lemma Ball_getContactAngle_oblique (object1 : Vector2f) (object2 : FloatRect) :
  y object1 <> top object2 ->
  Ball_getContactAngle object1 object2
  = atan ((x object1 - left object2) / (y object1 - top object2)) * 57.295779513.
Proof.
  intros H. unfold Ball_getContactAngle.
  rewrite Reqb_false by lra. reflexivity.
Qed.

Module Binary32Facts.

Import Binary32.

(** The two literals are the binary32 values nearest to their decimals:
    each is within half a unit in the last place (2^-24 and 2^-19). *)
Lemma lit_1_570796327f_nearest :
  (2 ^ 23 <= 13176795 < 2 ^ 24
   /\ 2 * Z.abs (13176795 * 10 ^ 9 - 1570796327 * 2 ^ 23) < 10 ^ 9)%Z.
Proof. vm_compute. repeat split; discriminate. Qed.

Lemma lit_57_295779513f_nearest :
  (2 ^ 23 <= 15019745 < 2 ^ 24
   /\ 2 * Z.abs (15019745 * 10 ^ 9 - 57295779513 * 2 ^ 18) < 10 ^ 9)%Z.
Proof. vm_compute. repeat split; discriminate. Qed.

Lemma literals_valid :
  valid_binary prec emax lit_1_570796327f = true
  /\ valid_binary prec emax lit_57_295779513f = true
  /\ valid_binary prec emax f90 = true.
Proof. vm_compute. auto. Qed.

Lemma f90_is_90 : toR f90 = 90.
Proof.
  unfold toR, f90. cbn [cond_Zopp powerRZ].
  replace (Pos.to_nat 17) with 17%nat by reflexivity.
  simpl pow. lra.
Qed.

Lemma f90_ofZ : ofZ 90 = f90.
Proof. vm_compute. reflexivity. Qed.

(** The rounded product of the two literals. *)
Lemma tangential_product : fmul lit_1_570796327f lit_57_295779513f = f90.
Proof. vm_compute. reflexivity. Qed.

End Binary32Facts.

(** C6: on binary32, as the machine computes it, the contact angle of a
    centre and a contact point is the arctangent [atanf] of the quotient of
    the coordinate differences [dx / dy], multiplied by the literal
    [57.295779513f] to give degrees; except that [dy == 0] (either zero)
    gives the product of the two literals [1.570796327f] and
    [57.295779513f], which rounds to exactly 90. *)
Theorem C6_getContactAngle_binary32 (atanf : Binary32.float -> Binary32.float)
  (object1 : Vector2 Binary32.float) (object2 : Rect Binary32.float) :
  let dx := Binary32.fsub (x object1) (left object2) in
  let dy := Binary32.fsub (y object1) (top object2) in
  (Binary32.feqb dy Binary32.fzero = true ->
     Binary32.getContactAngle atanf object1 object2 = Binary32.f90)
  /\ (Binary32.feqb dy Binary32.fzero = false ->
      Binary32.getContactAngle atanf object1 object2
      = Binary32.fmul (atanf (Binary32.fdiv dx dy)) Binary32.lit_57_295779513f)
  /\ Binary32.toR Binary32.f90 = 90.
Proof.
  cbv zeta. unfold Binary32.getContactAngle.
  split; [| split].
  - intros ->. apply Binary32Facts.tangential_product.
  - intros ->. reflexivity.
  - apply Binary32Facts.f90_is_90.
Qed.

(** A contact point level with the centre, (95, 108) against (100, 108):
    exactly 90 degrees, whatever [atanf] is. *)
Lemma C6_getContactAngle_binary32_witness :
  Binary32.getContactAngle (fun f => f)
    (mkVector2 (Binary32.ofZ 100) (Binary32.ofZ 108))
    (mkRect (Binary32.ofZ 95) (Binary32.ofZ 108) (Binary32.ofZ 0) (Binary32.ofZ 0))
  = Binary32.ofZ 90.
Proof.
  rewrite Binary32Facts.f90_ofZ.
  apply (C6_getContactAngle_binary32 (fun f => f)
           (mkVector2 (Binary32.ofZ 100) (Binary32.ofZ 108))
           (mkRect (Binary32.ofZ 95) (Binary32.ofZ 108) (Binary32.ofZ 0)
                   (Binary32.ofZ 0))).
  vm_compute. reflexivity.
Defined.

(** * More of the code *)

(** ** The simple response *)

Lemma withObjects_same (g : GraphicsRunner) : withObjects g (objects_ g) = g.
Proof. destruct g; reflexivity. Qed.

Lemma setBall_same (g : GraphicsRunner) (self : nat) (d : bool) (b : Ball) :
  objects_ g !! self = Some (mkObject d (ABall b)) -> setBall g self d b = g.
Proof.
  intros H. unfold setBall. rewrite list_insert_id by exact H.
  apply withObjects_same.
Qed.

(** X1: [Ball::handleSimpleCollision] negates one component of the
    velocity, for ['v'] the y component and for ['h'] the x component, and
    nothing else in the game; the same answer handled a second time gives
    back the game as it was.  Any other character is reported unhandled
    and changes nothing. *)
Theorem Ball_handleSimpleCollision_involution (g : GraphicsRunner)
  (self : nat) (d : bool) (b : Ball) (c : ascii) :
  objects_ g !! self = Some (mkObject d (ABall b)) ->
  let flipped :=
    if Ascii.eqb c chr_v
    then mkVector2 (x (Ball_vel_ b)) (- y (Ball_vel_ b))
    else mkVector2 (- x (Ball_vel_ b)) (y (Ball_vel_ b)) in
  (c = chr_v \/ c = chr_h ->
   Ball_handleSimpleCollision self c g
     = Some (true, setBall g self d (Ball_setVelocity b flipped), [])
   /\ Ball_handleSimpleCollision self c
        (setBall g self d (Ball_setVelocity b flipped))
      = Some (true, g, []))
  /\ (c <> chr_v -> c <> chr_h ->
      Ball_handleSimpleCollision self c g = Some (false, g, [])).
Proof.
  intros H flipped. split.
  - intros Hc.
    assert (Hflip : forall (h : GraphicsRunner) (b0 : Ball),
               objects_ h !! self = Some (mkObject d (ABall b0)) ->
               Ball_handleSimpleCollision self c h
               = Some (true,
                       setBall h self d
                         (Ball_setVelocity b0
                            (if Ascii.eqb c chr_v
                             then mkVector2 (x (Ball_vel_ b0)) (- y (Ball_vel_ b0))
                             else mkVector2 (- x (Ball_vel_ b0)) (y (Ball_vel_ b0)))),
                       [])).
    { intros h b0 Hh. unfold Ball_handleSimpleCollision, bind, ret.
      destruct Hc as [-> | ->]; cbn [Ascii.eqb chr_v chr_h Bool.eqb];
        cbv iota; rewrite (updateThis_eq _ _ _ _ _ Hh); unfold setVel;
        cbn [app]; repeat f_equal; ring. }
    split; [apply Hflip; exact H|].
    rewrite (Hflip _ (Ball_setVelocity b flipped)
               (lookup_setBall _ _ _ _ _ H)).
    rewrite setBall_setBall. f_equal. f_equal. f_equal.
    apply setBall_same. rewrite H. do 3 f_equal.
    destruct b as [ci [vx vy] at_ cs]. unfold Ball_setVelocity, flipped.
    cbn [Ball_vel_ Ball_circle_ Ball_attachedPos_ Ball_collisionState_ x y].
    destruct (Ascii.eqb c chr_v); cbn [x y]; repeat f_equal; ring.
  - intros Hv Hh. unfold Ball_handleSimpleCollision.
    apply Ascii.eqb_neq in Hv, Hh. rewrite Hv, Hh. reflexivity.
Qed.

Lemma Ball_handleSimpleCollision_involution_witness :
  Ball_handleSimpleCollision 2 chr_v (game800 [midBall 1 2])
    = Some (true, game800 [midBall 1 (- (2))], [])
  /\ Ball_handleSimpleCollision 2 chr_v (game800 [midBall 1 (- (2))])
     = Some (true, game800 [midBall 1 2], []).
Proof.
  exact (proj1 (Ball_handleSimpleCollision_involution
                  (game800 [midBall 1 2]) 2 false (midBall 1 2) chr_v
                  eq_refl)
               (or_introl eq_refl)).
Defined.

(** ** The responses in the contact frame *)

Lemma cornerResponse_eq (contactAngle : R) (vel : Vector2f) :
  let c := cos (contactAngle * 3.141592654 / 180) in
  let s := sin (contactAngle * 3.141592654 / 180) in
  cornerResponse contactAngle vel
  = mkVector2 ((c * c - s * s) * x vel - 2 * c * s * y vel)
              (- (2 * c * s) * x vel - (c * c - s * s) * y vel).
Proof.
  intros c s. unfold cornerResponse. cbv zeta.
  rewrite rotate_there_and_back. fold c s.
  unfold rotate, Identity, combine, transformPoint.
  cbn [a00 a01 a02 a10 a11 a12 a20 a21 a22 x y]. fold c s.
  f_equal; ring.
Qed.

Lemma cos_sin_one (a : R) : cos a * cos a + sin a * sin a = 1.
Proof. pose proof (sin2_cos2 a) as H. unfold Rsqr in H. lra. Qed.

Lemma cornerResponse_speed (contactAngle : R) (vel : Vector2f) :
  x (cornerResponse contactAngle vel) ^ 2
  + y (cornerResponse contactAngle vel) ^ 2
  = x vel ^ 2 + y vel ^ 2.
Proof.
  rewrite cornerResponse_eq.
  set (c := cos _). set (s := sin _).
  pose proof (cos_sin_one (contactAngle * 3.141592654 / 180)) as H.
  fold c s in H. destruct vel as [vx vy]. cbn [x y].
  transitivity ((c * c + s * s) * (c * c + s * s) * (vx ^ 2 + vy ^ 2));
    [ring|]. rewrite H. ring.
Qed.

(** X2: The response of a ball to the corner of a brick is a reflection:
    whatever the contact angle, the speed is as before, and the response
    applied twice with the same angle gives back the velocity. *)
Theorem cornerResponse_reflection (contactAngle : R) (vel : Vector2f) :
  let vel' := cornerResponse contactAngle vel in
  x vel' ^ 2 + y vel' ^ 2 = x vel ^ 2 + y vel ^ 2
  /\ cornerResponse contactAngle vel' = vel.
Proof.
  cbv zeta. split; [apply cornerResponse_speed|].
  rewrite !cornerResponse_eq.
  set (c := cos _). set (s := sin _).
  pose proof (cos_sin_one (contactAngle * 3.141592654 / 180)) as H.
  fold c s in H. destruct vel as [vx vy]. cbn [x y].
  f_equal.
  - transitivity ((c * c + s * s) * (c * c + s * s) * vx); [ring|].
    rewrite H. ring.
  - transitivity ((c * c + s * s) * (c * c + s * s) * vy); [ring|].
    rewrite H. ring.
Qed.

Lemma paddleResponse_eq (contactAngle : R) (boundsCopy : FloatRect)
  (vel : Vector2f) :
  let c := cos (contactAngle * 3.141592654 / 180) in
  let s := sin (contactAngle * 3.141592654 / 180) in
  let push := (s * width boundsCopy + c * height boundsCopy) * 1.1 in
  paddleResponse contactAngle boundsCopy vel
  = mkVector2 (x (cornerResponse contactAngle vel) + s * push)
              (y (cornerResponse contactAngle vel) + c * push).
Proof.
  intros c s push. rewrite cornerResponse_eq. fold c s.
  unfold paddleResponse. cbv zeta.
  rewrite rotate_there_and_back. fold c s.
  unfold rotate, Identity, combine, transformPoint.
  cbn [a00 a01 a02 a10 a11 a12 a20 a21 a22 x y]. fold c s.
  unfold push. f_equal; ring.
Qed.

Lemma paddleResponse_level (contactAngle : R) (boundsCopy : FloatRect)
  (vel : Vector2f) :
  contactAngle = 0 -> height boundsCopy = 0 ->
  paddleResponse contactAngle boundsCopy vel = mkVector2 (x vel) (- y vel).
Proof.
  intros Ha Hh. rewrite paddleResponse_eq, cornerResponse_eq, Hh.
  subst contactAngle.
  replace (0 * 3.141592654 / 180) with 0 by lra.
  rewrite cos_0, sin_0. cbn [x y]. f_equal; ring.
Qed.

(** X3: The response to the paddle is the reflection of the corner
    response plus a push along the contact normal, 1.1 times the component
    of the paddle's velocity on that normal; a surface at rest, or one that
    moves along itself (contact angle 0 and no vertical velocity, the flat
    of a level paddle), only reflects: the velocity becomes (x, -y). *)
Theorem paddleResponse_push (contactAngle : R) (boundsCopy : FloatRect)
  (vel : Vector2f) :
  let c := cos (contactAngle * 3.141592654 / 180) in
  let s := sin (contactAngle * 3.141592654 / 180) in
  let normal := s * width boundsCopy + c * height boundsCopy in
  paddleResponse contactAngle boundsCopy vel
  = mkVector2 (x (cornerResponse contactAngle vel) + s * (normal * 1.1))
              (y (cornerResponse contactAngle vel) + c * (normal * 1.1))
  /\ (width boundsCopy = 0 -> height boundsCopy = 0 ->
      paddleResponse contactAngle boundsCopy vel
      = cornerResponse contactAngle vel)
  /\ (contactAngle = 0 -> height boundsCopy = 0 ->
      paddleResponse contactAngle boundsCopy vel
      = mkVector2 (x vel) (- y vel)).
Proof.
  intros c s normal. split; [apply paddleResponse_eq|]. split.
  - intros Hw Hh. rewrite paddleResponse_eq, Hw, Hh.
    destruct (cornerResponse contactAngle vel) as [rx ry]. cbn [x y].
    f_equal; ring.
  - apply paddleResponse_level.
Qed.

Lemma paddleResponse_push_witness :
  paddleResponse 0 (mkRect 0 552 3 0) (mkVector2 1 2) = mkVector2 1 (- (2)).
Proof.
  exact (proj2 (proj2 (paddleResponse_push 0 (mkRect 0 552 3 0)
                         (mkVector2 1 2))) eq_refl eq_refl).
Defined.

(** ** The flat of the paddle *)

Lemma perpendicular_distance (ax ay bx by_ : R) :
  bx * bx + by_ * by_ <> 0 ->
  let projFactor := (ax * bx + ay * by_) / (bx * bx + by_ * by_) in
  sqrt ((ax - bx * projFactor) ^ 2 + (ay - by_ * projFactor) ^ 2)
  = Rabs (ax * by_ - ay * bx) / sqrt (bx * bx + by_ * by_).
Proof.
  intros Hn pf.
  assert (Hpos : 0 < bx * bx + by_ * by_).
  { pose proof (Rle_0_sqr bx) as H1. pose proof (Rle_0_sqr by_) as H2.
    unfold Rsqr in H1, H2. lra. }
  replace ((ax - bx * pf) ^ 2 + (ay - by_ * pf) ^ 2)
    with (Rsqr (ax * by_ - ay * bx) / (bx * bx + by_ * by_)).
  2:{ unfold pf, Rsqr. field. exact Hn. }
  rewrite sqrt_div_alt by exact Hpos. rewrite sqrt_Rsqr_abs. reflexivity.
Qed.

(** The answer of the paddle is ['v'] exactly when the test of the
    rectangular part succeeds. *)
Lemma Paddle_collision_v_iff (this : Paddle) (boundingBox : FloatRect) :
  let leftPos := circlePosition (Paddle_leftCircle_ this) in
  let rightPos := circlePosition (Paddle_rightCircle_ this) in
  let ax := left boundingBox + width boundingBox / 2 - x leftPos in
  let ay := y leftPos - (top boundingBox + width boundingBox / 2) in
  let bx := x rightPos - x leftPos in
  let by_ := y leftPos - y rightPos in
  let projFactor := (ax * bx + ay * by_) / (bx * bx + by_ * by_) in
  let dist :=
    sqrt ((ax - bx * projFactor) ^ 2 + (ay - by_ * projFactor) ^ 2) in
  (fst (Paddle_collision this boundingBox) = chr_v <->
   intersects (rectGlobalBounds (Paddle_rectangle_ this)) boundingBox = true
   /\ x leftPos < left boundingBox + width boundingBox / 2 < x rightPos
   /\ dist < width boundingBox / 2 + y (m_size (Paddle_rectangle_ this)) / 2)
  /\ (fst (Paddle_collision this boundingBox) = chr_v ->
      Paddle_collision this boundingBox
      = (chr_v, mkRect (rectRotation (Paddle_rectangle_ this))
                       (top boundingBox) (Paddle_vel_ this) 0)).
Proof.
  intros leftPos rightPos ax ay bx by_ projFactor dist.
  unfold Paddle_collision. cbv zeta.
  fold leftPos rightPos. fold ax ay bx by_. fold projFactor. fold dist.
  unfold Rgtb.
  set (sides := if (intersects (circleGlobalBounds (Paddle_leftCircle_ this))
                      boundingBox
                    || intersects (circleGlobalBounds (Paddle_rightCircle_ this))
                         boundingBox)%bool then _ else _).
  assert (Hsides : fst sides <> chr_v).
  { unfold sides.
    repeat match goal with
           | |- context [if ?c then _ else _] => destruct c
           end; cbn [fst]; discriminate. }
  destruct (intersects (rectGlobalBounds (Paddle_rectangle_ this)) boundingBox).
  2:{ cbn [andb]. split; [split|]; intros H;
        first [tauto | destruct H as [H _]; discriminate]. }
  cbn [andb].
  destruct (Rlt_dec (x leftPos) (left boundingBox + width boundingBox / 2))
    as [H1 | H1].
  2:{ rewrite (Rltb_false _ _ H1). cbn [andb].
      split; [split|]; intros H; first [tauto | lra]. }
  rewrite (Rltb_true _ _ H1). cbn [andb].
  destruct (Rlt_dec (left boundingBox + width boundingBox / 2) (x rightPos))
    as [H2 | H2].
  2:{ rewrite (Rltb_false _ _ H2).
      split; [split|]; intros H; first [tauto | lra]. }
  rewrite (Rltb_true _ _ H2).
  destruct (Rlt_dec dist
              (width boundingBox / 2 + y (m_size (Paddle_rectangle_ this)) / 2))
    as [H3 | H3].
  - rewrite (Rltb_true _ _ H3). cbn [fst]. repeat split; auto.
  - rewrite (Rltb_false _ _ H3).
    split; [split|]; intros H; first [tauto | lra].
Qed.

(** X4: [Paddle::collision] answers ['v'] exactly when the box meets the
    bounds of the rectangle, the centre of the box lies between the two
    end-caps in x, and the distance from that centre to the line through
    the centres of the end-caps (the cross product of the two offsets over
    the length of the axis) is below the radius of the box plus half the
    thickness of the paddle; the box then carries the rotation of the paddle
    in [left], its velocity in [width] and 0 in [height]. *)
Theorem Paddle_collision_flat (this : Paddle) (boundingBox : FloatRect) :
  let leftPos := circlePosition (Paddle_leftCircle_ this) in
  let rightPos := circlePosition (Paddle_rightCircle_ this) in
  let cx := left boundingBox + width boundingBox / 2 in
  let cy := top boundingBox + width boundingBox / 2 in
  let ax := cx - x leftPos in
  let ay := y leftPos - cy in
  let bx := x rightPos - x leftPos in
  let by_ := y leftPos - y rightPos in
  bx * bx + by_ * by_ <> 0 ->
  (fst (Paddle_collision this boundingBox) = chr_v <->
   intersects (rectGlobalBounds (Paddle_rectangle_ this)) boundingBox = true
   /\ x leftPos < cx < x rightPos
   /\ Rabs (ax * by_ - ay * bx) / sqrt (bx * bx + by_ * by_)
      < width boundingBox / 2 + y (m_size (Paddle_rectangle_ this)) / 2)
  /\ (fst (Paddle_collision this boundingBox) = chr_v ->
      snd (Paddle_collision this boundingBox)
      = mkRect (rectRotation (Paddle_rectangle_ this)) (top boundingBox)
               (Paddle_vel_ this) 0).
Proof.
  intros leftPos rightPos cx cy ax ay bx by_ Hn.
  destruct (Paddle_collision_v_iff this boundingBox) as [Hiff Hbox].
  cbv zeta in Hiff. fold leftPos rightPos in Hiff. fold cx cy in Hiff.
  fold ax ay bx by_ in Hiff.
  rewrite (perpendicular_distance ax ay bx by_ Hn) in Hiff.
  split; [exact Hiff|]. intros H. rewrite (Hbox H). reflexivity.
Qed.

(** The paddle of the scenes under a ball that rests on its flat. *)
Lemma paddle800_flat :
  fst (Paddle_collision (Paddle_new 400 560 100 20) (mkRect 395 552 10 10))
  = chr_v.
Proof.
  apply (proj1 (Paddle_collision_v_iff _ _)).
  rewrite rectGlobalBounds_unrotated by (cbn; lra).
  unfold Paddle_new, rectPosition, circlePosition.
  cbn [Paddle_rectangle_ Paddle_leftCircle_ Paddle_rightCircle_ r_transformable
       c_transformable m_position m_origin m_size m_radius
       left top width height x y].
  split; [Rgeometry; reflexivity|]. split; [lra|].
  match goal with
  | |- sqrt ?e < _ => replace e with (13 * 13) by field
  end.
  rewrite sqrt_square by lra. lra.
Qed.

Lemma Paddle_collision_flat_witness :
  intersects (rectGlobalBounds (Paddle_rectangle_ (Paddle_new 400 560 100 20)))
             (mkRect 395 552 10 10) = true
  /\ snd (Paddle_collision (Paddle_new 400 560 100 20) (mkRect 395 552 10 10))
     = mkRect 0 552 0 0.
Proof.
  assert (Hn : (400 + 100 / 2 - (400 - 100 / 2))
               * (400 + 100 / 2 - (400 - 100 / 2))
               + (560 + 20 / 2 - (560 + 20 / 2))
                 * (560 + 20 / 2 - (560 + 20 / 2)) <> 0) by lra.
  pose proof (Paddle_collision_flat (Paddle_new 400 560 100 20)
                (mkRect 395 552 10 10) Hn) as [Hiff Hbox].
  split.
  - exact (proj1 (proj1 Hiff paddle800_flat)).
  - exact (Hbox paddle800_flat).
Defined.

(** X5: On the flat of a level paddle (rotation 0) the ball leaves with
    its vertical velocity reversed and its horizontal velocity as it was,
    whatever the velocity of the paddle: on a level paddle the motion of the
    paddle is not passed on to the ball. *)
Theorem Ball_handlePaddleCollisions_level (g : GraphicsRunner) (self : nat)
  (d dp : bool) (b : Ball) (p : Paddle) (bounds : FloatRect) :
  objects_ g !! 0%nat = Some (mkObject dp (APaddle p)) ->
  objects_ g !! self = Some (mkObject d (ABall b)) ->
  rectRotation (Paddle_rectangle_ p) = 0 ->
  fst (Paddle_collision p bounds) = chr_v ->
  Ball_handlePaddleCollisions self bounds g
  = Some (true,
          setBall g self d
            (Ball_setVelocity b
               (mkVector2 (x (Ball_vel_ b)) (- y (Ball_vel_ b)))),
          [EvCollision 0]).
Proof.
  intros Hp Hb Hrot Hv.
  unfold Ball_handlePaddleCollisions, bind, callCollision.
  change (objectAt g 0) with (objects_ g !! 0%nat). rewrite Hp.
  unfold Object_collision. cbn [entity].
  rewrite (proj2 (Paddle_collision_v_iff p bounds) Hv).
  cbv beta zeta. cbn [fst snd].
  change (Ascii.eqb chr_v chr_v) with true. cbv iota. unfold bind.
  rewrite (updateThis_eq _ _ _ _ _ Hb). unfold ret, setVel. cbn [app].
  rewrite paddleResponse_level by (cbn [left height]; lra).
  reflexivity.
Qed.

Lemma Ball_handlePaddleCollisions_level_witness :
  Ball_handlePaddleCollisions 2 (mkRect 395 552 10 10)
    (game800 [Ball_new 400 557 1 2 5])
  = Some (true, game800 [Ball_new 400 557 1 (- (2)) 5], [EvCollision 0]).
Proof.
  exact (Ball_handlePaddleCollisions_level (game800 [Ball_new 400 557 1 2 5])
           2 false false (Ball_new 400 557 1 2 5) (Paddle_new 400 560 100 20)
           (mkRect 395 552 10 10) eq_refl eq_refl eq_refl paddle800_flat).
Defined.

(** ** The bricks a ball meets *)

Lemma Brick_collision_chars (this : Brick) (boundingBox : FloatRect) :
  fst (Brick_collision this boundingBox) = chr_v
  \/ fst (Brick_collision this boundingBox) = chr_h
  \/ fst (Brick_collision this boundingBox) = chr_c
  \/ fst (Brick_collision this boundingBox) = chr_n.
Proof.
  unfold Brick_collision. cbv zeta.
  repeat match goal with
         | |- context [if ?c then _ else _] => destruct c
         end; cbn [fst]; auto.
Qed.

Lemma firstTouched_range (g : GraphicsRunner) (bounds : FloatRect) (n : nat) :
  forall (i j : Z) (r : ascii * FloatRect),
  firstTouched g bounds i n = Some (j, r) ->
  (i <= j < i + Z.of_nat n)%Z.
Proof.
  induction n as [|n IH]; intros i j r H; cbn [firstTouched] in H.
  - discriminate.
  - destruct (objectAt g i) as [o|]; [|discriminate].
    destruct (Ascii.eqb (fst (Object_collision o bounds)) chr_n).
    + apply IH in H. lia.
    + injection H as <- _. lia.
Qed.

(** What [firstTouched] finds: the object at [j] gave the answer [r], not
    ['n'], and all objects before it from [i] answered ['n']. *)
Lemma firstTouched_spec (g : GraphicsRunner) (bounds : FloatRect) (n : nat) :
  forall (i j : Z) (r : ascii * FloatRect),
  firstTouched g bounds i n = Some (j, r) ->
  (exists o, objectAt g j = Some o /\ r = Object_collision o bounds)
  /\ fst r <> chr_n
  /\ forall k o, (i <= k < j)%Z -> objectAt g k = Some o ->
       fst (Object_collision o bounds) = chr_n.
Proof.
  induction n as [|n IH]; intros i j r H; cbn [firstTouched] in H.
  - discriminate.
  - destruct (objectAt g i) as [o|] eqn:Ho; [|discriminate].
    destruct (Ascii.eqb (fst (Object_collision o bounds)) chr_n) eqn:Hn.
    + pose proof (firstTouched_range _ _ _ _ _ _ H) as Hr.
      destruct (IH _ _ _ H) as (Hj & Hne & Hbefore).
      split; [exact Hj|]. split; [exact Hne|].
      intros k o' Hk Hk'.
      destruct (Z.eq_dec k i) as [->|Hki].
      * rewrite Ho in Hk'. injection Hk' as <-.
        apply Ascii.eqb_eq. exact Hn.
      * apply (Hbefore k o'); [lia | exact Hk'].
    + injection H as <- <-. split; [eauto|]. split.
      * apply Ascii.eqb_neq. exact Hn.
      * intros k o' Hk. lia.
Qed.

Lemma firstTouched_none (g : GraphicsRunner) (bounds : FloatRect) (n : nat) :
  forall (i : Z),
  (forall k, (i <= k < i + Z.of_nat n)%Z -> is_Some (objectAt g k)) ->
  firstTouched g bounds i n = None ->
  forall k o, (i <= k < i + Z.of_nat n)%Z -> objectAt g k = Some o ->
    fst (Object_collision o bounds) = chr_n.
Proof.
  induction n as [|n IH]; intros i Hall H k o Hk Ho; [lia|].
  cbn [firstTouched] in H.
  destruct (objectAt g i) as [oi|] eqn:Hoi.
  - destruct (Ascii.eqb (fst (Object_collision oi bounds)) chr_n) eqn:Hn;
      [|discriminate].
    destruct (Z.eq_dec k i) as [->|Hki].
    + rewrite Hoi in Ho. injection Ho as <-. apply Ascii.eqb_eq. exact Hn.
    + apply (IH (i + 1)%Z) with (k := k);
        [intros k' Hk'; apply Hall; lia | exact H | lia | exact Ho].
  - destruct (Hall i) as [oi Hoi']; [lia|]. congruence.
Qed.

Lemma hitBrick_eq (g : GraphicsRunner) (self : nat) (j : Z) (d dj : bool)
  (b : Ball) (br : Brick) (r : ascii * FloatRect) :
  objects_ g !! self = Some (mkObject d (ABall b)) ->
  objectAt g j = Some (mkObject dj (ABrick br)) ->
  hitBrick g self j r
  = setBall (withObjects g (<[Z.to_nat j := mkObject true (ABrick br)]> (objects_ g)))
            self d (Ball_setVelocity b (brickResponse r b)).
Proof.
  intros Hb Hj. unfold hitBrick. rewrite Hj, Hb. reflexivity.
Qed.

(** The loop of [Ball::handleBrickCollisions] over bricks stops at the
    first that is touched. *)
Lemma brickLoop_firstTouched (n : nat) :
  forall (g : GraphicsRunner) (self : nat) (d : bool) (b : Ball)
         (bounds : FloatRect) (i : Z),
  objects_ g !! self = Some (mkObject d (ABall b)) ->
  (forall j, (i <= j < i + Z.of_nat n)%Z ->
     exists dj br, objectAt g j = Some (mkObject dj (ABrick br))) ->
  brickLoop self bounds i n g
  = match firstTouched g bounds i n with
    | None => Some (false, g, queries i n)
    | Some (j, r) =>
        Some (true, hitBrick g self j r, queries i (S (Z.to_nat (j - i))))
    end.
Proof.
  induction n as [|n IH]; intros g self d b bounds i Hb Hbricks.
  - reflexivity.
  - destruct (Hbricks i) as (di & br & Hi); [lia|].
    cbn [brickLoop firstTouched]. unfold bind at 1, callCollision.
    rewrite Hi.
    change (Object_collision (mkObject di (ABrick br)) bounds)
      with (Brick_collision br bounds).
    cbv beta zeta.
    pose proof (objectAt_Some _ _ _ Hi) as Hi'.
    assert (Hne : Z.to_nat i <> self) by (intros <-; congruence).
    set (g1 := withObjects g (<[Z.to_nat i := mkObject true (ABrick br)]> (objects_ g))).
    assert (Hb1 : objects_ g1 !! self = Some (mkObject d (ABall b))).
    { unfold g1. cbn [objects_ withObjects].
      rewrite list_lookup_insert_ne by exact Hne. exact Hb. }
    assert (Hmark : markDeleted i g = Some (tt, g1, [])).
    { unfold markDeleted. rewrite Hi. reflexivity. }
    destruct (Brick_collision_chars br bounds) as [Hc | [Hc | [Hc | Hc]]];
      rewrite Hc.
    + change (Ascii.eqb chr_v chr_n) with false. cbn [negb]. cbv iota.
      unfold bind. rewrite Hmark.
      unfold Ball_handleSimpleCollision.
      change (Ascii.eqb chr_v chr_v) with true. cbv iota. unfold bind.
      rewrite (updateThis_eq _ _ _ _ _ Hb1). unfold ret. cbn [app].
      rewrite (hitBrick_eq _ _ _ _ _ _ _ _ Hb Hi). fold g1.
      unfold brickResponse, setVel. rewrite Hc.
      change (Ascii.eqb chr_v chr_v) with true. cbv iota.
      rewrite Z.sub_diag. reflexivity.
    + change (Ascii.eqb chr_h chr_n) with false. cbn [negb]. cbv iota.
      unfold bind. rewrite Hmark.
      unfold Ball_handleSimpleCollision.
      change (Ascii.eqb chr_h chr_v) with false.
      change (Ascii.eqb chr_h chr_h) with true. cbv iota. unfold bind.
      rewrite (updateThis_eq _ _ _ _ _ Hb1). unfold ret. cbn [app].
      rewrite (hitBrick_eq _ _ _ _ _ _ _ _ Hb Hi). fold g1.
      unfold brickResponse, setVel. rewrite Hc.
      change (Ascii.eqb chr_h chr_v) with false.
      change (Ascii.eqb chr_h chr_h) with true. cbv iota.
      rewrite Z.sub_diag. reflexivity.
    + change (Ascii.eqb chr_c chr_n) with false. cbn [negb]. cbv iota.
      unfold bind. rewrite Hmark.
      unfold Ball_handleSimpleCollision.
      change (Ascii.eqb chr_c chr_v) with false.
      change (Ascii.eqb chr_c chr_h) with false.
      change (Ascii.eqb chr_c chr_c) with true. cbv iota. unfold ret at 1.
      cbv iota. rewrite (thisBall_eq _ _ _ _ Hb1).
      rewrite (updateThis_eq _ _ _ _ _ Hb1). unfold ret. cbn [app].
      rewrite (hitBrick_eq _ _ _ _ _ _ _ _ Hb Hi). fold g1.
      unfold brickResponse, setVel. rewrite Hc.
      change (Ascii.eqb chr_c chr_v) with false.
      change (Ascii.eqb chr_c chr_h) with false. cbv iota.
      rewrite Z.sub_diag. reflexivity.
    + change (Ascii.eqb chr_n chr_n) with true. cbn [negb]. cbv iota.
      unfold bind, ret at 1. unfold Ball_handleSimpleCollision.
      change (Ascii.eqb chr_n chr_v) with false.
      change (Ascii.eqb chr_n chr_h) with false.
      change (Ascii.eqb chr_n chr_c) with false. cbv iota. unfold ret at 1.
      cbv iota.
      rewrite (IH g self d b bounds (i + 1)%Z Hb)
        by (intros j Hj; apply Hbricks; lia).
      destruct (firstTouched g bounds (i + 1) n) as [[j r]|] eqn:Hft.
      * apply firstTouched_range in Hft.
        cbn [app]. do 2 f_equal.
        replace (Z.to_nat (j - i)) with (S (Z.to_nat (j - (i + 1)))) by lia.
        reflexivity.
      * reflexivity.
Qed.

Lemma brickResponse_speed (r : ascii * FloatRect) (b : Ball) :
  x (brickResponse r b) ^ 2 + y (brickResponse r b) ^ 2
  = x (Ball_vel_ b) ^ 2 + y (Ball_vel_ b) ^ 2.
Proof.
  unfold brickResponse.
  destruct (Ascii.eqb (fst r) chr_v); [cbn [x y]; ring|].
  destruct (Ascii.eqb (fst r) chr_h); [cbn [x y]; ring|].
  apply cornerResponse_speed.
Qed.

Lemma Ball_handleBrickCollisions_eq (g : GraphicsRunner) (self : nat)
  (d : bool) (b : Ball) (bounds : FloatRect) :
  objects_ g !! self = Some (mkObject d (ABall b)) ->
  bricksInRange g ->
  let first := indexOfFirstSafetyBrick_ g in
  let n := Z.to_nat (numSafetyBricks_ g + numBricks_ g) in
  Ball_handleBrickCollisions self bounds g
  = match firstTouched g bounds first n with
    | None => Some (false, g, queries first n)
    | Some (j, r) =>
        Some (true, hitBrick g self j r,
              queries first (S (Z.to_nat (j - first))))
    end.
Proof.
  intros Hb Hbricks first n.
  unfold Ball_handleBrickCollisions, bind, getGame. fold first.
  replace (Z.to_nat (first + numSafetyBricks_ g + numBricks_ g - first))
    with n by (unfold n; f_equal; lia).
  rewrite (brickLoop_firstTouched n g self d b bounds first Hb).
  - destruct (firstTouched g bounds first n) as [[j r]|]; reflexivity.
  - intros j Hj. apply Hbricks. unfold n in Hj. fold first. lia.
Qed.

(** X6: [Ball::handleBrickCollisions] in a game whose brick range holds
    bricks: the bricks are asked in the order of the vector, from the first
    safety brick; the first brick that does not answer ['n'] is the only
    object marked for deletion, the ball takes the response to its answer,
    and the bricks after it are not asked; when every brick answers ['n']
    the game is as it was and the result is [false]. *)
Theorem Ball_handleBrickCollisions_first (g : GraphicsRunner) (self : nat)
  (d : bool) (b : Ball) (bounds : FloatRect) :
  objects_ g !! self = Some (mkObject d (ABall b)) ->
  bricksInRange g ->
  let first := indexOfFirstSafetyBrick_ g in
  let n := Z.to_nat (numSafetyBricks_ g + numBricks_ g) in
  ((forall k o, (first <= k < first + Z.of_nat n)%Z ->
      objectAt g k = Some o -> fst (Object_collision o bounds) = chr_n)
   /\ Ball_handleBrickCollisions self bounds g
      = Some (false, g, queries first n))
  \/ (exists (j : Z) (dj : bool) (br : Brick),
        (first <= j < first + Z.of_nat n)%Z
        /\ objectAt g j = Some (mkObject dj (ABrick br))
        /\ fst (Brick_collision br bounds) <> chr_n
        /\ (forall k o, (first <= k < j)%Z -> objectAt g k = Some o ->
              fst (Object_collision o bounds) = chr_n)
        /\ Ball_handleBrickCollisions self bounds g
           = Some (true,
                   withObjects g
                     (<[self := mkObject d
                          (ABall (Ball_setVelocity b
                             (brickResponse (Brick_collision br bounds) b)))]>
                        (<[Z.to_nat j := mkObject true (ABrick br)]>
                           (objects_ g))),
                   queries first (S (Z.to_nat (j - first))))).
Proof.
  intros Hb Hbricks first n.
  pose proof (Ball_handleBrickCollisions_eq g self d b bounds Hb Hbricks)
    as Heq. cbv zeta in Heq. fold first n in Heq.
  assert (Hin : forall k, (first <= k < first + Z.of_nat n)%Z ->
                  exists dk br, objectAt g k = Some (mkObject dk (ABrick br))).
  { intros k Hk. apply Hbricks. unfold n in Hk. fold first. lia. }
  destruct (firstTouched g bounds first n) as [[j r]|] eqn:Hft.
  - right.
    pose proof (firstTouched_range _ _ _ _ _ _ Hft) as Hr.
    destruct (firstTouched_spec _ _ _ _ _ _ Hft) as ((o & Ho & ->) & Hne & Hbefore).
    destruct (Hin j Hr) as (dj & br & Hj).
    rewrite Hj in Ho. injection Ho as <-.
    exists j, dj, br. repeat split; try lia; auto.
    rewrite Heq. rewrite (hitBrick_eq _ _ _ _ _ _ _ _ Hb Hj). reflexivity.
  - left. split; [|exact Heq].
    apply firstTouched_none; [|exact Hft].
    intros k Hk. destruct (Hin k Hk) as (dk & br & Hk'). eauto.
Qed.

Lemma brickGame_bricksInRange : bricksInRange brickGame.
Proof.
  intros i Hi. cbn in Hi.
  assert (i = 2%Z) as -> by lia.
  exists false, brick_90_80. reflexivity.
Qed.

Lemma Ball_handleBrickCollisions_first_witness :
  exists r g' tr,
    Ball_handleBrickCollisions 3 (mkRect 95 95 10 10) brickGame
    = Some (r, g', tr).
Proof.
  destruct (Ball_handleBrickCollisions_first brickGame 3 false
              (Ball_new 100 100 1 (-2) 5) (mkRect 95 95 10 10) eq_refl
              brickGame_bricksInRange)
    as [[_ H] | (j & dj & br & _ & _ & _ & _ & H)]; eauto.
Defined.

(** ** The speed of a ball through the barrier and the bricks *)

Lemma Ball_handleSimpleCollision_speed (g : GraphicsRunner) (self : nat)
  (d : bool) (b : Ball) (c : ascii) :
  objects_ g !! self = Some (mkObject d (ABall b)) ->
  exists r g' b',
    Ball_handleSimpleCollision self c g = Some (r, g', [])
    /\ objects_ g' !! self = Some (mkObject d (ABall b'))
    /\ Rabs (x (Ball_vel_ b')) = Rabs (x (Ball_vel_ b))
    /\ Rabs (y (Ball_vel_ b')) = Rabs (y (Ball_vel_ b)).
Proof.
  intros Hb. unfold Ball_handleSimpleCollision.
  destruct (Ascii.eqb c chr_v).
  - unfold bind. rewrite (updateThis_eq _ _ _ _ _ Hb).
    eexists _, _, _. split; [reflexivity|].
    split; [apply (lookup_setBall _ _ _ _ _ Hb)|].
    cbn [setVel Ball_setVelocity Ball_vel_ x y]. split; [reflexivity|].
    replace (y (Ball_vel_ b) * -1) with (- y (Ball_vel_ b)) by ring.
    apply Rabs_Ropp.
  - destruct (Ascii.eqb c chr_h).
    + unfold bind. rewrite (updateThis_eq _ _ _ _ _ Hb).
      eexists _, _, _. split; [reflexivity|].
      split; [apply (lookup_setBall _ _ _ _ _ Hb)|].
      cbn [setVel Ball_setVelocity Ball_vel_ x y]. split; [|reflexivity].
      replace (x (Ball_vel_ b) * -1) with (- x (Ball_vel_ b)) by ring.
      apply Rabs_Ropp.
    + exists false, g, b. repeat split; auto.
Qed.

(** X7: The barrier and the bricks take no speed from a ball and give it
    none: [Ball::handleBarrierCollisions] leaves each component of the
    velocity with the magnitude it had, and [Ball::handleBrickCollisions]
    leaves the sum of the squares of the components as it was, corner
    responses included. *)
Theorem barrier_and_bricks_keep_speed (g : GraphicsRunner) (self : nat)
  (d : bool) (b : Ball) (bounds : FloatRect) :
  objects_ g !! self = Some (mkObject d (ABall b)) ->
  is_Some (objects_ g !! 1%nat) ->
  bricksInRange g ->
  (exists r g' tr b',
     Ball_handleBarrierCollisions self bounds g = Some (r, g', tr)
     /\ objects_ g' !! self = Some (mkObject d (ABall b'))
     /\ Rabs (x (Ball_vel_ b')) = Rabs (x (Ball_vel_ b))
     /\ Rabs (y (Ball_vel_ b')) = Rabs (y (Ball_vel_ b)))
  /\ (exists r g' tr b',
        Ball_handleBrickCollisions self bounds g = Some (r, g', tr)
        /\ objects_ g' !! self = Some (mkObject d (ABall b'))
        /\ x (Ball_vel_ b') ^ 2 + y (Ball_vel_ b') ^ 2
           = x (Ball_vel_ b) ^ 2 + y (Ball_vel_ b) ^ 2).
Proof.
  intros Hb [o Ho] Hbricks. split.
  - unfold Ball_handleBarrierCollisions, bind, callCollision.
    change (objectAt g 1) with (objects_ g !! 1%nat). rewrite Ho.
    destruct (Ball_handleSimpleCollision_speed g self d b
                (fst (Object_collision o bounds)) Hb)
      as (r & g' & b' & -> & Hb' & Hx & Hy).
    eexists _, _, _, b'. split; [reflexivity|]. auto.
  - rewrite (Ball_handleBrickCollisions_eq g self d b bounds Hb Hbricks).
    destruct (firstTouched _ _ _ _) as [[j r]|] eqn:Hft.
    + pose proof (firstTouched_range _ _ _ _ _ _ Hft) as Hr.
      destruct (Hbricks j) as (dj & br & Hj); [lia|].
      rewrite (hitBrick_eq _ _ _ _ _ _ _ _ Hb Hj).
      eexists _, _, _, _. split; [reflexivity|]. split.
      * apply lookup_setBall with (o := mkObject d (ABall b)).
        cbn [objects_ withObjects].
        rewrite list_lookup_insert_ne; [exact Hb|].
        intros <-. apply objectAt_Some in Hj. congruence.
      * cbn [Ball_setVelocity Ball_vel_]. apply brickResponse_speed.
    + eexists _, _, _, b. split; [reflexivity|]. auto.
Qed.

Lemma barrier_and_bricks_keep_speed_witness :
  exists r g' tr b',
    Ball_handleBrickCollisions 3 (mkRect 95 95 10 10) brickGame
    = Some (r, g', tr)
    /\ objects_ g' !! 3%nat = Some (mkObject false (ABall b'))
    /\ x (Ball_vel_ b') ^ 2 + y (Ball_vel_ b') ^ 2 = 1 ^ 2 + (-2) ^ 2.
Proof.
  exact (proj2 (barrier_and_bricks_keep_speed brickGame 3 false
                  (Ball_new 100 100 1 (-2) 5) (mkRect 95 95 10 10) eq_refl
                  (ex_intro _ _ eq_refl) brickGame_bricksInRange)).
Defined.

(** ** What a frame of a ball leaves alone *)

Lemma objFrame_refl (s : bool) (o : Object) : objFrame s o o.
Proof.
  split; [auto|]. destruct (entity o); auto. eexists; split; eauto.
Qed.

Lemma objFrame_trans (s : bool) (a b c : Object) :
  objFrame s a b -> objFrame s b c -> objFrame s a c.
Proof.
  intros [Hd1 He1] [Hd2 He2]. split; [auto|].
  destruct (entity a) as [p|ba|br|ball].
  - rewrite He1 in He2. exact He2.
  - rewrite He1 in He2. exact He2.
  - rewrite He1 in He2. exact He2.
  - destruct He1 as (b1 & E1 & K1). rewrite E1 in He2.
    destruct He2 as (b2 & E2 & K2). exists b2. split; [exact E2|].
    intros Hs. destruct (K1 Hs) as (? & ? & ?).
    destruct (K2 Hs) as (? & ? & ?). repeat split; congruence.
Qed.

Lemma frame_refl (self : nat) (g : GraphicsRunner) : frame self g g.
Proof.
  repeat split. intros i o Ho. exists o. split; [exact Ho|apply objFrame_refl].
Qed.

Lemma frame_trans (self : nat) (a b c : GraphicsRunner) :
  frame self a b -> frame self b c -> frame self a c.
Proof.
  intros (L1 & F1 & S1 & B1 & W1 & O1) (L2 & F2 & S2 & B2 & W2 & O2).
  split; [congruence|]. split; [congruence|]. split; [congruence|].
  split; [congruence|]. split; [congruence|].
  intros i o Ho. destruct (O1 i o Ho) as (o1 & Ho1 & K1).
  destruct (O2 i o1 Ho1) as (o2 & Ho2 & K2).
  exists o2. split; [exact Ho2|]. eapply objFrame_trans; eauto.
Qed.

Lemma frame_insert (self : nat) (g : GraphicsRunner) (i : nat) (o o' : Object) :
  objects_ g !! i = Some o -> objFrame (Nat.eqb i self) o o' ->
  frame self g (withObjects g (<[i := o']> (objects_ g))).
Proof.
  intros Ho Hf. split; [cbn; apply length_insert|].
  do 4 (split; [reflexivity|]).
  intros j oj Hj. cbn [objects_ withObjects].
  destruct (Nat.eq_dec j i) as [->|Hne].
  - exists o'. split.
    + apply list_lookup_insert_eq. eapply lookup_lt_Some; eauto.
    + rewrite Ho in Hj. injection Hj as <-. exact Hf.
  - exists oj. split.
    + rewrite list_lookup_insert_ne by auto. exact Hj.
    + apply objFrame_refl.
Qed.

Lemma keepsFrame_ret {A} (self : nat) (a : A) : keepsFrame self (ret a).
Proof. intros g a' g' tr H. injection H as _ <- _. apply frame_refl. Qed.

Lemma keepsFrame_bind {A B} (self : nat) (m : M A) (k : A -> M B) :
  keepsFrame self m -> (forall a, keepsFrame self (k a)) ->
  keepsFrame self (bind m k).
Proof.
  intros Hm Hk g b g' tr H. unfold bind in H.
  destruct (m g) as [[[a g1] t1]|] eqn:E1; [|discriminate].
  destruct (k a g1) as [[[b' g2] t2]|] eqn:E2; [|discriminate].
  injection H as _ <- _.
  eapply frame_trans; [eapply Hm; eauto | eapply Hk; eauto].
Qed.

Lemma keepsFrame_undefined {A} (self : nat) : keepsFrame self (@undefined A).
Proof. intros g a g' tr H. discriminate. Qed.

Lemma keepsFrame_emit (self : nat) (e : Event) : keepsFrame self (emit e).
Proof. intros g a g' tr H. injection H as _ <- _. apply frame_refl. Qed.

Lemma keepsFrame_getGame (self : nat) : keepsFrame self getGame.
Proof. intros g a g' tr H. injection H as _ <- _. apply frame_refl. Qed.

Lemma keepsFrame_thisBall (self i : nat) : keepsFrame self (thisBall i).
Proof.
  intros g a g' tr H. unfold thisBall in H.
  destruct (objects_ g !! i) as [[d [| | |b]]|]; try discriminate.
  injection H as _ <- _. apply frame_refl.
Qed.

Lemma keepsFrame_callCollision (self : nat) (i : Z) (box : FloatRect) :
  keepsFrame self (callCollision i box).
Proof.
  intros g a g' tr H. unfold callCollision in H.
  destruct (objectAt g i); [|discriminate].
  injection H as _ <- _. apply frame_refl.
Qed.

Lemma keepsFrame_updateThis (self : nat) (f : Ball -> Ball) :
  keepsFrame self (updateThis self f).
Proof.
  intros g a g' tr H. unfold updateThis in H.
  destruct (objects_ g !! self) as [[d [| | |b]]|] eqn:E; try discriminate.
  injection H as _ <- _. apply (frame_insert _ _ _ _ _ E).
  split; [auto|]. cbn [entity]. exists (f b). split; [reflexivity|].
  rewrite Nat.eqb_refl. discriminate.
Qed.

Lemma keepsFrame_deleteThis (self : nat) : keepsFrame self (deleteThis self).
Proof.
  intros g a g' tr H. unfold deleteThis in H.
  destruct (objects_ g !! self) as [[d [| | |b]]|] eqn:E; try discriminate.
  injection H as _ <- _. apply (frame_insert _ _ _ _ _ E).
  split; [auto|]. cbn [entity]. exists b. split; [reflexivity|]. auto.
Qed.

Lemma keepsFrame_markDeleted (self : nat) (i : Z) :
  keepsFrame self (markDeleted i).
Proof.
  intros g a g' tr H. unfold markDeleted in H.
  destruct (objectAt g i) as [o|] eqn:E; [|discriminate].
  injection H as _ <- _. apply objectAt_Some in E.
  apply (frame_insert _ _ _ _ _ E).
  split; [auto|]. cbn [entity]. destruct (entity o); auto.
  eexists; split; eauto.
Qed.

Lemma keepsFrame_setOtherVelocity (self : nat) (i : Z) (v : Vector2f) :
  keepsFrame self (setOtherVelocity i v).
Proof.
  intros g a g' tr H. unfold setOtherVelocity in H.
  destruct (objectAt g i) as [[d [| | |b]]|] eqn:E; try discriminate.
  injection H as _ <- _. apply objectAt_Some in E.
  apply (frame_insert _ _ _ _ _ E).
  split; [auto|]. cbn [entity]. eexists. split; [reflexivity|]. auto.
Qed.

Lemma keepsFrame_handleSimple (self : nat) (c : ascii) :
  keepsFrame self (Ball_handleSimpleCollision self c).
Proof.
  unfold Ball_handleSimpleCollision.
  destruct (Ascii.eqb c chr_v);
    [|destruct (Ascii.eqb c chr_h)];
    repeat first [ apply keepsFrame_bind; [|intro]
                 | apply keepsFrame_updateThis | apply keepsFrame_ret ].
Qed.

Lemma keepsFrame_brickLoop (self : nat) (bounds : FloatRect) (n : nat) :
  forall i, keepsFrame self (brickLoop self bounds i n).
Proof.
  induction n as [|n IH]; intros i; cbn [brickLoop].
  - apply keepsFrame_ret.
  - apply keepsFrame_bind; [apply keepsFrame_callCollision|]. intros r.
    cbv zeta. apply keepsFrame_bind.
    { destruct (negb _); [apply keepsFrame_markDeleted|apply keepsFrame_ret]. }
    intros _. apply keepsFrame_bind; [apply keepsFrame_handleSimple|].
    intros [|]; [apply keepsFrame_ret|].
    destruct (Ascii.eqb _ chr_c); [|apply IH].
    apply keepsFrame_bind; [apply keepsFrame_thisBall|]. intros this.
    apply keepsFrame_bind; [apply keepsFrame_updateThis|]. intros _.
    apply keepsFrame_ret.
Qed.

Lemma keepsFrame_ballLoop (self : nat) (bounds : FloatRect) (n : nat) :
  forall i, keepsFrame self (ballLoop self bounds i n).
Proof.
  induction n as [|n IH]; intros i; cbn [ballLoop].
  - apply keepsFrame_ret.
  - apply keepsFrame_bind; [apply keepsFrame_getGame|]. intros g.
    apply keepsFrame_bind; [apply keepsFrame_thisBall|]. intros this.
    destruct (objectAt g i) as [object|]; [|apply keepsFrame_undefined].
    cbv zeta.
    match goal with |- keepsFrame _ (if ?c then _ else _) => destruct c end;
      [apply IH|].
    apply keepsFrame_bind; [apply keepsFrame_callCollision|]. intros r.
    cbv zeta. destruct (Ascii.eqb _ chr_y); [|apply IH].
    apply keepsFrame_bind; [apply keepsFrame_updateThis|]. intros _.
    apply keepsFrame_bind; [apply keepsFrame_setOtherVelocity|]. intros _.
    apply keepsFrame_ret.
Qed.

Lemma keepsFrame_orElse (self : nat) (a b : M bool) :
  keepsFrame self a -> keepsFrame self b -> keepsFrame self (orElse a b).
Proof.
  intros Ha Hb. unfold orElse. apply keepsFrame_bind; [exact Ha|].
  intros [|]; [apply keepsFrame_ret|exact Hb].
Qed.

Lemma keepsFrame_collisionChain (self : nat) (bounds : FloatRect) :
  keepsFrame self (collisionChain self bounds).
Proof.
  unfold collisionChain. repeat apply keepsFrame_orElse.
  - unfold Ball_handleBarrierCollisions.
    apply keepsFrame_bind; [apply keepsFrame_callCollision|]. intros r.
    apply keepsFrame_handleSimple.
  - unfold Ball_handlePaddleCollisions.
    apply keepsFrame_bind; [apply keepsFrame_callCollision|]. intros r.
    cbv zeta. destruct (Ascii.eqb _ chr_v); [|destruct (Ascii.eqb _ chr_s)];
      repeat first [ apply keepsFrame_bind; [|intro]
                   | apply keepsFrame_updateThis | apply keepsFrame_thisBall
                   | apply keepsFrame_ret ].
  - unfold Ball_handleBrickCollisions.
    apply keepsFrame_bind; [apply keepsFrame_getGame|]. intros g.
    apply keepsFrame_brickLoop.
  - unfold Ball_handleBallCollisions.
    apply keepsFrame_bind; [apply keepsFrame_getGame|]. intros g.
    cbv zeta. destruct (_ <? 0)%Z; [apply keepsFrame_ret|].
    apply keepsFrame_ballLoop.
Qed.

Lemma keepsFrame_Ball_move (BALL_MAX_SPEED : R) (self : nat) :
  keepsFrame self (Ball_move BALL_MAX_SPEED self).
Proof.
  unfold Ball_move.
  apply keepsFrame_bind; [apply keepsFrame_thisBall|]. intros this.
  apply keepsFrame_bind; [apply keepsFrame_getGame|]. intros g.
  cbv zeta. destruct (Rgtb _ _); [apply keepsFrame_deleteThis|].
  apply keepsFrame_bind.
  - unfold Ball_move_collisions.
    apply keepsFrame_bind; [apply keepsFrame_thisBall|]. intros this'.
    apply keepsFrame_bind.
    { apply keepsFrame_orElse;
        [apply keepsFrame_ret|apply keepsFrame_collisionChain]. }
    intros [|]; [|apply keepsFrame_ret].
    apply keepsFrame_bind; [apply keepsFrame_thisBall|]. intros this''.
    destruct (negb _); [apply keepsFrame_updateThis|apply keepsFrame_ret].
  - intros _. unfold Ball_move_finish.
    apply keepsFrame_bind; [apply keepsFrame_updateThis|]. intros _.
    apply keepsFrame_bind; [apply keepsFrame_emit|]. intros _.
    apply keepsFrame_bind; [apply keepsFrame_thisBall|]. intros this'.
    apply keepsFrame_bind.
    { destruct (Ball_attachedPos_ this') as [p|]; [|apply keepsFrame_ret].
      apply keepsFrame_bind; [apply keepsFrame_getGame|]. intros g'.
      destruct (deref g' p);
        [apply keepsFrame_updateThis|apply keepsFrame_undefined]. }
    intros _.
    apply keepsFrame_bind; [apply keepsFrame_updateThis|]. intros _.
    apply keepsFrame_updateThis.
Qed.

(** X8: A frame of a ball, whatever it meets, leaves the game in shape:
    [Ball::move] returns, the vector has the objects it had in the places
    they had, the counters and the window size are as before, no deletion
    flag is cleared, the paddle, the barrier and every brick are as they
    were but for the flag, and another ball keeps its position, its
    attachment and its parity, so that at most its velocity has changed. *)
Theorem Ball_move_frame (BALL_MAX_SPEED : R) (g : GraphicsRunner)
  (self : nat) (b : Ball) :
  layoutOk g ->
  ballAt g self = Some b ->
  exists g' tr,
    Ball_move BALL_MAX_SPEED self g = Some (tt, g', tr)
    /\ frame self g g'.
Proof.
  intros Hl Hb.
  assert (Hret : exists g' tr,
             Ball_move BALL_MAX_SPEED self g = Some (tt, g', tr)).
  { destruct (Rgt_dec (top (circleGlobalBounds (Ball_circle_ b)))
                (IZR (Z.of_N (y (windowSize_ g))))) as [Hout | Hin].
    - apply ballAt_Some in Hb. destruct Hb as [d Hb].
      rewrite (Ball_move_left_field BALL_MAX_SPEED g self d b Hb Hout). eauto.
    - destruct (Ball_move_in_field BALL_MAX_SPEED g self b Hl Hb Hin)
        as (g1 & checks & d1 & b1 & _ & _ & _ & _ & _ & _ & _ & _ & ->).
      eauto. }
  destruct Hret as (g' & tr & Hmove). exists g', tr. split; [exact Hmove|].
  apply (keepsFrame_Ball_move BALL_MAX_SPEED self g tt g' tr Hmove).
Qed.

Lemma Ball_move_frame_witness :
  exists g' tr,
    Ball_move 10 2 (game800 [midBall 0 3]) = Some (tt, g', tr)
    /\ frame 2 (game800 [midBall 0 3]) g'.
Proof.
  exact (Ball_move_frame 10 (game800 [midBall 0 3]) 2 (midBall 0 3)
           (game800_layoutOk [midBall 0 3]) eq_refl).
Defined.

(** ** How far a free ball goes in a frame *)

Lemma Ball_move_collisions_free (g : GraphicsRunner) (self : nat) (d : bool)
  (b : Ball) (bounds : FloatRect) (r : bool) (g1 : GraphicsRunner)
  (tr : list Event) (d1 : bool) (b1 : Ball) :
  objects_ g !! self = Some (mkObject d (ABall b)) ->
  Ball_attachedPos_ b = None ->
  collisionChain self bounds g = Some (r, g1, tr) ->
  objects_ g1 !! self = Some (mkObject d1 (ABall b1)) ->
  Ball_attachedPos_ b1 = None ->
  Ball_move_collisions self bounds g
  = Some (tt,
          (if r then
             setBall g1 self d1
               (setCircle (circleMove (Ball_circle_ b1)
                             (x (Ball_vel_ b1) * 0.5) (y (Ball_vel_ b1) * 0.5))
                          b1)
           else g1),
          tr).
Proof.
  intros Hd Hfree Hchain Hd1 Hfree1.
  unfold Ball_move_collisions. unfold bind at 1.
  rewrite (thisBall_eq _ _ _ _ Hd).
  unfold Ball_isAttached at 1. rewrite Hfree.
  unfold orElse at 1. unfold bind at 2. unfold ret at 1. cbv iota beta.
  unfold bind. rewrite Hchain. cbn [app].
  destruct r.
  - rewrite (thisBall_eq _ _ _ _ Hd1). unfold Ball_isAttached.
    rewrite Hfree1. cbn [negb]. rewrite (updateThis_eq _ _ _ _ _ Hd1).
    cbn [app]. rewrite app_nil_r. reflexivity.
  - unfold ret. rewrite app_nil_r. reflexivity.
Qed.

(** X9: The way of a free ball in one frame.  With [v] the velocity the
    collision handlers leave, a frame in which no handler reports a
    collision moves the ball by the clamped [v]; a frame in which one does
    moves it by half of [v] first and then by the clamped [v], one and a
    half steps along the new direction when the clamp does not cut in.  The
    velocity the frame ends with is the clamped [v]. *)
Theorem Ball_move_displacement (BALL_MAX_SPEED : R) (g : GraphicsRunner)
  (self : nat) (b : Ball) :
  layoutOk g ->
  ballAt g self = Some b ->
  Ball_attachedPos_ b = None ->
  ~ top (circleGlobalBounds (Ball_circle_ b)) > IZR (Z.of_N (y (windowSize_ g))) ->
  exists (r : bool) (g1 : GraphicsRunner) (tr : list Event) (b1 : Ball)
         (g' : GraphicsRunner) (b' : Ball),
    collisionChain self (circleGlobalBounds (Ball_circle_ b)) g
      = Some (r, g1, tr)
    /\ ballAt g1 self = Some b1
    /\ Ball_move BALL_MAX_SPEED self g = Some (tt, g', tr ++ [EvParityFlip])
    /\ ballAt g' self = Some b'
    /\ Ball_vel_ b' = clampSpeed BALL_MAX_SPEED (Ball_vel_ b1)
    /\ x (circlePosition (Ball_circle_ b'))
       = x (circlePosition (Ball_circle_ b))
         + (if r then x (Ball_vel_ b1) * 0.5 else 0)
         + x (clampSpeed BALL_MAX_SPEED (Ball_vel_ b1))
    /\ y (circlePosition (Ball_circle_ b'))
       = y (circlePosition (Ball_circle_ b))
         + (if r then y (Ball_vel_ b1) * 0.5 else 0)
         + y (clampSpeed BALL_MAX_SPEED (Ball_vel_ b1)).
Proof.
  intros Hl Hb Hfree Hin.
  pose proof Hb as Hb'. apply ballAt_Some in Hb' as [d Hd].
  set (bounds := circleGlobalBounds (Ball_circle_ b)).
  destruct (collision_chain_ok g self b bounds Hl Hb)
    as (r & gc & tr & Hchain & Hst & _ & _).
  destruct (stable_ball _ _ _ _ _ Hst Hd) as (dc & bc & Hdc & Hc & Ha & _).
  assert (Hfreec : Ball_attachedPos_ bc = None) by congruence.
  pose proof (Ball_move_collisions_free g self d b bounds r gc tr dc bc
                Hd Hfree Hchain Hdc Hfreec) as Ecoll.
  destruct (Ball_move_in_field BALL_MAX_SPEED g self b Hl Hb Hin)
    as (g1 & checks & d1 & b1 & E & _ & Hd1 & _ & _ & _ & _ & _ & Emove).
  fold bounds in E. rewrite Ecoll in E. injection E as <- <-.
  assert (Hanc : anchorOf g b = None) by (unfold anchorOf; rewrite Hfree; reflexivity).
  rewrite Hanc in Emove.
  exists r, gc, tr, bc. eexists _, _.
  split; [exact Hchain|].
  split; [apply ballAt_Some; eauto|].
  split; [exact Emove|].
  split; [apply (ballAt_setBall _ _ _ _ _ Hd1)|].
  destruct r.
  - rewrite (lookup_setBall _ _ _ _ _ Hdc) in Hd1. injection Hd1 as <- <-.
    unfold finishBall, circlePosition, circleMove, moveBy, setCircle, setVel,
      flipCollisionState.
    cbn [Ball_vel_ Ball_circle_ Ball_setVelocity c_transformable m_position
         x y].
    rewrite Hc. split; [reflexivity|]. split; ring.
  - rewrite Hdc in Hd1. injection Hd1 as <- <-.
    unfold finishBall, circlePosition, circleMove, moveBy, setCircle, setVel,
      flipCollisionState.
    cbn [Ball_vel_ Ball_circle_ Ball_setVelocity c_transformable m_position
         x y].
    rewrite Hc. split; [reflexivity|]. split; ring.
Qed.

Lemma Ball_move_displacement_witness :
  exists (r : bool) (g1 : GraphicsRunner) (tr : list Event) (b1 : Ball)
         (g' : GraphicsRunner) (b' : Ball),
    collisionChain 2 (circleGlobalBounds (Ball_circle_ (midBall 0 3)))
      (game800 [midBall 0 3]) = Some (r, g1, tr)
    /\ ballAt g1 2 = Some b1
    /\ Ball_move 10 2 (game800 [midBall 0 3])
       = Some (tt, g', tr ++ [EvParityFlip])
    /\ ballAt g' 2 = Some b'
    /\ Ball_vel_ b' = clampSpeed 10 (Ball_vel_ b1)
    /\ x (circlePosition (Ball_circle_ b'))
       = x (circlePosition (Ball_circle_ (midBall 0 3)))
         + (if r then x (Ball_vel_ b1) * 0.5 else 0)
         + x (clampSpeed 10 (Ball_vel_ b1))
    /\ y (circlePosition (Ball_circle_ b'))
       = y (circlePosition (Ball_circle_ (midBall 0 3)))
         + (if r then y (Ball_vel_ b1) * 0.5 else 0)
         + y (clampSpeed 10 (Ball_vel_ b1)).
Proof.
  exact (Ball_move_displacement 10 (game800 [midBall 0 3]) 2 (midBall 0 3)
           (game800_layoutOk [midBall 0 3]) eq_refl eq_refl (midBall_in 0 3)).
Defined.

(** ** Ball against ball, seen from both sides *)

Lemma distance_sym (ax ay bx by_ : R) :
  distance ax ay bx by_ = distance bx by_ ax ay.
Proof. unfold distance. f_equal. ring. Qed.

(** X10: Two free balls of the same radius agree on whether they touch:
    the answer of the first to the bounds of the second is ['y'] exactly
    when the answer of the second to the bounds of the first is, and each
    then reports its own centre and velocity. *)
Theorem Ball_collision_symmetric (px py vx vy qx qy wx wy r : R) :
  0 <= r ->
  let a := Ball_new px py vx vy r in
  let b := Ball_new qx qy wx wy r in
  fst (Ball_collision a (circleGlobalBounds (Ball_circle_ b)))
  = fst (Ball_collision b (circleGlobalBounds (Ball_circle_ a)))
  /\ (fst (Ball_collision a (circleGlobalBounds (Ball_circle_ b))) = chr_y ->
      snd (Ball_collision a (circleGlobalBounds (Ball_circle_ b)))
      = mkRect px py vx vy
      /\ snd (Ball_collision b (circleGlobalBounds (Ball_circle_ a)))
         = mkRect qx qy wx wy).
Proof.
  intros Hr a b. unfold a, b. rewrite !Ball_new_bounds by exact Hr.
  unfold Ball_collision, Ball_new, circlePosition.
  cbn [Ball_isAttached Ball_attachedPos_ Ball_circle_ Ball_vel_ c_transformable
       m_position m_radius left top width height x y].
  replace (qx - r + 2 * r / 2) with qx by field.
  replace (qy - r + 2 * r / 2) with qy by field.
  replace (px - r + 2 * r / 2) with px by field.
  replace (py - r + 2 * r / 2) with py by field.
  rewrite (distance_sym qx qy px py).
  destruct (Rltb (distance px py qx qy) (2 * r / 2 + r)
            && Rgtb (distance px py qx qy) (r / 4)); cbn [fst snd].
  - split; [reflexivity|]. intros _. split; reflexivity.
  - split; [reflexivity|]. intros H. discriminate.
Qed.

Lemma Ball_collision_symmetric_witness :
  fst (Ball_collision ballA (circleGlobalBounds (Ball_circle_ ballB)))
  = fst (Ball_collision ballB (circleGlobalBounds (Ball_circle_ ballA))).
Proof.
  assert (H : 0 <= 5) by lra.
  exact (proj1 (Ball_collision_symmetric 100 100 0 (-2) 100 108 0 3 5 H)).
Defined.

(** ** What the answers of a brick mean *)

Lemma Rleb_le (a b : R) : Rleb a b = true <-> a <= b.
Proof.
  unfold Rleb. destruct (Rle_dec a b); split; intros; auto; discriminate.
Qed.

Lemma contains_inside (l t w h px py : R) :
  0 <= w -> 0 <= h ->
  contains (mkRect l t w h) px py = true ->
  l <= px < l + w /\ t <= py < t + h.
Proof.
  intros Hw Hh. unfold contains. cbn [left top width height].
  rewrite (Rmin_left l (l + w)) by lra.
  rewrite (Rmax_right l (l + w)) by lra.
  rewrite (Rmin_left t (t + h)) by lra.
  rewrite (Rmax_right t (t + h)) by lra.
  unfold Rgeb. rewrite !andb_true_iff, !Rleb_le, !Rltb_lt. lra.
Qed.

(** X11: What the answers of a brick that is not rotated mean: ['v'] only
    when the centre of the box is within the horizontal extent of the brick
    and the top or the bottom edge of the box within its vertical extent;
    ['h'] only when the centre is within the vertical extent and the left or
    the right edge within the horizontal extent; ['c'] only when a corner
    of the brick, the one written into the box, is nearer to the centre
    than the radius; and any answer but ['n'] needs the box to overlap the
    brick. *)
Theorem Brick_collision_sound (bx by_ bw bh : R) (special : ascii)
  (boundingBox : FloatRect) :
  0 <= bw -> 0 <= bh ->
  let this := Brick_new bx by_ bw bh special in
  let cx := left boundingBox + width boundingBox / 2 in
  let cy := top boundingBox + height boundingBox / 2 in
  let r := Brick_collision this boundingBox in
  (fst r = chr_v ->
   bx <= cx < bx + bw
   /\ (by_ <= top boundingBox < by_ + bh
       \/ by_ <= top boundingBox + height boundingBox < by_ + bh)
   /\ snd r = boundingBox)
  /\ (fst r = chr_h ->
      by_ <= cy < by_ + bh
      /\ (bx <= left boundingBox < bx + bw
          \/ bx <= left boundingBox + width boundingBox < bx + bw)
      /\ snd r = boundingBox)
  /\ (fst r = chr_c ->
      exists px py,
        In (px, py) (corners (mkRect bx by_ bw bh))
        /\ distance cx cy px py < width boundingBox / 2
        /\ snd r = mkRect px py (width boundingBox) (height boundingBox))
  /\ (fst r <> chr_n ->
      intersects (mkRect bx by_ bw bh) boundingBox = true).
Proof.
  intros Hw Hh this cx cy r. unfold r, this, Brick_collision, Brick_new.
  cbn [Brick_rectangle_]. rewrite rectangleAt_bounds by assumption.
  cbv zeta. cbn [left top width height x y]. fold cx cy.
  destruct (intersects (mkRect bx by_ bw bh) boundingBox).
  2:{ cbn [fst snd]. do 3 (split; [intros Hans; discriminate|]).
      intros Hans. exfalso. apply Hans. reflexivity. }
  destruct (contains (mkRect bx by_ bw bh) cx (top boundingBox)
            || contains (mkRect bx by_ bw bh) cx
                 (top boundingBox + height boundingBox)) eqn:Ev.
  { cbn [fst snd]. split; [intros _|].
    - apply orb_true_iff in Ev as [Ev | Ev];
        apply (contains_inside _ _ _ _ _ _ Hw Hh) in Ev; repeat split; lra.
    - split; [intros Hans; discriminate|].
      split; [intros Hans; discriminate|]. reflexivity. }
  destruct (contains (mkRect bx by_ bw bh) (left boundingBox) cy
            || contains (mkRect bx by_ bw bh)
                 (left boundingBox + width boundingBox) cy) eqn:Eh.
  { cbn [fst snd]. split; [intros Hans; discriminate|]. split; [intros _|].
    - apply orb_true_iff in Eh as [Eh | Eh];
        apply (contains_inside _ _ _ _ _ _ Hw Hh) in Eh; repeat split; lra.
    - split; [intros Hans; discriminate|]. reflexivity. }
  unfold corners. cbn [left top width height].
  repeat match goal with
         | |- context [if ?c then _ else _] => destruct c eqn:?
         end;
    cbn [fst snd];
    (split; [intros Hans; discriminate|]);
    (split; [intros Hans; discriminate|]);
    (split; [intros Hans|intros _; reflexivity]);
    try discriminate;
    match goal with
    | Hd : Rltb (distance cx cy ?px ?py) _ = true |- _ =>
        exists px, py; split; [cbn [In]; tauto|];
        split; [apply Rltb_lt; exact Hd|reflexivity]
    end.
Qed.

Lemma brick_90_80_below :
  fst (Brick_collision brick_90_80 (mkRect 95 95 10 10)) = chr_v.
Proof.
  unfold Brick_collision. rewrite brick_90_80_bounds. cbv zeta.
  Rgeometry. reflexivity.
Qed.

Lemma Brick_collision_sound_witness :
  90 <= 95 + 10 / 2 < 90 + 40
  /\ snd (Brick_collision brick_90_80 (mkRect 95 95 10 10))
     = mkRect 95 95 10 10.
Proof.
  assert (Hw : 0 <= 40) by lra. assert (Hh : 0 <= 20) by lra.
  destruct (proj1 (Brick_collision_sound 90 80 40 20 "000"%char
                     (mkRect 95 95 10 10) Hw Hh) brick_90_80_below)
    as (Hx & _ & Hbox).
  split; [exact Hx|exact Hbox].
Defined.

(** ** The inside of the barrier *)

Lemma intersects_iff (l1 t1 w1 h1 l2 t2 w2 h2 : R) :
  0 <= w1 -> 0 <= h1 -> 0 <= w2 -> 0 <= h2 ->
  intersects (mkRect l1 t1 w1 h1) (mkRect l2 t2 w2 h2) = true
  <-> (0 < w1 /\ 0 < w2 /\ l1 < l2 + w2 /\ l2 < l1 + w1)
      /\ (0 < h1 /\ 0 < h2 /\ t1 < t2 + h2 /\ t2 < t1 + h1).
Proof.
  intros Hw1 Hh1 Hw2 Hh2. unfold intersects.
  cbn [left top width height].
  rewrite (Rmin_left l1 (l1 + w1)) by lra.
  rewrite (Rmax_right l1 (l1 + w1)) by lra.
  rewrite (Rmin_left t1 (t1 + h1)) by lra.
  rewrite (Rmax_right t1 (t1 + h1)) by lra.
  rewrite (Rmin_left l2 (l2 + w2)) by lra.
  rewrite (Rmax_right l2 (l2 + w2)) by lra.
  rewrite (Rmin_left t2 (t2 + h2)) by lra.
  rewrite (Rmax_right t2 (t2 + h2)) by lra.
  rewrite andb_true_iff, !Rltb_lt.
  unfold Rmax, Rmin. repeat destruct (Rle_dec _ _); lra.
Qed.

Lemma intersects_apart (l1 t1 w1 h1 l2 t2 w2 h2 : R) :
  0 <= w1 -> 0 <= h1 -> 0 <= w2 -> 0 <= h2 ->
  l2 + w2 <= l1 \/ l1 + w1 <= l2 \/ t2 + h2 <= t1 \/ t1 + h1 <= t2 ->
  intersects (mkRect l1 t1 w1 h1) (mkRect l2 t2 w2 h2) = false.
Proof.
  intros Hw1 Hh1 Hw2 Hh2 H.
  destruct (intersects _ _) eqn:E; [|reflexivity].
  apply intersects_iff in E; try assumption. lra.
Qed.

Lemma intersects_overlap (l1 t1 w1 h1 l2 t2 w2 h2 : R) :
  0 < w1 -> 0 < h1 -> 0 < w2 -> 0 < h2 ->
  l1 < l2 + w2 -> l2 < l1 + w1 -> t1 < t2 + h2 -> t2 < t1 + h1 ->
  intersects (mkRect l1 t1 w1 h1) (mkRect l2 t2 w2 h2) = true.
Proof. intros. apply intersects_iff; lra. Qed.

(** X12: The barrier the constructor builds, for a box of positive size.
    A box that lies right of the left wall, left of the right wall and
    below the top wall is answered ['n'], and so is every box below the
    bottom edge of the window, where the frame is open (the walls being no
    thicker than the side walls are high); a box that overlaps the left or
    the right wall is answered ['h'], also in the top corners; a box between
    the side walls that overlaps the top wall is answered ['v']. *)
Theorem Barrier_new_field (BANNER_HEIGHT windowWidth windowHeight width_ buffer : R)
  (box : FloatRect) :
  0 < width_ ->
  width_ <= windowHeight - buffer - BANNER_HEIGHT ->
  0 < windowWidth - 2 * buffer - width_ ->
  0 < width box -> 0 < height box ->
  let this := Barrier_new BANNER_HEIGHT windowWidth windowHeight width_ buffer in
  let rightOfLeftWall := buffer + width_ <= left box in
  let leftOfRightWall := left box + width box <= windowWidth - buffer - width_ in
  let overlapsWallsInY :=
    buffer + BANNER_HEIGHT < top box + height box /\ top box < windowHeight in
  (rightOfLeftWall -> leftOfRightWall ->
   buffer + BANNER_HEIGHT + width_ <= top box ->
   Barrier_collision this box = (chr_n, box))
  /\ (windowHeight <= top box -> Barrier_collision this box = (chr_n, box))
  /\ (left box < buffer + width_ -> buffer < left box + width box ->
      overlapsWallsInY -> Barrier_collision this box = (chr_h, box))
  /\ (windowWidth - buffer - width_ < left box + width box ->
      left box < windowWidth - buffer ->
      overlapsWallsInY -> Barrier_collision this box = (chr_h, box))
  /\ (rightOfLeftWall -> leftOfRightWall ->
      top box < buffer + BANNER_HEIGHT + width_ ->
      buffer + BANNER_HEIGHT < top box + height box ->
      Barrier_collision this box = (chr_v, box)).
Proof.
  intros Hw Hhh Hww Hbw Hbh this rightOfLeftWall leftOfRightWall overlapsWallsInY.
  unfold this, rightOfLeftWall, leftOfRightWall, overlapsWallsInY,
    Barrier_collision, Barrier_new.
  cbn [Barrier_left_ Barrier_top_ Barrier_right_].
  rewrite !rectangleAt_bounds by lra.
  destruct box as [bl bt bw bh]. cbn [left top width height] in *.
  split; [|split; [|split; [|split]]]; intros.
  - rewrite !intersects_apart by lra. reflexivity.
  - rewrite !intersects_apart by lra. reflexivity.
  - rewrite (intersects_overlap buffer) by lra. reflexivity.
  - rewrite (intersects_overlap (windowWidth - buffer - width_)) by lra.
    rewrite orb_true_r. reflexivity.
  - rewrite (intersects_apart _ _ width_) by lra.
    rewrite (intersects_apart _ _ width_) by lra.
    rewrite intersects_overlap by lra. reflexivity.
Qed.

Lemma Barrier_new_field_witness :
  Barrier_collision barrier800 midBounds = (chr_n, midBounds).
Proof.
  assert (H1 : 0 < 10) by lra.
  assert (H2 : 10 <= 600 - 5 - 40) by lra.
  assert (H3 : 0 < 800 - 2 * 5 - 10) by lra.
  assert (H4 : 0 < width midBounds) by (cbn; lra).
  assert (H5 : 0 < height midBounds) by (cbn; lra).
  refine (proj1 (Barrier_new_field 40 800 600 10 5 midBounds H1 H2 H3 H4 H5)
            _ _ _); cbn; lra.
Defined.

(** ** Releasing a ball *)

Lemma Zrem_10_range (rnd : Z) :
  (0 <= rnd)%Z -> (0 <= Z.rem rnd 10 <= 9)%Z.
Proof.
  intros H. pose proof (Z.rem_bound_pos rnd 10 H ltac:(lia)). lia.
Qed.

(** X13: [Ball::detach] with any value of [rand()]: the ball is free
    afterwards, it falls with three quarters of the speed ceiling, its
    sideways velocity is one of the ten values -0.25, -0.2, ..., 0.2, it
    has been moved back by the velocity it had stored sideways and by the
    new fall, and its parity is as it was.  The function does not look at
    the attachment: a free ball is treated the same. *)
Theorem Ball_detach_spec (BALL_MAX_SPEED : R) (rnd : Z) (this : Ball) :
  (0 <= rnd)%Z ->
  let b := Ball_detach BALL_MAX_SPEED rnd this in
  Ball_isAttached b = false
  /\ y (Ball_vel_ b) = BALL_MAX_SPEED * 0.75
  /\ (exists k : Z, (0 <= k <= 9)%Z /\ x (Ball_vel_ b) = (IZR k - 5) / 20)
  /\ -0.25 <= x (Ball_vel_ b) <= 0.2
  /\ circlePosition (Ball_circle_ b)
     = mkVector2 (x (circlePosition (Ball_circle_ this)) - x (Ball_vel_ this))
                 (y (circlePosition (Ball_circle_ this))
                  - BALL_MAX_SPEED * 0.75)
  /\ m_radius (Ball_circle_ b) = m_radius (Ball_circle_ this)
  /\ Ball_collisionState_ b = Ball_collisionState_ this.
Proof.
  intros Hr b. pose proof (Zrem_10_range rnd Hr) as Hk.
  unfold b, Ball_detach. cbv zeta.
  cbn [Ball_isAttached Ball_attachedPos_ Ball_vel_ Ball_circle_
       Ball_collisionState_ x y].
  split; [reflexivity|]. split; [reflexivity|].
  split.
  { exists (Z.rem rnd 10). split; [exact Hk|]. rewrite minus_IZR. lra. }
  split.
  { rewrite minus_IZR.
    assert (0 <= IZR (Z.rem rnd 10) <= 9) by (split; apply IZR_le; lia).
    lra. }
  split; [|split; reflexivity].
  unfold circlePosition, circleMove, moveBy.
  cbn [c_transformable m_position x y]. f_equal; ring.
Qed.

Lemma Ball_detach_spec_witness :
  Ball_isAttached (Ball_detach 10 7 (Ball_newAttached 5)) = false
  /\ y (Ball_vel_ (Ball_detach 10 7 (Ball_newAttached 5))) = 10 * 0.75.
Proof.
  assert (H : (0 <= 7)%Z) by lia.
  pose proof (Ball_detach_spec 10 7 (Ball_newAttached 5) H) as (H1 & H2 & _).
  split; [exact H1|exact H2].
Defined.

Lemma releaseLoop_spec (BALL_MAX_SPEED : R) (rnd : Z) (objects : list Object)
  (n : nat) :
  forall i : nat,
  (i + n = length objects)%nat ->
  (forall j o, (i <= j)%nat -> objects !! j = Some o ->
     exists b, entity o = ABall b) ->
  ((forall j b d, (i <= j)%nat -> objects !! j = Some (mkObject d (ABall b)) ->
      Ball_isAttached b = false)
   /\ releaseLoop BALL_MAX_SPEED rnd i n objects = Some objects)
  \/ (exists (j : nat) (d : bool) (b : Ball),
        (i <= j)%nat
        /\ objects !! j = Some (mkObject d (ABall b))
        /\ Ball_isAttached b = true
        /\ (forall k b' d', (i <= k < j)%nat ->
              objects !! k = Some (mkObject d' (ABall b')) ->
              Ball_isAttached b' = false)
        /\ releaseLoop BALL_MAX_SPEED rnd i n objects
           = Some (<[j := mkObject d (ABall (Ball_detach BALL_MAX_SPEED rnd b))]>
                     objects)).
Proof.
  induction n as [|n IH]; intros i Hlen Hballs.
  - left. split; [|reflexivity].
    intros j b d Hj Hlook. apply lookup_lt_Some in Hlook. lia.
  - cbn [releaseLoop].
    destruct (objects !! i) as [[d e]|] eqn:Hi.
    2:{ apply lookup_ge_None in Hi. lia. }
    destruct (Hballs i _ (Nat.le_refl i) Hi) as [b Hb]. cbn [entity] in Hb.
    subst e. destruct (Ball_isAttached b) eqn:Hatt.
    + right. exists i, d, b. repeat split; auto. intros k b' d' Hk. lia.
    + destruct (IH (S i)) as [[Hfree Hres] | (j & dj & bj & Hj & Hlook & Hattj & Hbefore & Hres)].
      * lia.
      * intros j o Hj. apply Hballs. lia.
      * left. split; [|exact Hres].
        intros j b' d' Hj Hlook.
        destruct (Nat.eq_dec j i) as [->|Hne].
        -- rewrite Hi in Hlook. injection Hlook as _ <-. exact Hatt.
        -- apply (Hfree j b' d'); [lia|exact Hlook].
      * right. exists j, dj, bj. split; [lia|]. split; [exact Hlook|].
        split; [exact Hattj|]. split; [|exact Hres].
        intros k b' d' Hk Hlook'.
        destruct (Nat.eq_dec k i) as [->|Hne].
        -- rewrite Hi in Hlook'. injection Hlook' as _ <-. exact Hatt.
        -- apply (Hbefore k b' d'); [lia|exact Hlook'].
Qed.

(** X14: [GraphicsRunner::releaseBall] in a game whose objects after the
    bricks are balls.  While the game is paused or over nothing changes.
    In a running game the first attached ball, in the order of the vector,
    is detached and every other object is as it was, so that one call
    releases at most one ball; without an attached ball the game is as it
    was. *)
Theorem GraphicsRunner_releaseBall_first (BALL_MAX_SPEED : R) (rnd : Z)
  (status_ : ascii) (g : GraphicsRunner) :
  ballsAfterBricks g ->
  let start := Z.to_nat (indexOfFirstSafetyBrick_ g + numSafetyBricks_ g
                         + numBricks_ g) in
  (status_ <> Ascii.zero ->
   GraphicsRunner_releaseBall BALL_MAX_SPEED rnd status_ g = Some g)
  /\ (status_ = Ascii.zero ->
      ((forall j b d, (start <= j)%nat ->
          objects_ g !! j = Some (mkObject d (ABall b)) ->
          Ball_isAttached b = false)
       /\ GraphicsRunner_releaseBall BALL_MAX_SPEED rnd status_ g = Some g)
      \/ (exists (j : nat) (d : bool) (b : Ball),
            (start <= j)%nat
            /\ objects_ g !! j = Some (mkObject d (ABall b))
            /\ Ball_isAttached b = true
            /\ (forall k b' d', (start <= k < j)%nat ->
                  objects_ g !! k = Some (mkObject d' (ABall b')) ->
                  Ball_isAttached b' = false)
            /\ GraphicsRunner_releaseBall BALL_MAX_SPEED rnd status_ g
               = Some (setBall g j d (Ball_detach BALL_MAX_SPEED rnd b)))).
Proof.
  intros [Hpos Hballs] start. split.
  - intros Hs. unfold GraphicsRunner_releaseBall.
    apply Ascii.eqb_neq in Hs. rewrite Hs. reflexivity.
  - intros ->. unfold GraphicsRunner_releaseBall.
    change (Ascii.eqb zero zero) with true. cbn [negb]. cbv zeta.
    rewrite (proj2 (Z.ltb_ge _ _) Hpos). fold start.
    destruct (Nat.le_gt_cases start (length (objects_ g))) as [Hle | Hgt].
    + destruct (releaseLoop_spec BALL_MAX_SPEED rnd (objects_ g)
                  (length (objects_ g) - start) start ltac:(lia) Hballs)
        as [[Hfree ->] | (j & d & b & Hj & Hlook & Hatt & Hbefore & ->)].
      * left. split; [exact Hfree|]. rewrite withObjects_same. reflexivity.
      * right. exists j, d, b. repeat split; auto.
    + left. replace (length (objects_ g) - start)%nat with 0%nat by lia.
      cbn [releaseLoop]. rewrite withObjects_same. split; [|reflexivity].
      intros j b d Hj Hlook. apply lookup_lt_Some in Hlook. lia.
Qed.

Lemma lookup_map_ball (balls : list Ball) :
  forall (i : nat) (o : Object),
  map (fun b => mkObject false (ABall b)) balls !! i = Some o ->
  exists b, entity o = ABall b.
Proof.
  induction balls as [|b balls IH]; intros [|i] o H; cbn in H;
    try discriminate.
  - injection H as <-. eauto.
  - eauto.
Qed.

Lemma game800_ballsAfterBricks (balls : list Ball) :
  ballsAfterBricks (game800 balls).
Proof.
  split; [cbn; lia|]. intros i o Hi Hlook. cbn in Hi.
  destruct i as [|[|i]]; [lia|lia|].
  apply (lookup_map_ball balls i o). exact Hlook.
Qed.

Lemma GraphicsRunner_releaseBall_first_witness :
  GraphicsRunner_releaseBall 10 7 "p"%char (game800 [Ball_newAttached 5])
  = Some (game800 [Ball_newAttached 5])
  /\ exists g',
       GraphicsRunner_releaseBall 10 7 Ascii.zero (game800 [Ball_newAttached 5])
       = Some g'.
Proof.
  pose proof (GraphicsRunner_releaseBall_first 10 7 "p"%char
                (game800 [Ball_newAttached 5])
                (game800_ballsAfterBricks [Ball_newAttached 5])) as [Hp _].
  pose proof (GraphicsRunner_releaseBall_first 10 7 Ascii.zero
                (game800 [Ball_newAttached 5])
                (game800_ballsAfterBricks [Ball_newAttached 5])) as [_ Hr].
  split.
  - apply Hp. discriminate.
  - destruct (Hr eq_refl) as [[_ H] | (j & d & b & _ & _ & _ & _ & H)]; eauto.
Defined.

(** ** The motion of the paddle *)

Section PaddleFacts.

Variable PADDLE_WIDTH : R.
Variable PADDLE_ELONGATION_FACTOR : R.
Variable PADDLE_ELONGATION_TIME : Z.
Variable PADDLE_ACCELERATION : R.
Variable PADDLE_MAX_ROTATION : R.

Local Notation "'changeLength'" :=
  (Paddle_changeLength PADDLE_WIDTH PADDLE_ELONGATION_FACTOR
     PADDLE_ELONGATION_TIME).
Local Notation "'move'" :=
  (Paddle_move PADDLE_WIDTH PADDLE_ELONGATION_FACTOR PADDLE_ELONGATION_TIME).
Local Notation "'processKey'" :=
  (Paddle_processKey PADDLE_ACCELERATION PADDLE_MAX_ROTATION).
Local Notation "'runOp'" :=
  (runPaddleOp PADDLE_WIDTH PADDLE_ELONGATION_FACTOR PADDLE_ELONGATION_TIME
     PADDLE_ACCELERATION PADDLE_MAX_ROTATION).
Local Notation "'runOps'" :=
  (runPaddleOps PADDLE_WIDTH PADDLE_ELONGATION_FACTOR PADDLE_ELONGATION_TIME
     PADDLE_ACCELERATION PADDLE_MAX_ROTATION).

Lemma changeLength_vel (now : Z) (type : bool) (this : TimedPaddle) :
  Paddle_vel_ (paddle (changeLength now type this)) = Paddle_vel_ (paddle this)
  /\ Paddle_accel_ (paddle (changeLength now type this))
     = Paddle_accel_ (paddle this).
Proof.
  unfold Paddle_changeLength. cbv zeta.
  destruct (type && _); [split; reflexivity|].
  destruct (negb type && _); split; reflexivity.
Qed.

Lemma Paddle_rotate_vel (direction : bool) (this : Paddle) :
  Paddle_vel_ (Paddle_rotate PADDLE_MAX_ROTATION direction this)
  = Paddle_vel_ this
  /\ Paddle_accel_ (Paddle_rotate PADDLE_MAX_ROTATION direction this)
     = Paddle_accel_ this.
Proof.
  unfold Paddle_rotate. cbv zeta.
  destruct (_ || _); split; reflexivity.
Qed.

Lemma friction_bound (v a A : R) :
  Rabs v <= 12 * A -> Rabs a <= A ->
  Rabs (v + a - (v + a) / 13) <= 12 * A.
Proof.
  intros Hv Ha.
  replace (v + a - (v + a) / 13) with ((v + a) * (12 / 13)) by field.
  rewrite Rabs_mult. rewrite (Rabs_right (12 / 13)) by lra.
  pose proof (Rabs_triang v a). lra.
Qed.

Lemma paddleCalm_accel (p : Paddle) :
  paddleCalm PADDLE_ACCELERATION p ->
  Rabs (Paddle_accel_ p) <= Rabs PADDLE_ACCELERATION.
Proof.
  intros [[-> | [-> | ->]] _].
  - rewrite Rabs_R0. apply Rabs_pos.
  - lra.
  - rewrite Rabs_Ropp. lra.
Qed.

Lemma paddleCalm_processKey (type : EventType) (key : Key) (p : Paddle) :
  paddleCalm PADDLE_ACCELERATION p ->
  paddleCalm PADDLE_ACCELERATION (processKey type key p).
Proof.
  intros [Ha Hv]. unfold Paddle_processKey.
  destruct (Key_eqb key KeyJ || Key_eqb key KeyL).
  - destruct (EventType_eqb type KeyReleased).
    + destruct (_ || _); [|split; assumption].
      split; [left; reflexivity|exact Hv].
    + split; [|exact Hv]. cbn [Paddle_accel_].
      destruct (Key_eqb key KeyL).
      * right; left. change ((1 * 2 - 1)%Z) with 1%Z. lra.
      * right; right. change ((0 * 2 - 1)%Z) with (-1)%Z. lra.
  - destruct (EventType_eqb type KeyPressed); [|split; assumption].
    destruct (Paddle_rotate_vel (Key_eqb key KeyD) p) as [E1 E2].
    unfold paddleCalm. rewrite E1, E2. split; assumption.
Qed.

Lemma paddleCalm_move (now : Z) (barrier : Object) (windowSize : Vector2u)
  (this : TimedPaddle) :
  paddleCalm PADDLE_ACCELERATION (paddle this) ->
  paddleCalm PADDLE_ACCELERATION (paddle (move now barrier windowSize this)).
Proof.
  intros Hc. unfold Paddle_move. cbv zeta.
  set (this1 := if Reqb _ 0 then _ else this).
  assert (Hc1 : paddleCalm PADDLE_ACCELERATION (paddle this1)).
  { unfold this1. destruct (Reqb _ 0); [|exact Hc].
    destruct (changeLength_vel now false this) as [E1 E2].
    unfold paddleCalm. rewrite E1, E2. exact Hc. }
  set (p := if _ || _ || _ then _ else paddle this1).
  assert (Hp : paddleCalm PADDLE_ACCELERATION p).
  { unfold p. destruct (_ || _ || _); [|exact Hc1].
    unfold Paddle_handleCollision, paddleCalm. cbn [Paddle_accel_ Paddle_vel_].
    split; [left; reflexivity|]. rewrite Rabs_R0.
    pose proof (Rabs_pos PADDLE_ACCELERATION). lra. }
  cbn [paddle Paddle_accel_ Paddle_vel_]. unfold paddleCalm.
  cbn [Paddle_accel_ Paddle_vel_]. split; [apply Hp|].
  apply friction_bound; [apply Hp|apply (paddleCalm_accel _ Hp)].
Qed.

Lemma paddleCalm_runOp (op : PaddleOp) (this : TimedPaddle) :
  paddleCalm PADDLE_ACCELERATION (paddle this) ->
  paddleCalm PADDLE_ACCELERATION (paddle (runOp op this)).
Proof.
  intros Hc. destruct op as [type key | now barrier windowSize | now];
    cbn [runPaddleOp paddle].
  - apply paddleCalm_processKey. exact Hc.
  - apply paddleCalm_move. exact Hc.
  - destruct (changeLength_vel now true this) as [E1 E2].
    unfold paddleCalm. rewrite E1, E2. exact Hc.
Qed.

Lemma paddleCalm_runOps (ops : list PaddleOp) :
  forall this : TimedPaddle,
  paddleCalm PADDLE_ACCELERATION (paddle this) ->
  paddleCalm PADDLE_ACCELERATION (paddle (runOps ops this)).
Proof.
  induction ops as [|op ops IH]; intros this Hc.
  - exact Hc.
  - cbn [runPaddleOps fold_left]. apply IH. apply paddleCalm_runOp. exact Hc.
Qed.

End PaddleFacts.

(** X15: The paddle never runs away.  Through any sequence of key events,
    frames (whatever the barrier answers and whatever the clock shows) and
    elongations, a paddle that starts at rest, or with an acceleration of 0
    or plus or minus [PADDLE_ACCELERATION] and a speed of at most twelve
    times the constant, keeps those bounds: the friction of a thirteenth
    per frame caps the speed at twelve times the acceleration. *)
Theorem Paddle_speed_bounded
  (PADDLE_WIDTH PADDLE_ELONGATION_FACTOR : R) (PADDLE_ELONGATION_TIME : Z)
  (PADDLE_ACCELERATION PADDLE_MAX_ROTATION : R)
  (ops : list PaddleOp) (this : TimedPaddle) :
  paddleCalm PADDLE_ACCELERATION (paddle this) ->
  let this' :=
    runPaddleOps PADDLE_WIDTH PADDLE_ELONGATION_FACTOR PADDLE_ELONGATION_TIME
      PADDLE_ACCELERATION PADDLE_MAX_ROTATION ops this in
  (Paddle_accel_ (paddle this') = 0
   \/ Paddle_accel_ (paddle this') = PADDLE_ACCELERATION
   \/ Paddle_accel_ (paddle this') = - PADDLE_ACCELERATION)
  /\ Rabs (Paddle_vel_ (paddle this')) <= 12 * Rabs PADDLE_ACCELERATION.
Proof.
  intros Hc. apply paddleCalm_runOps. exact Hc.
Qed.

Lemma Paddle_new_calm (A xPos yPos width_ height_ : R) :
  paddleCalm A (Paddle_new xPos yPos width_ height_).
Proof.
  split; [left; reflexivity|]. cbn [Paddle_new Paddle_vel_].
  rewrite Rabs_R0. pose proof (Rabs_pos A). lra.
Qed.

Lemma Paddle_speed_bounded_witness :
  Rabs (Paddle_vel_
          (paddle (runPaddleOps 100 2 10 1 45
                     [OpKey KeyPressed KeyL;
                      OpMove 5 (mkObject false (ABarrier barrier800))
                             (mkVector2 800%N 600%N)]
                     (mkTimedPaddle (Paddle_new 400 560 100 20) 0))))
  <= 12 * Rabs 1.
Proof.
  refine (proj2 _).
  exact (Paddle_speed_bounded 100 2 10 1 45
           [OpKey KeyPressed KeyL;
            OpMove 5 (mkObject false (ABarrier barrier800))
                   (mkVector2 800%N 600%N)]
           (mkTimedPaddle (Paddle_new 400 560 100 20) 0)
           (Paddle_new_calm 1 400 560 100 20)).
Defined.

Lemma Reqb_IZR_sub (a b : Z) : Reqb (IZR (a - b)) 0 = (a =? b)%Z.
Proof.
  destruct (Z.eqb_spec a b) as [-> | Hne].
  - rewrite Z.sub_diag. apply Reqb_true. reflexivity.
  - apply Reqb_false. intros H. apply eq_IZR in H. lia.
Qed.

(** [changeLength(false)] touches the size and the origin of the rectangle
    only, and leaves the origin in the middle of the top edge when it was
    there. *)
Lemma Paddle_changeLength_false
  (PADDLE_WIDTH PADDLE_ELONGATION_FACTOR : R) (PADDLE_ELONGATION_TIME : Z)
  (now : Z) (this : TimedPaddle) :
  let this' :=
    Paddle_changeLength PADDLE_WIDTH PADDLE_ELONGATION_FACTOR
      PADDLE_ELONGATION_TIME now false this in
  let r := Paddle_rectangle_ (paddle this) in
  let r' := Paddle_rectangle_ (paddle this') in
  Paddle_leftCircle_ (paddle this') = Paddle_leftCircle_ (paddle this)
  /\ Paddle_rightCircle_ (paddle this') = Paddle_rightCircle_ (paddle this)
  /\ Paddle_vel_ (paddle this') = Paddle_vel_ (paddle this)
  /\ Paddle_accel_ (paddle this') = Paddle_accel_ (paddle this)
  /\ timer_ this' = timer_ this
  /\ rectPosition r' = rectPosition r
  /\ rectRotation r' = rectRotation r
  /\ (m_origin (r_transformable r) = mkVector2 (x (m_size r) / 2) 0 ->
      m_origin (r_transformable r') = mkVector2 (x (m_size r') / 2) 0).
Proof.
  unfold Paddle_changeLength. cbv zeta. cbn [andb negb].
  destruct (Reqb _ PADDLE_WIDTH); cbn [negb]; repeat split; auto.
Qed.

(** The end-caps as [Paddle::move] places them, against the rectangle: they
    lie symmetrically about the point half the height below the position;
    where the rectangle's origin is the middle of its top edge, they are the
    middles of the short sides of a level rectangle, and their middle is
    the centre of the rectangle only when it has no height or is level. *)
Lemma caps_against_rectangle (orig : Vector2f) (qx qy rot w h : R) :
  let rotation := rot * 0.017453294 in
  let leftPos := mkVector2 (qx - w / 2 * cos rotation)
                           (qy + h / 2 - w / 2 * sin rotation) in
  let rightPos := mkVector2 (qx + w / 2 * cos rotation)
                            (qy + h / 2 + w / 2 * sin rotation) in
  let toWorld :=
    transformPoint
      (getTransform (mkTransformable orig (mkVector2 qx qy) rot)) in
  (x leftPos + x rightPos = 2 * qx
   /\ y leftPos + y rightPos = 2 * (qy + h / 2)
   /\ (x rightPos - x leftPos) ^ 2 + (y rightPos - y leftPos) ^ 2 = w ^ 2)
  /\ (orig = mkVector2 (w / 2) 0 ->
      (rot = 0 ->
       leftPos = toWorld (mkVector2 0 (h / 2))
       /\ rightPos = toWorld (mkVector2 w (h / 2)))
      /\ (mkVector2 ((x leftPos + x rightPos) / 2)
                    ((y leftPos + y rightPos) / 2)
          = toWorld (mkVector2 (w / 2) (h / 2))
          <-> h = 0 \/ cos (rot * 3.141592654 / 180) = 1)).
Proof.
  cbv zeta. cbn [x y]. split.
  - split; [ring|]. split; [ring|].
    pose proof (cos_sin_one (rot * 0.017453294)) as Hcs.
    transitivity (w ^ 2 * (cos (rot * 0.017453294) * cos (rot * 0.017453294)
                           + sin (rot * 0.017453294) * sin (rot * 0.017453294)));
      [field|].
    rewrite Hcs. ring.
  - intros ->. unfold transformPoint, getTransform.
    cbn [a00 a01 a02 a10 a11 a12 m_origin m_position m_rotation x y].
    split.
    + intros ->.
      replace (0 * 0.017453294) with 0 by ring.
      replace (- 0 * 3.141592654 / 180) with 0 by field.
      rewrite cos_0, sin_0. split; f_equal; field.
    + replace (- rot * 3.141592654 / 180) with (- (rot * 3.141592654 / 180))
        by field.
      rewrite cos_neg, sin_neg.
      set (c := cos (rot * 3.141592654 / 180)).
      set (s := sin (rot * 3.141592654 / 180)).
      pose proof (cos_sin_one (rot * 3.141592654 / 180)) as Hcs.
      fold c s in Hcs.
      split.
      * intros E. injection E as Ex Ey.
        assert (Hy : h * (c - 1) = 0) by lra.
        apply Rmult_integral in Hy. destruct Hy as [Hy | Hy]; [left|right]; lra.
      * intros [-> | Hc].
        -- f_equal; field.
        -- assert (Hs : s = 0).
           { rewrite Hc in Hcs. assert (Hs2 : s * s = 0) by lra.
             apply Rmult_integral in Hs2. destruct Hs2; assumption. }
           rewrite Hc, Hs. f_equal; field.
Qed.

(** X16: A frame of the paddle.  [Paddle::move] first ends an elongation
    whose timer shows the current second; the paddle is then touched when
    the barrier answers other than ['n'] to the bounds of one of the
    end-caps or of the rectangle.  A touched paddle stops, velocity and
    acceleration 0, and is pushed by one unit: to the right when its
    position is left of half the width of the window (a division of
    integers), to the left otherwise.  A paddle that is not touched adds the
    acceleration to the velocity, loses a thirteenth of the sum, and moves
    sideways by what is left.  The height of the position, the rotation and
    the timer stay.  The end-caps, with the radii they had, are put
    symmetrically about the point half the height of the rectangle below its
    position, as far apart as the rectangle is long.  Where the origin of
    the rectangle is the middle of its top edge, as the constructor and
    [Paddle::changeLength] set it, it stays there, and the caps are the
    middles of the short sides of a level rectangle; but the middle of the
    two caps is the centre of the rectangle only if the rectangle has no
    height or the cosine of its rotation is 1: on a paddle that is turned
    the caps are off the ends of the rectangle. *)
Theorem Paddle_move_caps
  (PADDLE_WIDTH PADDLE_ELONGATION_FACTOR : R) (PADDLE_ELONGATION_TIME : Z)
  (now : Z) (barrier : Object) (windowSize : Vector2u) (this : TimedPaddle) :
  let start :=
    if (now =? timer_ this)%Z
    then Paddle_changeLength PADDLE_WIDTH PADDLE_ELONGATION_FACTOR
           PADDLE_ELONGATION_TIME now false this
    else this in
  let answers (bounds : FloatRect) :=
    negb (Ascii.eqb (fst (Object_collision barrier bounds)) chr_n) in
  let touched :=
    answers (circleGlobalBounds (Paddle_leftCircle_ (paddle this)))
    || answers (circleGlobalBounds (Paddle_rightCircle_ (paddle this)))
    || answers (rectGlobalBounds (Paddle_rectangle_ (paddle start))) in
  let old := Paddle_rectangle_ (paddle this) in
  let this' :=
    Paddle_move PADDLE_WIDTH PADDLE_ELONGATION_FACTOR PADDLE_ELONGATION_TIME
      now barrier windowSize this in
  let p := paddle this' in
  let leftPos := circlePosition (Paddle_leftCircle_ p) in
  let rightPos := circlePosition (Paddle_rightCircle_ p) in
  let pos := rectPosition (Paddle_rectangle_ p) in
  let size := m_size (Paddle_rectangle_ p) in
  let toWorld :=
    transformPoint (getTransform (r_transformable (Paddle_rectangle_ p))) in
  (Paddle_vel_ p
   = (if touched then 0
      else let v := Paddle_vel_ (paddle this) + Paddle_accel_ (paddle this) in
           v - v / 13)
   /\ Paddle_accel_ p = (if touched then 0 else Paddle_accel_ (paddle this))
   /\ x pos
      = x (rectPosition old)
        + (if touched
           then if Rltb (x (rectPosition old)) (IZR (Z.of_N (x windowSize / 2)))
                then 1 else -1
           else 0)
        + Paddle_vel_ p
   /\ y pos = y (rectPosition old)
   /\ rectRotation (Paddle_rectangle_ p) = rectRotation old
   /\ timer_ this' = timer_ this)
  /\ (x leftPos + x rightPos = 2 * x pos
      /\ y leftPos + y rightPos = 2 * (y pos + y size / 2)
      /\ (x rightPos - x leftPos) ^ 2 + (y rightPos - y leftPos) ^ 2
         = x size ^ 2
      /\ m_radius (Paddle_leftCircle_ p)
         = m_radius (Paddle_leftCircle_ (paddle this))
      /\ m_radius (Paddle_rightCircle_ p)
         = m_radius (Paddle_rightCircle_ (paddle this)))
  /\ (m_origin (r_transformable old) = mkVector2 (x (m_size old) / 2) 0 ->
      m_origin (r_transformable (Paddle_rectangle_ p))
      = mkVector2 (x size / 2) 0
      /\ (rectRotation old = 0 ->
          leftPos = toWorld (mkVector2 0 (y size / 2))
          /\ rightPos = toWorld (mkVector2 (x size) (y size / 2)))
      /\ (mkVector2 ((x leftPos + x rightPos) / 2) ((y leftPos + y rightPos) / 2)
          = toWorld (mkVector2 (x size / 2) (y size / 2))
          <-> y size = 0 \/ cos (rectRotation old * 3.141592654 / 180) = 1)).
Proof.
  cbv zeta. unfold Paddle_move. cbv zeta. rewrite Reqb_IZR_sub.
  set (start := if (now =? timer_ this)%Z then _ else this).
  assert (H1 : Paddle_leftCircle_ (paddle start) = Paddle_leftCircle_ (paddle this)
               /\ Paddle_rightCircle_ (paddle start)
                  = Paddle_rightCircle_ (paddle this)
               /\ Paddle_vel_ (paddle start) = Paddle_vel_ (paddle this)
               /\ Paddle_accel_ (paddle start) = Paddle_accel_ (paddle this)
               /\ timer_ start = timer_ this
               /\ rectPosition (Paddle_rectangle_ (paddle start))
                  = rectPosition (Paddle_rectangle_ (paddle this))
               /\ rectRotation (Paddle_rectangle_ (paddle start))
                  = rectRotation (Paddle_rectangle_ (paddle this))
               /\ (m_origin (r_transformable (Paddle_rectangle_ (paddle this)))
                   = mkVector2
                       (x (m_size (Paddle_rectangle_ (paddle this))) / 2) 0 ->
                   m_origin (r_transformable (Paddle_rectangle_ (paddle start)))
                   = mkVector2
                       (x (m_size (Paddle_rectangle_ (paddle start))) / 2) 0)).
  { unfold start. destruct (now =? timer_ this)%Z.
    - apply Paddle_changeLength_false.
    - repeat split; auto. }
  destruct H1 as (El & Er & Ev & Ea & Et & Ep & Erot & Eorig).
  rewrite El, Er.
  set (touched := _ || _ || _).
  destruct (paddle start) as [rect lc rc v a] eqn:Estart.
  cbn [Paddle_leftCircle_ Paddle_rightCircle_ Paddle_vel_ Paddle_accel_
       Paddle_rectangle_] in *.
  destruct rect as [[orig [px py] rot] [w h]].
  unfold rectPosition, rectRotation in *.
  cbn [r_transformable m_position m_rotation m_origin m_size x y] in *.
  rewrite <- Ep, <- Erot, <- Ev, <- Ea, <- El, <- Er, Et.
  destruct touched.
  - unfold Paddle_handleCollision, rectPosition, rectRotation, rectMove, moveBy,
      circlePosition, circleSetPosition, setPosition.
    cbn [Paddle_leftCircle_ Paddle_rightCircle_ Paddle_vel_ Paddle_accel_
         Paddle_rectangle_ paddle timer_ r_transformable c_transformable
         m_position m_rotation m_origin m_size m_radius x y].
    set (push := if Rltb px _ then _ else _).
    assert (Hpush : m_origin (r_transformable push) = orig
                    /\ m_rotation (r_transformable push) = rot
                    /\ m_size push = mkVector2 w h
                    /\ y (m_position (r_transformable push)) = py
                    /\ x (m_position (r_transformable push))
                       = px + (if Rltb px (IZR (Z.of_N (x windowSize / 2)))
                               then 1 else -1)).
    { unfold push. destruct (Rltb px _); cbn; repeat split; lra. }
    destruct Hpush as (Ho & Hr & Hs & Hy & Hx).
    rewrite Ho, Hr, Hs, Hy, Hx. cbn [x y].
    set (qx := px + _ + _). set (qy := py + 0).
    destruct (caps_against_rectangle orig qx qy rot w h) as [Hcaps Hends].
    cbv zeta in Hcaps, Hends. cbn [x y] in Hcaps, Hends.
    split; [|split].
    + unfold qy. repeat split; lra.
    + destruct Hcaps as (? & ? & ?). repeat split; assumption.
    + intros Horig. pose proof (Eorig Horig) as Eo.
      split; [exact Eo|]. apply Hends. exact Eo.
  - unfold rectPosition, rectRotation, rectMove, moveBy,
      circlePosition, circleSetPosition, setPosition.
    cbn [Paddle_leftCircle_ Paddle_rightCircle_ Paddle_vel_ Paddle_accel_
         Paddle_rectangle_ paddle timer_ r_transformable c_transformable
         m_position m_rotation m_origin m_size m_radius x y].
    set (qx := px + _). set (qy := py + 0).
    destruct (caps_against_rectangle orig qx qy rot w h) as [Hcaps Hends].
    cbv zeta in Hcaps, Hends. cbn [x y] in Hcaps, Hends.
    split; [|split].
    + unfold qx, qy. repeat split; lra.
    + destruct Hcaps as (? & ? & ?). repeat split; assumption.
    + intros Horig. pose proof (Eorig Horig) as Eo.
      split; [exact Eo|]. apply Hends. exact Eo.
Qed.

(** A frame of the paddle as its constructor leaves it, level and with its
    origin in the middle of the top edge: the left cap is the middle of the
    left side of the rectangle. *)
Lemma Paddle_move_caps_witness :
  let this' :=
    Paddle_move 100 2 10 5 (mkObject false (ABarrier barrier800))
      (mkVector2 800%N 600%N) (mkTimedPaddle (Paddle_new 400 560 100 20) 0) in
  let rectangle_ := Paddle_rectangle_ (paddle this') in
  circlePosition (Paddle_leftCircle_ (paddle this'))
  = transformPoint (getTransform (r_transformable rectangle_))
      (mkVector2 0 (y (m_size rectangle_) / 2)).
Proof.
  exact (proj1
           (proj1
              (proj2
                 (proj2
                    (proj2
                       (Paddle_move_caps 100 2 10 5
                          (mkObject false (ABarrier barrier800))
                          (mkVector2 800%N 600%N)
                          (mkTimedPaddle (Paddle_new 400 560 100 20) 0)))
                    eq_refl))
              eq_refl)).
Defined.

(** ** Turning the paddle *)

Lemma truncZ_unit (r : R) : -1 < r < 1 -> truncZ r = 0%Z.
Proof.
  intros Hr. unfold truncZ. destruct (Rle_dec 0 r) as [H | H].
  - symmetry. apply Int_part_spec. cbn. lra.
  - replace (Int_part (- r)) with 0%Z; [reflexivity|].
    apply Int_part_spec. cbn. lra.
Qed.

Lemma truncZ_one (r : R) : 1 <= r < 2 -> truncZ r = 1%Z.
Proof.
  intros Hr. unfold truncZ. destruct (Rle_dec 0 r) as [H | H]; [|lra].
  symmetry. apply Int_part_spec. cbn. lra.
Qed.

Lemma fmod_small (a b : R) : 0 < b -> - b < a < b -> fmod a b = a.
Proof.
  intros Hb Ha. unfold fmod. rewrite truncZ_unit; [cbn; ring|].
  split.
  - apply Rmult_lt_reg_r with b; [exact Hb|]. unfold Rdiv.
    rewrite Rmult_assoc, Rinv_l by lra. lra.
  - apply Rmult_lt_reg_r with b; [exact Hb|]. unfold Rdiv.
    rewrite Rmult_assoc, Rinv_l by lra. lra.
Qed.

Lemma fmod_once (a b : R) : 0 < b -> b <= a < 2 * b -> fmod a b = a - b.
Proof.
  intros Hb Ha. unfold fmod. rewrite truncZ_one; [cbn; ring|].
  split.
  - apply Rmult_le_reg_r with b; [exact Hb|]. unfold Rdiv.
    rewrite Rmult_assoc, Rinv_l by lra. lra.
  - apply Rmult_lt_reg_r with b; [exact Hb|]. unfold Rdiv.
    rewrite Rmult_assoc, Rinv_l by lra. lra.
Qed.

(** The rotation after [rotate(angle)] for a step of at most a full turn,
    from a rotation in [0, 360). *)
Lemma rectRotate_step (r : RectangleShape) (angle : R) :
  0 <= rectRotation r < 360 -> -360 < angle < 360 ->
  rectRotation (rectRotate r angle)
  = if Rltb (rectRotation r + angle) 0 then rectRotation r + angle + 360
    else if Rltb (rectRotation r + angle) 360 then rectRotation r + angle
    else rectRotation r + angle - 360.
Proof.
  intros Hr Ha. unfold rectRotate, rotateBy, setRotation, rectRotation in *.
  cbn [r_transformable m_rotation]. cbv zeta.
  set (a := m_rotation (r_transformable r) + angle) in *.
  destruct (Rlt_dec a 0) as [H0 | H0].
  - rewrite (Rltb_true a 0 H0). rewrite fmod_small by (unfold a in *; lra).
    rewrite (Rltb_true a 0 H0). reflexivity.
  - rewrite (Rltb_false a 0 H0).
    destruct (Rlt_dec a 360) as [H1 | H1].
    + rewrite (Rltb_true a 360 H1). rewrite fmod_small by (unfold a in *; lra).
      rewrite (Rltb_false a 0 H0). reflexivity.
    + rewrite (Rltb_false a 360 H1). rewrite fmod_once by (unfold a in *; lra).
      rewrite Rltb_false by (unfold a in *; lra). reflexivity.
Qed.

Lemma stepsAngle_range (k : Z) :
  (-60 < k < 60)%Z -> 0 <= stepsAngle k < 360.
Proof.
  intros Hk. unfold stepsAngle. destruct (k <? 0)%Z eqn:E.
  - apply Z.ltb_lt in E.
    assert (-180 < IZR (3 * k) < 0) by (split; apply IZR_lt; lia). lra.
  - apply Z.ltb_ge in E.
    assert (0 <= IZR (3 * k) < 180)
      by (split; [apply IZR_le|apply IZR_lt]; lia). lra.
Qed.

Lemma stepsAngle_succ (k : Z) :
  (-60 < k < 59)%Z ->
  (if Rltb (stepsAngle k + 3) 0 then stepsAngle k + 3 + 360
   else if Rltb (stepsAngle k + 3) 360 then stepsAngle k + 3
   else stepsAngle k + 3 - 360) = stepsAngle (k + 1).
Proof.
  intros Hk. unfold stepsAngle.
  replace (IZR (3 * (k + 1))) with (IZR (3 * k) + 3)
    by (rewrite <- plus_IZR; f_equal; lia).
  destruct (k <? 0)%Z eqn:E.
  - apply Z.ltb_lt in E.
    assert (-180 < IZR (3 * k) <= -3) by (split; [apply IZR_lt|apply IZR_le]; lia).
    rewrite Rltb_false by lra.
    destruct (k + 1 <? 0)%Z eqn:E1.
    + apply Z.ltb_lt in E1.
      assert (IZR (3 * k) <= -6) by (apply IZR_le; lia).
      rewrite Rltb_true by lra. ring.
    + apply Z.ltb_ge in E1. assert (k = (-1)%Z) as -> by lia.
      change (IZR (3 * -1)) with (-3). rewrite Rltb_false by lra. ring.
  - apply Z.ltb_ge in E.
    assert (0 <= IZR (3 * k) < 180) by (split; [apply IZR_le|apply IZR_lt]; lia).
    rewrite Rltb_false by lra. rewrite Rltb_true by lra.
    rewrite (proj2 (Z.ltb_ge _ _)) by lia. reflexivity.
Qed.

Lemma stepsAngle_pred (k : Z) :
  (-59 < k < 60)%Z ->
  (if Rltb (stepsAngle k + -3) 0 then stepsAngle k + -3 + 360
   else if Rltb (stepsAngle k + -3) 360 then stepsAngle k + -3
   else stepsAngle k + -3 - 360) = stepsAngle (k - 1).
Proof.
  intros Hk. unfold stepsAngle.
  replace (IZR (3 * (k - 1))) with (IZR (3 * k) - 3)
    by (rewrite <- minus_IZR; f_equal; lia).
  destruct (k <? 0)%Z eqn:E.
  - apply Z.ltb_lt in E.
    assert (-180 < IZR (3 * k) <= -3) by (split; [apply IZR_lt|apply IZR_le]; lia).
    rewrite Rltb_false by lra. rewrite Rltb_true by lra.
    rewrite (proj2 (Z.ltb_lt _ _)) by lia. ring.
  - apply Z.ltb_ge in E.
    assert (0 <= IZR (3 * k) < 180) by (split; [apply IZR_le|apply IZR_lt]; lia).
    destruct (k - 1 <? 0)%Z eqn:E1.
    + apply Z.ltb_lt in E1. assert (k = 0%Z) as -> by lia.
      change (IZR (3 * 0)) with 0. rewrite Rltb_true by lra. ring.
    + apply Z.ltb_ge in E1.
      assert (3 <= IZR (3 * k)) by (apply IZR_le; lia).
      rewrite Rltb_false by lra. rewrite Rltb_true by lra. ring.
Qed.

(** X17: The paddle turns in steps of three degrees and, when the largest
    rotation is a whole number [m] of steps (below half a turn), never
    beyond it: from [k] steps, with [k] between [-m] and [m], a
    clockwise turn gives [k + 1] steps, or [k] when [k = m], and a
    counter-clockwise turn [k - 1], or [k] when [k = -m].  The velocity,
    the acceleration and the end-caps are as they were (the caps follow in
    the next frame). *)
Theorem Paddle_rotate_steps (m k : Z) (direction : bool) (this : Paddle) :
  (0 <= m < 59)%Z -> (- m <= k <= m)%Z ->
  rectRotation (Paddle_rectangle_ this) = stepsAngle k ->
  let this' := Paddle_rotate (IZR (3 * m)) direction this in
  rectRotation (Paddle_rectangle_ this')
  = stepsAngle (if direction then Z.min (k + 1) m else Z.max (k - 1) (- m))
  /\ rectPosition (Paddle_rectangle_ this')
     = rectPosition (Paddle_rectangle_ this)
  /\ m_size (Paddle_rectangle_ this') = m_size (Paddle_rectangle_ this)
  /\ Paddle_leftCircle_ this' = Paddle_leftCircle_ this
  /\ Paddle_rightCircle_ this' = Paddle_rightCircle_ this
  /\ Paddle_vel_ this' = Paddle_vel_ this
  /\ Paddle_accel_ this' = Paddle_accel_ this.
Proof.
  intros Hm Hk Hrot. unfold Paddle_rotate. cbv zeta. rewrite Hrot.
  assert (HM : 0 <= IZR (3 * m) < 177)
    by (split; [apply IZR_le|apply IZR_lt]; lia).
  pose proof (stepsAngle_range k ltac:(lia)) as Hrange.
  (* the signed rotation of the source is three times [k] *)
  assert (Hsigned : (if Rgtb (stepsAngle k) (IZR (3 * m))
                     then stepsAngle k - 360 else stepsAngle k)
                    = IZR (3 * k)).
  { unfold stepsAngle, Rgtb. destruct (k <? 0)%Z eqn:E.
    - apply Z.ltb_lt in E.
      assert (-177 < IZR (3 * k) < 0) by (split; apply IZR_lt; lia).
      rewrite Rltb_true by lra. ring.
    - apply Z.ltb_ge in E.
      assert (IZR (3 * k) <= IZR (3 * m)) by (apply IZR_le; lia).
      rewrite Rltb_false by lra. reflexivity. }
  rewrite Hsigned. unfold Rgtb. rewrite <- opp_IZR.
  destruct direction; cbn [andb negb orb].
  - rewrite orb_false_r.
    destruct (Z.eq_dec k m) as [-> | Hne].
    + rewrite Rltb_false by lra. rewrite Z.min_r by lia. auto 10.
    + rewrite Rltb_true by (apply IZR_lt; lia). rewrite Z.min_l by lia.
      unfold withRectangle.
      cbn [Paddle_rectangle_ Paddle_leftCircle_ Paddle_rightCircle_
           Paddle_vel_ Paddle_accel_].
      split; [|auto 10].
      rewrite rectRotate_step;
        [|rewrite Hrot; exact Hrange
         |change (IZR (3 * (1 * 2 - 1))) with 3; lra].
      rewrite Hrot. change (IZR (3 * (1 * 2 - 1))) with 3.
      apply stepsAngle_succ. lia.
  - destruct (Z.eq_dec k (- m)%Z) as [-> | Hne].
    + rewrite Rltb_false by (apply Rle_not_lt, IZR_le; lia).
      rewrite Z.max_r by lia. auto 10.
    + rewrite Rltb_true by (apply IZR_lt; lia). rewrite Z.max_l by lia.
      unfold withRectangle.
      cbn [Paddle_rectangle_ Paddle_leftCircle_ Paddle_rightCircle_
           Paddle_vel_ Paddle_accel_].
      split; [|auto 10].
      rewrite rectRotate_step;
        [|rewrite Hrot; exact Hrange
         |change (IZR (3 * (0 * 2 - 1))) with (-3); lra].
      rewrite Hrot. change (IZR (3 * (0 * 2 - 1))) with (-3).
      apply stepsAngle_pred. lia.
Qed.

Lemma Paddle_rotate_steps_witness :
  rectRotation (Paddle_rectangle_
                  (Paddle_rotate (IZR (3 * 15)) false (Paddle_new 400 560 100 20)))
  = stepsAngle (-1).
Proof.
  assert (Hm : (0 <= 15 < 59)%Z) by lia.
  assert (Hk : (- 15 <= 0 <= 15)%Z) by lia.
  assert (Hrot : rectRotation (Paddle_rectangle_ (Paddle_new 400 560 100 20))
                 = stepsAngle 0).
  { reflexivity. }
  exact (proj1 (Paddle_rotate_steps 15 0 false (Paddle_new 400 560 100 20)
                  Hm Hk Hrot)).
Defined.

(** X18: The limit of the rotation holds at the maximum itself only.  A
    clockwise key press turns the paddle by three degrees from every
    rotation below the maximum, also when that leads beyond it; and a
    paddle whose rotation lies strictly between the maximum and its mirror
    image, 360 minus the maximum, ignores counter-clockwise presses and
    turns further on clockwise ones.  With a maximum that is no multiple of
    three the paddle therefore passes the maximum and can only be turned on
    clockwise. *)
Theorem Paddle_rotate_past_maximum (PADDLE_MAX_ROTATION : R) (this : Paddle) :
  let rotation := rectRotation (Paddle_rectangle_ this) in
  0 <= PADDLE_MAX_ROTATION ->
  0 <= rotation -> rotation + 3 < 360 ->
  (rotation < PADDLE_MAX_ROTATION ->
   rectRotation (Paddle_rectangle_ (Paddle_rotate PADDLE_MAX_ROTATION true this))
   = rotation + 3)
  /\ (PADDLE_MAX_ROTATION < rotation ->
      rotation <= 360 - PADDLE_MAX_ROTATION ->
      rectRotation
        (Paddle_rectangle_ (Paddle_rotate PADDLE_MAX_ROTATION true this))
      = rotation + 3
      /\ Paddle_rotate PADDLE_MAX_ROTATION false this = this).
Proof.
  intros rotation HM H0 H3.
  assert (Hstep : rectRotation (rectRotate (Paddle_rectangle_ this) 3)
                  = rotation + 3).
  { rewrite rectRotate_step by (fold rotation; lra). fold rotation.
    rewrite Rltb_false by lra. rewrite Rltb_true by lra. reflexivity. }
  unfold Paddle_rotate. cbv zeta. fold rotation. unfold Rgtb.
  change (IZR (3 * (1 * 2 - 1))) with 3.
  split.
  - intros Hlt. rewrite (Rltb_false PADDLE_MAX_ROTATION rotation) by lra.
    rewrite Rltb_true by lra. cbn [andb orb negb]. exact Hstep.
  - intros Hgt Hmirror.
    rewrite (Rltb_true PADDLE_MAX_ROTATION rotation) by lra.
    cbn [andb orb negb]. rewrite Rltb_true by lra.
    rewrite Rltb_false by lra. cbn [andb orb]. split; [exact Hstep|reflexivity].
Qed.

Lemma Paddle_rotate_past_maximum_witness :
  rectRotation (Paddle_rectangle_ (Paddle_rotate 2 true (Paddle_new 400 560 100 20)))
  = 0 + 3.
Proof.
  assert (HM : 0 <= 2) by lra.
  assert (H0 : 0 <= rectRotation (Paddle_rectangle_ (Paddle_new 400 560 100 20)))
    by (cbn; lra).
  assert (H3 : rectRotation (Paddle_rectangle_ (Paddle_new 400 560 100 20)) + 3
               < 360) by (cbn; lra).
  assert (Hlt : rectRotation (Paddle_rectangle_ (Paddle_new 400 560 100 20)) < 2)
    by (cbn; lra).
  exact (proj1 (Paddle_rotate_past_maximum 2 (Paddle_new 400 560 100 20)
                  HM H0 H3) Hlt).
Defined.

(** ** The elongation of the paddle *)

Section Elongation.

Variable PADDLE_WIDTH : R.
Variable PADDLE_ELONGATION_FACTOR : R.
Variable PADDLE_ELONGATION_TIME : Z.
Variable PADDLE_ACCELERATION : R.
Variable PADDLE_MAX_ROTATION : R.

Local Notation "'elongated'" :=
  (elongatedUntil PADDLE_WIDTH PADDLE_ELONGATION_FACTOR).

Lemma Paddle_rotate_size (direction : bool) (this : Paddle) :
  m_size (Paddle_rectangle_ (Paddle_rotate PADDLE_MAX_ROTATION direction this))
  = m_size (Paddle_rectangle_ this).
Proof.
  unfold Paddle_rotate. cbv zeta. destruct (_ || _); reflexivity.
Qed.

Lemma Paddle_processKey_size (type : EventType) (key : Key) (this : Paddle) :
  m_size (Paddle_rectangle_
            (Paddle_processKey PADDLE_ACCELERATION PADDLE_MAX_ROTATION
               type key this))
  = m_size (Paddle_rectangle_ this).
Proof.
  unfold Paddle_processKey.
  destruct (Key_eqb key KeyJ || Key_eqb key KeyL).
  - destruct (EventType_eqb type KeyReleased); [|reflexivity].
    destruct (_ || _); reflexivity.
  - destruct (EventType_eqb type KeyPressed); [|reflexivity].
    apply Paddle_rotate_size.
Qed.

Lemma Paddle_move_size (now : Z) (barrier : Object) (windowSize : Vector2u)
  (this : TimedPaddle) :
  now <> timer_ this ->
  m_size (Paddle_rectangle_
            (paddle (Paddle_move PADDLE_WIDTH PADDLE_ELONGATION_FACTOR
                       PADDLE_ELONGATION_TIME now barrier windowSize this)))
  = m_size (Paddle_rectangle_ (paddle this))
  /\ timer_ (Paddle_move PADDLE_WIDTH PADDLE_ELONGATION_FACTOR
               PADDLE_ELONGATION_TIME now barrier windowSize this)
     = timer_ this.
Proof.
  intros Hne. unfold Paddle_move. cbv zeta.
  rewrite Reqb_false.
  2:{ intros H. apply eq_IZR in H. lia. }
  cbn [paddle timer_ Paddle_rectangle_]. split; [|reflexivity].
  destruct (_ || _ || _); [|reflexivity].
  unfold Paddle_handleCollision. cbn [Paddle_rectangle_].
  destruct (Rltb _ _); reflexivity.
Qed.

Lemma elongatedUntil_runOp (t : Z) (op : PaddleOp) (this : TimedPaddle) :
  keepsElongation t op ->
  elongated t this ->
  elongated t
    (runPaddleOp PADDLE_WIDTH PADDLE_ELONGATION_FACTOR PADDLE_ELONGATION_TIME
       PADDLE_ACCELERATION PADDLE_MAX_ROTATION op this).
Proof.
  intros Hop [Ht Hs]. destruct op as [type key | now barrier windowSize | now];
    cbn [runPaddleOp keepsElongation] in *.
  - split; [exact Ht|]. cbn [paddle]. rewrite Paddle_processKey_size. exact Hs.
  - destruct (Paddle_move_size now barrier windowSize this) as [E1 E2];
      [congruence|]. split; [congruence|]. rewrite E1. exact Hs.
  - unfold Paddle_changeLength. cbv zeta. unfold Rgtb.
    rewrite (Rltb_false 0 (IZR (now - timer_ this))).
    2:{ apply Rle_not_lt. apply IZR_le. lia. }
    cbn [andb negb]. split; assumption.
Qed.

Lemma elongatedUntil_runOps (t : Z) (ops : list PaddleOp) :
  forall this : TimedPaddle,
  Forall (keepsElongation t) ops ->
  elongated t this ->
  elongated t
    (runPaddleOps PADDLE_WIDTH PADDLE_ELONGATION_FACTOR PADDLE_ELONGATION_TIME
       PADDLE_ACCELERATION PADDLE_MAX_ROTATION ops this).
Proof.
  induction ops as [|op ops IH]; intros this Hops He.
  - exact He.
  - cbn [runPaddleOps fold_left]. apply Forall_cons in Hops as [Hop Hops].
    apply IH; [exact Hops|]. apply elongatedUntil_runOp; assumption.
Qed.

End Elongation.

(** X19: The life of an elongation.  [Paddle::changeLength(true)] after
    the last timer has run out makes the paddle [PADDLE_WIDTH] times
    [PADDLE_ELONGATION_FACTOR] long, its origin in the middle of the new
    length, and sets the timer [PADDLE_ELONGATION_TIME] seconds ahead.
    From then on key events, frames in any other second than that of the
    timer and further elongations asked for up to that second change
    neither the length nor the timer: a second long-paddle brick does not
    prolong the elongation, and a frame ends it only in the very second of
    the timer, when the length goes back to [PADDLE_WIDTH]. *)
Theorem Paddle_elongation
  (PADDLE_WIDTH PADDLE_ELONGATION_FACTOR : R) (PADDLE_ELONGATION_TIME : Z)
  (PADDLE_ACCELERATION PADDLE_MAX_ROTATION : R)
  (now : Z) (this : TimedPaddle) (ops : list PaddleOp)
  (barrier : Object) (windowSize : Vector2u) :
  (timer_ this < now)%Z ->
  Forall (keepsElongation (now + PADDLE_ELONGATION_TIME)) ops ->
  let long :=
    Paddle_changeLength PADDLE_WIDTH PADDLE_ELONGATION_FACTOR
      PADDLE_ELONGATION_TIME now true this in
  let later :=
    runPaddleOps PADDLE_WIDTH PADDLE_ELONGATION_FACTOR PADDLE_ELONGATION_TIME
      PADDLE_ACCELERATION PADDLE_MAX_ROTATION ops long in
  let ended :=
    Paddle_move PADDLE_WIDTH PADDLE_ELONGATION_FACTOR PADDLE_ELONGATION_TIME
      (now + PADDLE_ELONGATION_TIME) barrier windowSize later in
  (m_size (Paddle_rectangle_ (paddle long))
   = mkVector2 (PADDLE_WIDTH * PADDLE_ELONGATION_FACTOR)
               (y (m_size (Paddle_rectangle_ (paddle this))))
   /\ m_origin (r_transformable (Paddle_rectangle_ (paddle long)))
      = mkVector2 (PADDLE_WIDTH * PADDLE_ELONGATION_FACTOR / 2) 0
   /\ rectPosition (Paddle_rectangle_ (paddle long))
      = rectPosition (Paddle_rectangle_ (paddle this))
   /\ timer_ long = (now + PADDLE_ELONGATION_TIME)%Z)
  /\ (x (m_size (Paddle_rectangle_ (paddle later)))
      = PADDLE_WIDTH * PADDLE_ELONGATION_FACTOR
      /\ timer_ later = (now + PADDLE_ELONGATION_TIME)%Z)
  /\ x (m_size (Paddle_rectangle_ (paddle ended))) = PADDLE_WIDTH.
Proof.
  intros Hlt Hops long later ended.
  assert (Elong : long
                  = mkTimedPaddle
                      (withRectangle (paddle this)
                         (rectSetOrigin
                            (rectSetSize (Paddle_rectangle_ (paddle this))
                               (mkVector2 (PADDLE_WIDTH * PADDLE_ELONGATION_FACTOR)
                                  (y (m_size (Paddle_rectangle_ (paddle this))))))
                            (PADDLE_WIDTH * PADDLE_ELONGATION_FACTOR / 2) 0))
                      (now + PADDLE_ELONGATION_TIME)).
  { unfold long, Paddle_changeLength. cbv zeta. unfold Rgtb.
    rewrite Rltb_true by (apply IZR_lt; lia). reflexivity. }
  assert (Hlong : elongatedUntil PADDLE_WIDTH PADDLE_ELONGATION_FACTOR
                    (now + PADDLE_ELONGATION_TIME) long).
  { rewrite Elong. split; reflexivity. }
  pose proof (elongatedUntil_runOps PADDLE_WIDTH PADDLE_ELONGATION_FACTOR
                PADDLE_ELONGATION_TIME PADDLE_ACCELERATION PADDLE_MAX_ROTATION
                _ ops long Hops Hlong) as [Ht Hs].
  fold later in Ht, Hs.
  split; [rewrite Elong; repeat split|]. split; [split; assumption|].
  unfold ended, Paddle_move. cbv zeta. rewrite Ht, Z.sub_diag.
  rewrite Reqb_true by reflexivity.
  unfold Paddle_changeLength. cbv zeta. cbn [andb negb].
  destruct (Reqb (x (m_size (Paddle_rectangle_ (paddle later)))) PADDLE_WIDTH)
    eqn:E; cbn [negb].
  - assert (Ew : x (m_size (Paddle_rectangle_ (paddle later))) = PADDLE_WIDTH).
    { unfold Reqb in E. destruct (Req_dec_T _ _); [assumption|discriminate]. }
    cbn [paddle Paddle_rectangle_].
    destruct (_ || _ || _).
    + unfold Paddle_handleCollision. cbn [Paddle_rectangle_].
      destruct (Rltb _ _); exact Ew.
    + exact Ew.
  - cbn [paddle Paddle_rectangle_].
    destruct (_ || _ || _).
    + unfold Paddle_handleCollision. cbn [Paddle_rectangle_ withRectangle].
      destruct (Rltb _ _); reflexivity.
    + reflexivity.
Qed.

Lemma Paddle_elongation_witness :
  x (m_size (Paddle_rectangle_
               (paddle (Paddle_changeLength 100 2 10 5 true
                          (mkTimedPaddle (Paddle_new 400 560 100 20) 0)))))
  = 100 * 2.
Proof.
  assert (Hlt : (timer_ (mkTimedPaddle (Paddle_new 400 560 100 20) 0) < 5)%Z)
    by (cbn; lia).
  pose proof (Paddle_elongation 100 2 10 1 45 5
                (mkTimedPaddle (Paddle_new 400 560 100 20) 0) []
                (mkObject false (ABarrier barrier800)) (mkVector2 800%N 600%N)
                Hlt (List.Forall_nil _)) as [(Hsize & _) _].
  rewrite Hsize. reflexivity.
Defined.

(** ** Clearing the stage *)

Lemma clearLoop_take (first : nat) (fuel : nat) :
  forall objects : list Object,
  (1 <= first)%nat ->
  (length objects <= fuel + first)%nat ->
  clearLoop first fuel objects = Some (take first objects).
Proof.
  induction fuel as [|fuel IH]; intros objects Hfirst Hlen.
  - cbn [clearLoop]. rewrite take_ge by lia. reflexivity.
  - cbn [clearLoop].
    destruct (Nat.ltb_spec first (length objects)) as [Hlt | Hge].
    + destruct (Nat.eqb_spec (length objects) 1) as [H1 | H1]; [lia|].
      rewrite IH.
      * rewrite removelast_firstn_len. rewrite take_take.
        f_equal. f_equal. lia.
      * exact Hfirst.
      * rewrite removelast_firstn_len. rewrite length_take. lia.
    + rewrite take_ge by lia. reflexivity.
Qed.

(** X20: [GraphicsRunner::clear] on a game with the first safety brick at
    index 1 or later and a vector that is not empty: exactly the objects
    before that index stay, in their places and as they were (the paddle
    and the barrier), every brick and every ball is removed, and the
    counters of the bricks are left as they are, to be set by the caller.
    With the index at 0 the iterator is stepped back from the first object,
    which is undefined. *)
Theorem GraphicsRunner_clear_keeps_prefix (g : GraphicsRunner) :
  objects_ g <> [] ->
  ((1 <= indexOfFirstSafetyBrick_ g)%Z ->
   exists g',
     GraphicsRunner_clear g = Some g'
     /\ objects_ g' = take (Z.to_nat (indexOfFirstSafetyBrick_ g)) (objects_ g)
     /\ (forall i, (i < Z.to_nat (indexOfFirstSafetyBrick_ g))%nat ->
           objects_ g' !! i = objects_ g !! i)
     /\ (length (objects_ g')
         <= Z.to_nat (indexOfFirstSafetyBrick_ g))%nat
     /\ indexOfFirstSafetyBrick_ g' = indexOfFirstSafetyBrick_ g
     /\ numSafetyBricks_ g' = numSafetyBricks_ g
     /\ numBricks_ g' = numBricks_ g
     /\ windowSize_ g' = windowSize_ g)
  /\ (indexOfFirstSafetyBrick_ g = 0%Z -> GraphicsRunner_clear g = None).
Proof.
  intros Hne. split.
  - intros Hfirst. unfold GraphicsRunner_clear.
    destruct (objects_ g) as [|o os] eqn:Eo; [contradiction|].
    rewrite (proj2 (Z.ltb_ge _ _)) by lia.
    rewrite clearLoop_take by lia.
    eexists. split; [reflexivity|]. cbn [objects_ withObjects].
    split; [reflexivity|]. split; [intros i Hi; apply lookup_take_lt; exact Hi|].
    split; [rewrite length_take; lia|]. repeat split.
  - intros H0. unfold GraphicsRunner_clear.
    destruct (objects_ g) as [|o os] eqn:Eo; [contradiction|].
    rewrite H0. change (0 <? 0)%Z with false. cbv iota.
    change (Z.to_nat 0) with 0%nat.
    assert (Hloop : forall fuel (l : list Object),
               (length l <= fuel)%nat -> l <> [] -> clearLoop 0 fuel l = None).
    { induction fuel as [|fuel IH]; intros l Hl Hnil.
      - destruct l; [contradiction|cbn in Hl; lia].
      - cbn [clearLoop]. destruct l as [|a l]; [contradiction|].
        cbn [length]. change (0 <? S (length l))%nat with true. cbv iota.
        destruct l as [|b l]; [reflexivity|].
        cbn [length Nat.eqb]. apply IH.
        + rewrite removelast_firstn_len. rewrite length_take.
          cbn [length] in *. lia.
        + cbn. destruct l; discriminate. }
    rewrite Hloop; [reflexivity|lia|discriminate].
Qed.

Lemma GraphicsRunner_clear_keeps_prefix_witness :
  exists g',
    GraphicsRunner_clear brickGame = Some g'
    /\ objects_ g' = take 2 (objects_ brickGame).
Proof.
  assert (Hne : objects_ brickGame <> []) by discriminate.
  assert (H1 : (1 <= indexOfFirstSafetyBrick_ brickGame)%Z) by (cbn; lia).
  destruct (proj1 (GraphicsRunner_clear_keeps_prefix brickGame Hne) H1)
    as (g' & E & Ho & _).
  exists g'. split; [exact E|exact Ho].
Defined.

(** ** The clock of the level *)

Lemma twoDigits_to_string_table :
  forallb (fun k : nat =>
             String.eqb
               (let s := to_string (Z.of_nat k) in
                if (String.length s =? 1)%nat then String.append str_0 s else s)
               (twoDigits (Z.of_nat k)))
          (seq 0 100) = true.
Proof. vm_compute. reflexivity. Qed.

Lemma twoDigits_to_string (n : Z) :
  (0 <= n < 100)%Z ->
  (let s := to_string n in
   if (String.length s =? 1)%nat then String.append str_0 s else s)
  = twoDigits n.
Proof.
  intros Hn. pose proof twoDigits_to_string_table as Ht.
  rewrite forallb_forall in Ht.
  specialize (Ht (Z.to_nat n)).
  rewrite Z2Nat.id in Ht by lia.
  apply String.eqb_eq. apply Ht. apply in_seq. lia.
Qed.

Lemma truncZ_floor (r : R) (n : Z) :
  (0 <= n)%Z -> IZR n <= r < IZR n + 1 -> truncZ r = n.
Proof.
  intros Hn Hr. unfold truncZ.
  assert (0 <= IZR n) by (apply IZR_le; exact Hn).
  destruct (Rle_dec 0 r) as [H0 | H0]; [|lra].
  symmetry. apply Int_part_spec. lra.
Qed.

(** X21: The clock shows the whole seconds of the time that has passed:
    for a time of at least 0 and less than 100 minutes
    [GraphicsRunner::getTimeStringFromSeconds] gives the five characters
    MM:SS, two digits of minutes and two of seconds with leading zeros,
    and sixty times the minutes plus the seconds are the time with its
    fraction cut off. *)
Theorem GraphicsRunner_getTimeStringFromSeconds_format (totalSeconds : R) :
  0 <= totalSeconds < 6000 ->
  exists minutes seconds : Z,
    (0 <= minutes < 100)%Z /\ (0 <= seconds < 60)%Z
    /\ IZR (60 * minutes + seconds) <= totalSeconds
       < IZR (60 * minutes + seconds) + 1
    /\ GraphicsRunner_getTimeStringFromSeconds totalSeconds
       = String.append (twoDigits minutes)
           (String.append str_colon (twoDigits seconds))
    /\ String.length (GraphicsRunner_getTimeStringFromSeconds totalSeconds)
       = 5%nat.
Proof.
  intros Ht.
  set (n := Int_part totalSeconds).
  destruct (base_Int_part totalSeconds) as [Hn1 Hn2]. fold n in Hn1, Hn2.
  assert (Hn : (0 <= n < 6000)%Z).
  { split.
    - apply le_IZR. apply Rnot_lt_le. intros Hneg.
      assert (IZR n <= -1) by (apply IZR_le; apply lt_IZR in Hneg; lia). lra.
    - apply lt_IZR. lra. }
  assert (Htrunc : truncZ totalSeconds = n)
    by (apply truncZ_floor; [lia|lra]).
  pose proof (Z.div_mod n 60 ltac:(lia)) as Hdm.
  pose proof (Z.mod_pos_bound n 60 ltac:(lia)) as Hmod.
  assert (Hdiv : (0 <= n / 60 < 100)%Z).
  { split; [apply Z.div_pos; lia|apply Z.div_lt_upper_bound; lia]. }
  assert (Hmin : truncZ (totalSeconds / 60) = (n / 60)%Z).
  { apply truncZ_floor; [lia|].
    assert (IZR n = 60 * IZR (n / 60) + IZR (n mod 60)).
    { rewrite <- mult_IZR, <- plus_IZR. f_equal. exact Hdm. }
    assert (0 <= IZR (n mod 60) <= 59) by (split; apply IZR_le; lia).
    split.
    - apply Rmult_le_reg_r with 60; [lra|]. unfold Rdiv.
      rewrite Rmult_assoc, Rinv_l by lra. lra.
    - apply Rmult_lt_reg_r with 60; [lra|]. unfold Rdiv.
      rewrite Rmult_assoc, Rinv_l by lra. lra. }
  assert (Hsec : Z.rem n 60 = (n mod 60)%Z) by (apply Z.rem_mod_nonneg; lia).
  exists (n / 60)%Z, (n mod 60)%Z.
  split; [exact Hdiv|]. split; [exact Hmod|].
  split.
  { replace (60 * (n / 60) + n mod 60)%Z with n by lia. lra. }
  assert (Eq : GraphicsRunner_getTimeStringFromSeconds totalSeconds
               = String.append (twoDigits (n / 60))
                   (String.append str_colon (twoDigits (n mod 60)))).
  { unfold GraphicsRunner_getTimeStringFromSeconds.
    rewrite Hmin, Htrunc, Hsec.
    pose proof (twoDigits_to_string (n / 60) Hdiv) as E1.
    pose proof (twoDigits_to_string (n mod 60) ltac:(lia)) as E2.
    cbv zeta in E1, E2 |- *. rewrite E1, E2. reflexivity. }
  split; [exact Eq|]. rewrite Eq. reflexivity.
Qed.

Lemma GraphicsRunner_getTimeStringFromSeconds_format_witness :
  String.length (GraphicsRunner_getTimeStringFromSeconds 75.5) = 5%nat.
Proof.
  assert (Ht : 0 <= 75.5 < 6000) by lra.
  destruct (GraphicsRunner_getTimeStringFromSeconds_format 75.5 Ht)
    as (m & s & _ & _ & _ & _ & Hlen).
  exact Hlen.
Defined.

(** ** Building the stage *)

Lemma addSafetyLoop_eq (this : StageBuilder) (brickWidth : R) (n : nat) :
  forall (col : Z) (objects : list Object),
  addSafetyLoop this brickWidth col n objects
  = objects ++
    map (fun k : nat =>
           mkObject false
             (ABrick
                (Brick_new
                   (2 * separation_ this + x (origin_ this)
                    + brickWidth * IZR (col + Z.of_nat k))
                   (y (origin_ this) + y (stageSize_ this)
                    - brickHeight_ this * 0.5 - separation_ this)
                   (brickWidth - 2 * separation_ this)
                   (brickHeight_ this * 0.5)
                   chr_s)))
        (seq 0 n).
Proof.
  induction n as [|n IH]; intros col objects.
  - cbn. rewrite app_nil_r. reflexivity.
  - cbn [addSafetyLoop]. rewrite IH. rewrite <- app_assoc. f_equal.
    cbn [seq map app]. rewrite Z.add_0_r. f_equal.
    rewrite <- seq_shift. rewrite map_map.
    apply map_ext. intros k.
    replace (col + 1 + Z.of_nat k)%Z with (col + Z.of_nat (S k))%Z by lia.
    reflexivity.
Qed.

(** X22: [StageBuilder::addSafetyBricks] with a positive number of
    bricks adds exactly that many objects at the end of the vector and
    changes none before them; the new objects are safety bricks of one
    size, in one row, from left to right.  When the bricks have room (the
    width left for a brick is at least twice the separation) the row starts
    two separations right of the origin of the stage, leaves two
    separations between neighbours, and ends two separations before the
    right edge of the stage.  With no brick to add, or a negative number,
    the vector is as it was. *)
Theorem StageBuilder_addSafetyBricks_row (this : StageBuilder)
  (numBricks : Z) (objects : list Object) :
  let objects' := StageBuilder_addSafetyBricks this numBricks objects in
  let brickWidth :=
    (x (stageSize_ this) - 2 * separation_ this) / IZR numBricks in
  let bounds (col : Z) :=
    rectGlobalBounds (Brick_rectangle_ (safetyBrick this numBricks col)) in
  ((numBricks <= 0)%Z -> objects' = objects)
  /\ ((0 < numBricks)%Z ->
      objects'
      = objects ++
        map (fun k : nat =>
               mkObject false
                 (ABrick (safetyBrick this numBricks (Z.of_nat k))))
            (seq 0 (Z.to_nat numBricks))
      /\ length objects' = (length objects + Z.to_nat numBricks)%nat
      /\ (forall col, Brick_special_ (safetyBrick this numBricks col) = chr_s)
      /\ (2 * separation_ this <= brickWidth -> 0 <= brickHeight_ this ->
          (forall col,
             bounds col
             = mkRect (x (origin_ this) + 2 * separation_ this
                       + brickWidth * IZR col)
                      (y (origin_ this) + y (stageSize_ this)
                       - brickHeight_ this * 0.5 - separation_ this)
                      (brickWidth - 2 * separation_ this)
                      (brickHeight_ this * 0.5))
          /\ left (bounds 0%Z) = x (origin_ this) + 2 * separation_ this
          /\ (forall col,
                left (bounds (col + 1)%Z)
                = left (bounds col) + width (bounds col)
                  + 2 * separation_ this)
          /\ left (bounds (numBricks - 1)%Z)
             + width (bounds (numBricks - 1)%Z)
             = x (origin_ this) + x (stageSize_ this)
               - 2 * separation_ this)).
Proof.
  intros objects' brickWidth bounds. split.
  - intros Hn. unfold objects', StageBuilder_addSafetyBricks.
    replace (Z.to_nat numBricks) with 0%nat by lia. reflexivity.
  - intros Hn.
    assert (Eq : objects'
                 = objects ++
                   map (fun k : nat =>
                          mkObject false
                            (ABrick (safetyBrick this numBricks (Z.of_nat k))))
                       (seq 0 (Z.to_nat numBricks))).
    { unfold objects', StageBuilder_addSafetyBricks. cbv zeta.
      rewrite addSafetyLoop_eq. reflexivity. }
    split; [exact Eq|]. split.
    { rewrite Eq, length_app, length_map, length_seq. reflexivity. }
    split; [reflexivity|].
    intros Hroom Hh.
    assert (Hb : forall col,
               bounds col
               = mkRect (x (origin_ this) + 2 * separation_ this
                         + brickWidth * IZR col)
                        (y (origin_ this) + y (stageSize_ this)
                         - brickHeight_ this * 0.5 - separation_ this)
                        (brickWidth - 2 * separation_ this)
                        (brickHeight_ this * 0.5)).
    { intros col. unfold bounds, safetyBrick, Brick_new. cbv zeta.
      cbn [Brick_rectangle_]. fold brickWidth.
      rewrite rectangleAt_bounds by lra. f_equal. ring. }
    split; [exact Hb|]. split.
    { rewrite Hb. cbn [left]. ring. }
    split.
    { intros col. rewrite !Hb. cbn [left width]. rewrite plus_IZR. ring. }
    rewrite Hb. cbn [left width]. rewrite minus_IZR. unfold brickWidth.
    field. apply not_0_IZR. lia.
Qed.

Lemma StageBuilder_addSafetyBricks_row_witness :
  length (StageBuilder_addSafetyBricks
            (mkStageBuilder (mkVector2 770 545) (mkVector2 15 55) 20 4)
            5 (objects_ (game800 [])))
  = (length (objects_ (game800 [])) + Z.to_nat 5)%nat.
Proof.
  assert (Hn : (0 < 5)%Z) by lia.
  exact (proj1 (proj2 (proj2 (StageBuilder_addSafetyBricks_row
                                (mkStageBuilder (mkVector2 770 545)
                                   (mkVector2 15 55) 20 4)
                                5 (objects_ (game800 []))) Hn))).
Defined.

Section Level1.

Variable NUM_BRICKS_PER_LINE : Z.
Variable NUM_BRICK_ROWS : Z.
Variable NUM_SPECIAL_BRICKS : Z.
Variable NUM_EMPTY_ROWS : Z.
Variable SPECIALS : list ascii.
Variable rand : nat -> Z.
Variable this : StageBuilder.
Variable brickWidth : R.
Variable specials : list Z.

Local Notation "'lay'" :=
  (layBricks NUM_BRICKS_PER_LINE NUM_EMPTY_ROWS SPECIALS rand this brickWidth
     specials).
Local Notation "'asObject'" := (fun b : Brick => mkObject false (ABrick b)).

Lemma layBricks_app (cells1 cells2 : list (Z * Z)) (calls : nat) :
  lay (cells1 ++ cells2) calls
  = (fst (lay cells2 (fst (lay cells1 calls))),
     snd (lay cells1 calls) ++ snd (lay cells2 (fst (lay cells1 calls)))).
Proof.
  revert calls. induction cells1 as [|[row col] cells1 IH]; intros calls.
  - cbn. destruct (lay cells2 calls); reflexivity.
  - cbn [app layBricks].
    destruct (isSpecial specials (row * NUM_BRICKS_PER_LINE + col));
      cbv zeta; rewrite IH; reflexivity.
Qed.

Lemma columnLoop_lay (row : Z) (n : nat) :
  forall (col : Z) (st : nat * list Object),
  columnLoop NUM_BRICKS_PER_LINE NUM_EMPTY_ROWS SPECIALS rand this brickWidth
    specials row col n st
  = (fst (lay (rowCells row col n) (fst st)),
     snd st ++ map asObject (snd (lay (rowCells row col n) (fst st)))).
Proof.
  induction n as [|n IH]; intros col [calls objects].
  - cbn. rewrite app_nil_r. reflexivity.
  - cbn [columnLoop fst snd]. rewrite IH.
    unfold rowCells. cbn [seq map layBricks]. rewrite Z.add_0_r.
    assert (Etail : map (fun k : nat => (row, (col + 1 + Z.of_nat k)%Z)) (seq 0 n)
                    = map (fun k : nat => (row, (col + Z.of_nat k)%Z)) (seq 1 n)).
    { rewrite <- seq_shift, map_map. apply map_ext. intros k.
      f_equal. lia. }
    rewrite Etail.
    destruct (isSpecial specials (row * NUM_BRICKS_PER_LINE + col));
      cbn [fst snd map]; rewrite <- app_assoc; reflexivity.
Qed.

Lemma rowLoop_lay (columns : nat) (n : nat) :
  Z.to_nat NUM_BRICKS_PER_LINE = columns ->
  forall (row : Z) (st : nat * list Object),
  rowLoop NUM_BRICKS_PER_LINE NUM_EMPTY_ROWS SPECIALS rand this brickWidth
    specials row n st
  = (fst (lay (gridCells columns row n) (fst st)),
     snd st ++ map asObject (snd (lay (gridCells columns row n) (fst st)))).
Proof.
  intros Hc. induction n as [|n IH]; intros row [calls objects].
  - cbn. rewrite app_nil_r. reflexivity.
  - cbn [rowLoop gridCells]. rewrite columnLoop_lay, IH. rewrite Hc.
    cbn [fst snd]. rewrite layBricks_app. cbn [fst snd].
    rewrite map_app, app_assoc. reflexivity.
Qed.

Lemma isSpecial_In (index : Z) :
  isSpecial specials index = true <-> In index specials.
Proof.
  induction specials as [|s l IH]; cbn [isSpecial In].
  - split; [discriminate|tauto].
  - destruct (Z.eqb_spec s index) as [-> | Hne].
    + split; auto.
    + rewrite IH. split; [auto|]. intros [H | H]; [contradiction|exact H].
Qed.

Lemma layBricks_liesOn (cells : list (Z * Z)) :
  forall calls : nat,
  Forall2 (liesOn NUM_BRICKS_PER_LINE NUM_EMPTY_ROWS this brickWidth specials)
          cells (snd (lay cells calls)).
Proof.
  induction cells as [|[row col] cells IH]; intros calls; cbn [layBricks].
  - constructor.
  - destruct (isSpecial specials (row * NUM_BRICKS_PER_LINE + col)) eqn:E;
      cbv zeta; cbn [snd]; constructor; try apply IH.
    + eexists. split; [reflexivity|]. intros _. apply isSpecial_In. exact E.
    + exists Ascii.zero. split; [reflexivity|]. intros H. contradiction.
Qed.

(** The calls of [rand()] while the bricks are laid: one for every cell
    whose index was drawn. *)
Lemma layBricks_calls (cells : list (Z * Z)) :
  forall calls : nat,
  fst (lay cells calls)
  = (calls
     + length (List.filter (fun cell : Z * Z =>
                         isSpecial specials
                           (fst cell * NUM_BRICKS_PER_LINE + snd cell))
                      cells))%nat.
Proof.
  induction cells as [|[row col] cells IH]; intros calls;
    cbn [layBricks List.filter fst snd].
  - cbn. lia.
  - destruct (isSpecial specials (row * NUM_BRICKS_PER_LINE + col));
      cbv zeta; cbn [fst length]; rewrite IH; lia.
Qed.

Lemma layBricks_special_count (cells : list (Z * Z)) :
  forall calls : nat,
  (length (List.filter isSpecialBrick (snd (lay cells calls)))
   <= length (List.filter (fun cell : Z * Z =>
                        isSpecial specials
                          (fst cell * NUM_BRICKS_PER_LINE + snd cell))
                     cells))%nat.
Proof.
  induction cells as [|[row col] cells IH]; intros calls;
    cbn [layBricks List.filter fst snd].
  - cbn. lia.
  - destruct (isSpecial specials (row * NUM_BRICKS_PER_LINE + col));
      cbv zeta; cbn [snd List.filter].
    + destruct (isSpecialBrick _); cbn [length]; specialize (IH (S calls)); lia.
    + unfold isSpecialBrick at 1. cbn [gridBrick Brick_new Brick_special_].
      change (Ascii.eqb zero zero) with true. cbn [negb]. apply IH.
Qed.

Lemma gridCells_length (columns rows : nat) (row : Z) :
  length (gridCells columns row rows) = (rows * columns)%nat.
Proof.
  revert row. induction rows as [|rows IH]; intros row; cbn [gridCells].
  - reflexivity.
  - rewrite length_app, IH. unfold rowCells.
    rewrite length_map, length_seq. lia.
Qed.

Lemma gridCells_In (columns rows : nat) (row : Z) (cell : Z * Z) :
  In cell (gridCells columns row rows) <->
  (row <= fst cell < row + Z.of_nat rows)%Z
  /\ (0 <= snd cell < Z.of_nat columns)%Z.
Proof.
  revert row. induction rows as [|rows IH]; intros row; cbn [gridCells].
  - split; [contradiction|lia].
  - rewrite in_app_iff, IH. unfold rowCells. rewrite in_map_iff.
    split.
    + intros [(k & <- & Hk) | H].
      * apply in_seq in Hk. cbn [fst snd]. lia.
      * lia.
    + intros [Hr Hc]. destruct (Z.eq_dec (fst cell) row) as [E | E].
      * left. exists (Z.to_nat (snd cell)). split.
        -- destruct cell as [r c]. cbn [fst snd] in *. subst r. f_equal. lia.
        -- apply in_seq. lia.
      * right. lia.
Qed.

Lemma gridCells_NoDup (columns rows : nat) (row : Z) :
  List.NoDup (gridCells columns row rows).
Proof.
  revert row. induction rows as [|rows IH]; intros row; cbn [gridCells].
  - constructor.
  - apply List.NoDup_app.
    + unfold rowCells. apply Finite.Injective_map_NoDup; [|apply seq_NoDup].
      intros a b H. injection H as H. lia.
    + apply IH.
    + intros cell H1 H2.
      unfold rowCells in H1. apply in_map_iff in H1 as (k & <- & _).
      apply gridCells_In in H2. cbn [fst] in H2. lia.
Qed.

(** No more cells of the grid have a drawn index than indices were
    drawn. *)
Lemma drawn_cells_bound (columns rows : nat) :
  Z.of_nat columns = NUM_BRICKS_PER_LINE ->
  (length (List.filter (fun cell : Z * Z =>
                     isSpecial specials
                       (fst cell * NUM_BRICKS_PER_LINE + snd cell))
                  (gridCells columns 0 rows))
   <= length specials)%nat.
Proof.
  intros Hc.
  set (drawn := List.filter _ (gridCells columns 0 rows)).
  set (index := fun cell : Z * Z => (fst cell * NUM_BRICKS_PER_LINE + snd cell)%Z).
  rewrite <- (length_map index drawn).
  apply List.NoDup_incl_length.
  - apply Finite.Injective_map_NoDup_in.
    + intros a b Ha Hb E. unfold drawn in Ha, Hb.
      apply filter_In in Ha as [Ha _]. apply filter_In in Hb as [Hb _].
      apply gridCells_In in Ha, Hb. unfold index in E.
      destruct a as [r1 c1], b as [r2 c2]. cbn [fst snd] in *.
      assert (r1 = r2) by nia. subst r2. f_equal. lia.
    + unfold drawn. apply List.NoDup_filter. apply gridCells_NoDup.
  - intros i Hi. apply in_map_iff in Hi as (cell & <- & Hcell).
    unfold drawn in Hcell. apply filter_In in Hcell as [_ Hs].
    apply isSpecial_In. exact Hs.
Qed.

End Level1.

Lemma drawSpecials_length (NUM_BRICKS_PER_LINE NUM_BRICK_ROWS : Z)
  (rand : nat -> Z) (n : nat) :
  forall calls : nat,
  length (drawSpecials NUM_BRICKS_PER_LINE NUM_BRICK_ROWS rand calls n) = n.
Proof.
  induction n as [|n IH]; intros calls; cbn [drawSpecials length].
  - reflexivity.
  - rewrite IH. reflexivity.
Qed.

(** X23: Level 1, whatever [rand()] returns.  [StageBuilder::getLevel(1)]
    adds one brick for every cell of the grid of [NUM_BRICK_ROWS] rows of
    [NUM_BRICKS_PER_LINE] columns, row after row, behind the objects that
    were there, which it leaves alone: each brick is the brick of the grid
    at its cell, all of one size, and it is special only if its index was
    drawn; at most [NUM_SPECIAL_BRICKS] bricks are special, and [rand()] is
    called at least that many times and at most twice as often.  In a row
    the bricks start one separation right of the origin of the stage, with
    one separation between neighbours, and end one separation before the
    right edge of the stage; the rows follow each other one separation
    apart. *)
Theorem StageBuilder_getLevel1_grid
  (NUM_BRICKS_PER_LINE NUM_BRICK_ROWS NUM_SPECIAL_BRICKS NUM_EMPTY_ROWS : Z)
  (SPECIALS : list ascii) (rand : nat -> Z) (this : StageBuilder)
  (objects : list Object) :
  (NUM_SPECIAL_BRICKS <= 0 \/ NUM_BRICKS_PER_LINE * NUM_BRICK_ROWS <> 0)%Z ->
  let brickWidth :=
    (x (stageSize_ this) - separation_ this) / IZR NUM_BRICKS_PER_LINE in
  let specials :=
    drawSpecials NUM_BRICKS_PER_LINE NUM_BRICK_ROWS rand 0
      (Z.to_nat NUM_SPECIAL_BRICKS) in
  let cells :=
    gridCells (Z.to_nat NUM_BRICKS_PER_LINE) 0 (Z.to_nat NUM_BRICK_ROWS) in
  let bounds (row col : Z) :=
    rectGlobalBounds
      (Brick_rectangle_
         (gridBrick NUM_EMPTY_ROWS this brickWidth row col Ascii.zero)) in
  (exists (calls : nat) (bricks : list Brick),
     StageBuilder_getLevel1 NUM_BRICKS_PER_LINE NUM_BRICK_ROWS
       NUM_SPECIAL_BRICKS NUM_EMPTY_ROWS SPECIALS rand this objects
     = Some (calls, objects ++ map (fun b => mkObject false (ABrick b)) bricks)
     /\ length bricks
        = (Z.to_nat NUM_BRICK_ROWS * Z.to_nat NUM_BRICKS_PER_LINE)%nat
     /\ Forall2 (liesOn NUM_BRICKS_PER_LINE NUM_EMPTY_ROWS this brickWidth
                   specials) cells bricks
     /\ (length (List.filter isSpecialBrick bricks)
         <= Z.to_nat NUM_SPECIAL_BRICKS)%nat
     /\ (Z.to_nat NUM_SPECIAL_BRICKS <= calls
         <= 2 * Z.to_nat NUM_SPECIAL_BRICKS)%nat)
  /\ (separation_ this <= brickWidth -> 0 <= brickHeight_ this ->
      (0 < NUM_BRICKS_PER_LINE)%Z ->
      (forall row,
         left (bounds row 0%Z) = x (origin_ this) + separation_ this
         /\ left (bounds row (NUM_BRICKS_PER_LINE - 1)%Z)
            + width (bounds row (NUM_BRICKS_PER_LINE - 1)%Z)
            = x (origin_ this) + x (stageSize_ this) - separation_ this)
      /\ (forall row col,
            left (bounds row (col + 1)%Z)
            = left (bounds row col) + width (bounds row col)
              + separation_ this
            /\ top (bounds (row + 1)%Z col)
               = top (bounds row col) + height (bounds row col)
                 + separation_ this)).
Proof.
  intros Hdiv brickWidth specials cells bounds. split.
  - unfold StageBuilder_getLevel1. cbv zeta. fold brickWidth specials.
    assert (Hguard : ((0 <? NUM_SPECIAL_BRICKS)%Z
                      && (NUM_BRICKS_PER_LINE * NUM_BRICK_ROWS =? 0)%Z) = false).
    { destruct Hdiv as [H | H].
      - rewrite (proj2 (Z.ltb_ge _ _)) by lia. reflexivity.
      - rewrite (proj2 (Z.eqb_neq _ _) H). apply andb_false_r. }
    rewrite Hguard.
    rewrite (rowLoop_lay NUM_BRICKS_PER_LINE NUM_EMPTY_ROWS SPECIALS rand this
               brickWidth specials (Z.to_nat NUM_BRICKS_PER_LINE) _ eq_refl).
    cbn [fst snd]. fold cells.
    eexists _, _. split; [reflexivity|].
    pose proof (layBricks_liesOn NUM_BRICKS_PER_LINE NUM_EMPTY_ROWS SPECIALS
                  rand this brickWidth specials cells
                  (Z.to_nat NUM_SPECIAL_BRICKS)) as Hon.
    assert (Hdrawn :
              (length (List.filter
                         (fun cell : Z * Z =>
                            isSpecial specials
                              (fst cell * NUM_BRICKS_PER_LINE + snd cell))
                         cells)
               <= Z.to_nat NUM_SPECIAL_BRICKS)%nat).
    { destruct (Z.le_gt_cases 0 NUM_BRICKS_PER_LINE) as [Hc | Hc].
      - pose proof (drawn_cells_bound NUM_BRICKS_PER_LINE specials
                      (Z.to_nat NUM_BRICKS_PER_LINE) (Z.to_nat NUM_BRICK_ROWS)
                      ltac:(lia)) as Hb.
        unfold specials in Hb at 2. rewrite drawSpecials_length in Hb.
        exact Hb.
      - assert (Hnil : cells = []).
        { apply length_zero_iff_nil. unfold cells.
          rewrite gridCells_length. lia. }
        rewrite Hnil. cbn. lia. }
    split.
    { rewrite <- (Forall2_length _ _ _ Hon). unfold cells.
      apply gridCells_length. }
    split; [exact Hon|]. split.
    { etransitivity; [apply layBricks_special_count|exact Hdrawn]. }
    rewrite layBricks_calls. lia.
  - intros Hroom Hh Hn.
    assert (Hb : forall row col,
               bounds row col
               = mkRect (x (origin_ this) + separation_ this
                         + brickWidth * IZR col)
                        (y (origin_ this) + separation_ this
                         + IZR (NUM_EMPTY_ROWS + row)
                           * (brickHeight_ this + separation_ this))
                        (brickWidth - separation_ this)
                        (brickHeight_ this)).
    { intros row col. unfold bounds, gridBrick, Brick_new.
      cbn [Brick_rectangle_]. rewrite rectangleAt_bounds by lra. reflexivity. }
    split.
    + intros row. rewrite !Hb. cbn [left width]. split; [ring|].
      rewrite minus_IZR. unfold brickWidth. field. apply not_0_IZR. lia.
    + intros row col. rewrite !Hb. cbn [left width top height].
      rewrite !plus_IZR. split; ring.
Qed.

Lemma StageBuilder_getLevel1_grid_witness :
  exists (calls : nat) (bricks : list Brick),
    StageBuilder_getLevel1 10 4 6 3 ["b"%char; "l"%char]
      (fun k => Z.of_nat (7 * k + 3))
      (mkStageBuilder (mkVector2 770 545) (mkVector2 15 55) 20 4)
      (objects_ (game800 []))
    = Some (calls,
            objects_ (game800 [])
            ++ map (fun b => mkObject false (ABrick b)) bricks)
    /\ length bricks = (Z.to_nat 4 * Z.to_nat 10)%nat.
Proof.
  assert (Hdiv : (6 <= 0 \/ 10 * 4 <> 0)%Z) by (right; lia).
  destruct (proj1 (StageBuilder_getLevel1_grid 10 4 6 3 ["b"%char; "l"%char]
                     (fun k => Z.of_nat (7 * k + 3))
                     (mkStageBuilder (mkVector2 770 545) (mkVector2 15 55) 20 4)
                     (objects_ (game800 [])) Hdiv))
    as (calls & bricks & E & Hlen & _).
  exists calls, bricks. split; [exact E|exact Hlen].
Defined.

(** *** Levels from files *)

Section LevelFile.

Variable SPECIALS : list ascii.
Variable rand : nat -> Z.
Variable this : StageBuilder.

Local Notation "'asObject'" := (fun b : Brick => mkObject false (ABrick b)).

Lemma layFile_app (brickWidth : R) (cells1 cells2 : list (Z * Z * ascii))
  (calls : nat) :
  layFile SPECIALS rand this brickWidth (cells1 ++ cells2) calls
  = (fst (layFile SPECIALS rand this brickWidth cells2
            (fst (layFile SPECIALS rand this brickWidth cells1 calls))),
     snd (layFile SPECIALS rand this brickWidth cells1 calls)
     ++ snd (layFile SPECIALS rand this brickWidth cells2
               (fst (layFile SPECIALS rand this brickWidth cells1 calls)))).
Proof.
  revert calls. induction cells1 as [|[[row col] c] cells1 IH]; intros calls.
  - cbn. destruct (layFile _ _ _ _ cells2 calls); reflexivity.
  - cbn [app layFile]. destruct (Ascii.eqb c chr_dash);
      cbv zeta; rewrite IH; reflexivity.
Qed.

Lemma charLoop_lay (brickWidth : R) (row : Z) (line : list ascii) :
  forall (col : Z) (st : LoadState),
  ls_calls (charLoop SPECIALS rand this brickWidth row col line st)
  = fst (layFile SPECIALS rand this brickWidth (lineCells row col line)
           (ls_calls st))
  /\ ls_objects (charLoop SPECIALS rand this brickWidth row col line st)
     = ls_objects st
       ++ map asObject
            (snd (layFile SPECIALS rand this brickWidth
                    (lineCells row col line) (ls_calls st))).
Proof.
  induction line as [|c line IH]; intros col st.
  - cbn. rewrite app_nil_r. auto.
  - cbn [charLoop lineCells]. unfold isBrickChar.
    destruct (Ascii.eqb c chr_dash) eqn:Ed.
    + apply Ascii.eqb_eq in Ed. subst c. cbv zeta. cbn [fst snd orb].
      change (Ascii.eqb chr_dash chr_space) with false. cbn [negb app].
      cbn [layFile]. change (Ascii.eqb chr_dash chr_dash) with true.
      cbv iota zeta. cbn [fst snd].
      destruct (IH (col + 1)%Z
                  (mkLoadState Ascii.zero (ls_calls st)
                     (ls_objects st
                      ++ [mkObject false
                            (ABrick (fileBrick this brickWidth row col Ascii.zero))])))
        as [E1 E2].
      cbn [ls_calls ls_objects ls_special] in *. rewrite E1, E2.
      split; [reflexivity|]. rewrite <- app_assoc. reflexivity.
    + destruct (Ascii.eqb c chr_tilde) eqn:Et.
      * apply Ascii.eqb_eq in Et. subst c. cbv zeta. cbn [fst snd orb].
        change (Ascii.eqb chr_tilde chr_space) with false. cbn [negb app].
        cbn [layFile]. change (Ascii.eqb chr_tilde chr_dash) with false.
        cbv iota zeta. cbn [fst snd].
        destruct (IH (col + 1)%Z
                    (mkLoadState (randomSpecial SPECIALS rand (ls_calls st))
                       (S (ls_calls st))
                       (ls_objects st
                        ++ [mkObject false
                              (ABrick (fileBrick this brickWidth row col
                                         (randomSpecial SPECIALS rand
                                            (ls_calls st))))])))
          as [E1 E2].
        cbn [ls_calls ls_objects ls_special] in *. rewrite E1, E2.
        split; [reflexivity|]. rewrite <- app_assoc. reflexivity.
      * cbv zeta. cbn [fst snd orb].
        change (Ascii.eqb chr_space chr_space) with true. cbn [negb app].
        apply IH.
Qed.

Lemma lineLoop_pos (n : nat) (brickWidth : R) (lines : list (list ascii)) :
  (0 < n)%nat ->
  forall (row : Z) (st : LoadState),
  ls_calls (lineLoop SPECIALS rand this n brickWidth row lines st)
  = fst (layFile SPECIALS rand this brickWidth (fileCells n row lines)
           (ls_calls st))
  /\ ls_objects (lineLoop SPECIALS rand this n brickWidth row lines st)
     = ls_objects st
       ++ map asObject
            (snd (layFile SPECIALS rand this brickWidth
                    (fileCells n row lines) (ls_calls st))).
Proof.
  intros Hn. induction lines as [|line lines IH]; intros row st.
  - cbn. rewrite app_nil_r. auto.
  - cbn [lineLoop fileCells]. cbv zeta.
    rewrite (proj2 (Nat.eqb_neq n 0)) by lia.
    assert (Ecut : (if (n <? length line)%nat then take n line else line)
                   = take n line).
    { destruct (Nat.ltb_spec n (length line)); [reflexivity|].
      rewrite take_ge by lia. reflexivity. }
    rewrite Ecut.
    destruct (IH (row + 1)%Z
                (charLoop SPECIALS rand this brickWidth row 0 (take n line) st))
      as [E1 E2].
    destruct (charLoop_lay brickWidth row (take n line) 0 st) as [C1 C2].
    rewrite E1, E2, C1, C2. rewrite layFile_app. cbn [fst snd].
    split; [reflexivity|]. rewrite map_app, app_assoc. reflexivity.
Qed.

Lemma lineLoop_zero (lines : list (list ascii)) :
  forall (brickWidth : R) (row : Z) (st : LoadState),
  let w := firstWidth lines in
  let brickWidth' :=
    (x (stageSize_ this) - separation_ this) / IZR (Z.of_nat w) in
  ls_calls (lineLoop SPECIALS rand this 0 brickWidth row lines st)
  = fst (layFile SPECIALS rand this brickWidth' (fileCells w row lines)
           (ls_calls st))
  /\ ls_objects (lineLoop SPECIALS rand this 0 brickWidth row lines st)
     = ls_objects st
       ++ map asObject
            (snd (layFile SPECIALS rand this brickWidth'
                    (fileCells w row lines) (ls_calls st))).
Proof.
  induction lines as [|line lines IH]; intros brickWidth row st.
  - cbn. rewrite app_nil_r. auto.
  - cbn [lineLoop fileCells firstWidth]. cbv zeta.
    change (0 =? 0)%nat with true. cbv iota.
    rewrite Nat.ltb_irrefl.
    destruct (Nat.eqb_spec (length line) 0) as [H0 | H0].
    + apply length_zero_iff_nil in H0. subst line.
      cbn [charLoop length]. rewrite take_nil. cbn [lineCells app]. apply IH.
    + rewrite take_ge by lia.
      destruct (lineLoop_pos (length line)
                  ((x (stageSize_ this) - separation_ this)
                   / IZR (Z.of_nat (length line)))
                  lines ltac:(lia) (row + 1)%Z
                  (charLoop SPECIALS rand this
                     ((x (stageSize_ this) - separation_ this)
                      / IZR (Z.of_nat (length line))) row 0 line st))
        as [E1 E2].
      destruct (charLoop_lay
                  ((x (stageSize_ this) - separation_ this)
                   / IZR (Z.of_nat (length line))) row line 0 st) as [C1 C2].
      rewrite E1, E2, C1, C2. rewrite layFile_app. cbn [fst snd].
      split; [reflexivity|]. rewrite map_app, app_assoc. reflexivity.
Qed.

Lemma layFile_bricks (brickWidth : R) (cells : list (Z * Z * ascii)) :
  forall calls : nat,
  Forall2 (fun (cell : Z * Z * ascii) (b : Brick) =>
             exists special : ascii,
               b = fileBrick this brickWidth (fst (fst cell)) (snd (fst cell))
                     special
               /\ (snd cell = chr_dash -> special = Ascii.zero))
          cells (snd (layFile SPECIALS rand this brickWidth cells calls))
  /\ fst (layFile SPECIALS rand this brickWidth cells calls)
     = (calls
        + length (List.filter
                    (fun cell : Z * Z * ascii =>
                       negb (Ascii.eqb (snd cell) chr_dash)) cells))%nat.
Proof.
  induction cells as [|[[row col] c] cells IH]; intros calls;
    cbn [layFile List.filter snd].
  - split; [constructor|cbn; lia].
  - destruct (Ascii.eqb c chr_dash) eqn:E; cbv zeta; cbn [fst snd negb].
    + destruct (IH calls) as [F C]. split; [|exact C].
      constructor; [|exact F]. exists Ascii.zero. cbn [fst snd]. auto.
    + destruct (IH (S calls)) as [F C]. split.
      * constructor; [|exact F]. eexists. cbn [fst snd].
        split; [reflexivity|]. intros ->.
        change (Ascii.eqb chr_dash chr_dash) with true in E. discriminate.
      * rewrite C. cbn [length]. lia.
Qed.

End LevelFile.

Lemma lineCells_In (row : Z) (line : list ascii) :
  forall (col r c0 : Z) (ch : ascii),
  In (r, c0, ch) (lineCells row col line) <->
  r = row /\ isBrickChar ch = true
  /\ exists k : nat, c0 = (col + Z.of_nat k)%Z /\ line !! k = Some ch.
Proof.
  induction line as [|c line IH]; intros col r c0 ch; cbn [lineCells].
  - split; [contradiction|]. intros (_ & _ & k & _ & H). discriminate.
  - rewrite in_app_iff, IH. split.
    + intros [H | (-> & Hb & k & -> & Hk)].
      * destruct (isBrickChar c) eqn:Ec; [|contradiction].
        destruct H as [H | []]. injection H as <- <- <-.
        split; [reflexivity|]. split; [exact Ec|]. exists 0%nat.
        split; [lia|reflexivity].
      * split; [reflexivity|]. split; [exact Hb|]. exists (S k).
        split; [lia|exact Hk].
    + intros (-> & Hb & [|k] & -> & Hk).
      * cbn in Hk. injection Hk as ->. left. rewrite Hb. left.
        f_equal. f_equal. lia.
      * right. split; [reflexivity|]. split; [exact Hb|]. exists k.
        split; [lia|exact Hk].
Qed.

Lemma fileCells_In (w : nat) (lines : list (list ascii)) :
  forall (row r c0 : Z) (ch : ascii),
  In (r, c0, ch) (fileCells w row lines) <->
  isBrickChar ch = true
  /\ exists (i k : nat) (line : list ascii),
       r = (row + Z.of_nat i)%Z /\ c0 = Z.of_nat k /\ (k < w)%nat
       /\ lines !! i = Some line /\ line !! k = Some ch.
Proof.
  induction lines as [|line lines IH]; intros row r c0 ch; cbn [fileCells].
  - split; [contradiction|]. intros (_ & i & k & l & _ & _ & _ & H & _).
    discriminate.
  - rewrite in_app_iff, IH, lineCells_In. split.
    + intros [(-> & Hb & k & -> & Hk) | (Hb & i & k & l & -> & -> & Hw & Hl & Hk)].
      * split; [exact Hb|]. exists 0%nat, k, line.
        apply lookup_take_Some in Hk as [Hk Hw].
        repeat split; auto; lia.
      * split; [exact Hb|]. exists (S i), k, l. repeat split; auto; lia.
    + intros (Hb & [|i] & k & l & -> & -> & Hw & Hl & Hk).
      * cbn in Hl. injection Hl as ->. left. split; [lia|].
        split; [exact Hb|]. exists k. split; [lia|].
        apply lookup_take_Some. auto.
      * right. split; [exact Hb|]. exists i, k, l. repeat split; auto; lia.
Qed.

(** X24: A level from a file.  When the file cannot be opened
    [StageBuilder::loadLevelFromFile] reports [false] and adds nothing.
    Otherwise it reports [true] and adds, behind the objects that were
    there, one brick for every ['-'] and every ['~'] of the file, in the
    order of reading, and nothing for any other character; characters
    beyond the length of the first line that is not empty are not read.
    The brick for the character in line [row] at place [col] is the brick
    of that cell, all bricks of one size, the width set by the length of
    that first line; the brick of a ['-'] is a regular one, and [rand()] is
    called once for every ['~']. *)
Theorem StageBuilder_loadLevelFromFile_bricks (SPECIALS : list ascii)
  (rand : nat -> Z) (this : StageBuilder) (lines : list (list ascii))
  (calls : nat) (objects : list Object) :
  let w := firstWidth lines in
  let brickWidth :=
    (x (stageSize_ this) - separation_ this) / IZR (Z.of_nat w) in
  let cells := fileCells w 0 lines in
  StageBuilder_loadLevelFromFile SPECIALS rand this None calls objects
  = (false, (calls, objects))
  /\ (exists (calls' : nat) (bricks : list Brick),
        StageBuilder_loadLevelFromFile SPECIALS rand this (Some lines) calls
          objects
        = (true,
           (calls', objects ++ map (fun b => mkObject false (ABrick b)) bricks))
        /\ Forall2 (fun (cell : Z * Z * ascii) (b : Brick) =>
                      exists special : ascii,
                        b = fileBrick this brickWidth (fst (fst cell))
                              (snd (fst cell)) special
                        /\ (snd cell = chr_dash -> special = Ascii.zero))
                   cells bricks
        /\ calls'
           = (calls
              + length (List.filter
                          (fun cell : Z * Z * ascii =>
                             negb (Ascii.eqb (snd cell) chr_dash)) cells))%nat)
  /\ (forall (row col : Z) (c : ascii),
        In (row, col, c) cells <->
        (c = chr_dash \/ c = chr_tilde)
        /\ exists (i k : nat) (line : list ascii),
             row = Z.of_nat i /\ col = Z.of_nat k /\ (k < w)%nat
             /\ lines !! i = Some line /\ line !! k = Some c).
Proof.
  intros w brickWidth cells. split; [reflexivity|]. split.
  - unfold StageBuilder_loadLevelFromFile. cbv zeta.
    destruct (lineLoop_zero SPECIALS rand this lines 0 0
                (mkLoadState Ascii.zero calls objects)) as [E1 E2].
    cbv zeta in E1, E2. fold w brickWidth cells in E1, E2.
    cbn [ls_calls ls_objects] in E1, E2. rewrite E1, E2.
    destruct (layFile_bricks SPECIALS rand this brickWidth cells calls)
      as [F C].
    eexists _, _. split; [reflexivity|]. split; [exact F|exact C].
  - intros row col c. unfold cells. rewrite fileCells_In.
    unfold isBrickChar. rewrite orb_true_iff, !Ascii.eqb_eq.
    split.
    + intros (Hc & i & k & line & -> & -> & H). split; [exact Hc|].
      exists i, k, line. rewrite Z.add_0_l. auto.
    + intros (Hc & i & k & line & -> & -> & H). split; [exact Hc|].
      exists i, k, line. rewrite Z.add_0_l. auto.
Qed.

(** ** The parity flag at work *)

Lemma ballLoop_parity (n : nat) :
  forall (g : GraphicsRunner) (self : nat) (b : Ball) (bounds : FloatRect)
         (i : Z) (j : nat) (other : Ball) (r : bool) (g' : GraphicsRunner)
         (tr : list Event),
  ballAt g self = Some b ->
  ballAt g j = Some other ->
  Ball_collisionState_ other <> Ball_collisionState_ b ->
  ballLoop self bounds i n g = Some (r, g', tr) ->
  ~ In (EvCollision (Z.of_nat j)) tr /\ ballAt g' j = Some other.
Proof.
  induction n as [|n IH]; intros g self b bounds i j other r g' tr Hb Ho Hpar Hrun.
  { cbn in Hrun. injection Hrun as _ <- <-. split; [intros []|exact Ho]. }
  pose proof Hb as Hb'. apply ballAt_Some in Hb' as [d Hd].
  pose proof Ho as Ho'. apply ballAt_Some in Ho' as [dj Hj].
  assert (Hjs : j <> self) by (intros ->; congruence).
  cbn [ballLoop] in Hrun. unfold bind at 1 in Hrun. unfold getGame in Hrun.
  unfold bind at 1 in Hrun. rewrite (thisBall_eq _ _ _ _ Hd) in Hrun.
  destruct (objectAt g i) as [o|] eqn:Hoi; [|discriminate].
  pose proof (objectAt_Some _ _ _ Hoi) as Hi.
  assert (Hi0 : (0 <= i)%Z).
  { unfold objectAt in Hoi. destruct (0 <=? i)%Z eqn:E; [|discriminate].
    apply Z.leb_le. exact E. }
  assert (Hrec : forall r2 g2 t2 t,
             ballLoop self bounds (i + 1) n g = Some (r2, g2, t2) ->
             Some (r2, g2, t ++ t2) = Some (r, g', tr) ->
             ~ In (EvCollision (Z.of_nat j)) t ->
             ~ In (EvCollision (Z.of_nat j)) tr /\ ballAt g' j = Some other).
  { intros r2 g2 t2 t Erec H Ht. injection H as -> -> <-.
    destruct (IH g self b bounds (i + 1)%Z j other _ _ _ Hb Ho Hpar Erec)
      as [Hn Hk]. split; [|exact Hk].
    rewrite in_app_iff. tauto. }
  destruct (match entity o with
            | ABall ball =>
                negb (Bool.eqb (Ball_collisionState_ ball)
                               (Ball_collisionState_ b))
            | _ => false
            end) eqn:Eskip.
  { destruct (ballLoop self bounds (i + 1) n g) as [[[r2 g2] t2]|] eqn:Erec;
      [|discriminate].
    cbn in Hrun. apply (Hrec r2 g2 t2 []); [reflexivity|exact Hrun|intros []]. }
  (* the object at [i] is asked: it is not the ball at [j] *)
  assert (Hij : Z.to_nat i <> j).
  { intros <-. rewrite Hj in Hi. injection Hi as <-. cbn [entity] in Eskip.
    apply negb_false_iff, Bool.eqb_prop in Eskip. contradiction. }
  assert (Hev : ~ In (EvCollision (Z.of_nat j)) [EvCollision i]).
  { intros [H | []]. injection H as H. lia. }
  unfold bind at 1 in Hrun. unfold callCollision in Hrun. rewrite Hoi in Hrun.
  destruct (Ascii.eqb (fst (Object_collision o bounds)) chr_y) eqn:Ey.
  2:{ destruct (ballLoop self bounds (i + 1) n g) as [[[r2 g2] t2]|] eqn:Erec;
        [|discriminate].
      cbn [app] in Hrun.
      apply (Hrec r2 g2 t2 [EvCollision i]); [reflexivity|exact Hrun|exact Hev]. }
  unfold bind in Hrun. rewrite (updateThis_eq _ _ _ _ _ Hd) in Hrun.
  unfold setOtherVelocity in Hrun.
  destruct (objectAt (setBall g self d _) i) as [[d2 [| | |b2]]|] eqn:E2;
    try discriminate.
  unfold ret in Hrun. cbn [app] in Hrun. injection Hrun as _ <- <-.
  split; [exact Hev|].
  unfold ballAt, setBall. cbn [objects_ withObjects].
  rewrite list_lookup_insert_ne by exact Hij.
  rewrite list_lookup_insert_ne by auto.
  rewrite Hj. reflexivity.
Qed.

Lemma frame_layoutOk (self : nat) (g g' : GraphicsRunner) :
  frame self g g' -> layoutOk g -> layoutOk g'.
Proof.
  intros (L & F & S & B & W & O) ((d & p & H0) & [o1 H1] & Hf & Hl).
  split; [|split; [|split]].
  - destruct (O _ _ H0) as (o' & Ho' & _ & He). cbn [entity] in He.
    destruct o' as [d' e']. cbn [entity] in He. subst e'. eauto.
  - destruct (O _ _ H1) as (o' & Ho' & _). eauto.
  - rewrite F. exact Hf.
  - rewrite F, S, B, L. exact Hl.
Qed.

(** X25: The parity flag keeps a pair of balls from being resolved twice
    in a frame.  Of two balls with the same parity, once the first has had
    its frame (in the field), the ball check of the second, whatever its
    bounds, returns without a call of [collision] on the first and leaves
    the first as its own frame left it. *)
Theorem parity_resolves_a_pair_once (BALL_MAX_SPEED : R) (g : GraphicsRunner)
  (first second : nat) (b1 b2 : Ball) (bounds : FloatRect) :
  layoutOk g ->
  ballAt g first = Some b1 ->
  ballAt g second = Some b2 ->
  first <> second ->
  Ball_collisionState_ b1 = Ball_collisionState_ b2 ->
  ~ top (circleGlobalBounds (Ball_circle_ b1)) > IZR (Z.of_N (y (windowSize_ g))) ->
  exists (g1 : GraphicsRunner) (tr1 : list Event) (b1' : Ball) (r : bool)
         (g2 : GraphicsRunner) (tr2 : list Event),
    Ball_move BALL_MAX_SPEED first g = Some (tt, g1, tr1)
    /\ ballAt g1 first = Some b1'
    /\ Ball_collisionState_ b1' = negb (Ball_collisionState_ b1)
    /\ Ball_handleBallCollisions second bounds g1 = Some (r, g2, tr2)
    /\ ~ In (EvCollision (Z.of_nat first)) tr2
    /\ ballAt g2 first = Some b1'.
Proof.
  intros Hl H1 H2 Hne Hpar Hin.
  destruct (Ball_move_in_field BALL_MAX_SPEED g first b1 Hl H1 Hin)
    as (gc & checks & dc & bc & _ & _ & Hdc & _ & Hsc & _ & _ & _ & Emove).
  set (g1 := setBall gc first dc
               (finishBall BALL_MAX_SPEED (anchorOf g b1) bc)) in *.
  set (b1' := finishBall BALL_MAX_SPEED (anchorOf g b1) bc) in *.
  assert (Hb1' : ballAt g1 first = Some b1')
    by (apply (ballAt_setBall _ _ _ _ _ Hdc)).
  assert (Hpar1 : Ball_collisionState_ b1' = negb (Ball_collisionState_ b1)).
  { unfold b1'. rewrite finishBall_parity, Hsc. reflexivity. }
  pose proof (keepsFrame_Ball_move BALL_MAX_SPEED first g tt g1 _ Emove)
    as Hframe.
  pose proof (frame_layoutOk _ _ _ Hframe Hl) as Hl1.
  (* the second ball is as it was, up to its velocity *)
  apply ballAt_Some in H2 as [d2 Hd2].
  destruct Hframe as (_ & _ & _ & _ & _ & Hobj).
  destruct (Hobj _ _ Hd2) as (o2 & Ho2 & _ & He2). cbn [entity] in He2.
  destruct He2 as (b2' & Eb2 & Hkeep).
  destruct o2 as [d2' e2]. cbn [entity] in Eb2. subst e2.
  destruct (Hkeep ltac:(apply Nat.eqb_neq; auto)) as (_ & _ & Hs2).
  assert (Hb2' : ballAt g1 second = Some b2') by (apply ballAt_Some; eauto).
  destruct (Ball_handleBallCollisions_ok g1 second b2' bounds Hl1 Hb2')
    as (r & g2 & tr2 & Erun & _).
  exists g1, (checks ++ [EvParityFlip]), b1', r, g2, tr2.
  split; [exact Emove|]. split; [exact Hb1'|]. split; [exact Hpar1|].
  split; [exact Erun|].
  unfold Ball_handleBallCollisions, bind, getGame in Erun.
  destruct (_ <? 0)%Z.
  - cbn in Erun. injection Erun as _ <- <-. split; [intros []|exact Hb1'].
  - destruct (ballLoop _ _ _ _ g1) as [[[r' g'] t']|] eqn:Eloop;
      [|discriminate].
    cbn [app] in Erun. injection Erun as _ <- <-.
    eapply ballLoop_parity; [exact Hb2'|exact Hb1'| |exact Eloop].
    rewrite Hpar1, Hs2, Hpar. destruct (Ball_collisionState_ b2); discriminate.
Qed.

Lemma parity_resolves_a_pair_once_witness :
  exists (g1 : GraphicsRunner) (tr1 : list Event) (b1' : Ball) (r : bool)
         (g2 : GraphicsRunner) (tr2 : list Event),
    Ball_move 10 2 (game800 [ballA; ballB]) = Some (tt, g1, tr1)
    /\ ballAt g1 2 = Some b1'
    /\ Ball_collisionState_ b1' = negb (Ball_collisionState_ ballA)
    /\ Ball_handleBallCollisions 3 boundsA g1 = Some (r, g2, tr2)
    /\ ~ In (EvCollision (Z.of_nat 2)) tr2
    /\ ballAt g2 2 = Some b1'.
Proof.
  assert (Hin : ~ top (circleGlobalBounds (Ball_circle_ ballA))
                  > IZR (Z.of_N (y (windowSize_ (game800 [ballA; ballB]))))).
  { rewrite ballA_bounds, game800_field_height. unfold boundsA.
    cbn [top]. lra. }
  assert (Hne : 2%nat <> 3%nat) by discriminate.
  exact (parity_resolves_a_pair_once 10 (game800 [ballA; ballB]) 2 3
           ballA ballB boundsA (game800_layoutOk [ballA; ballB])
           eq_refl eq_refl Hne eq_refl Hin).
Defined.

(** ** The next level *)

Lemma StageBuilder_addSafetyBricks_appends (this : StageBuilder)
  (numBricks : Z) (objects : list Object) :
  exists bricks : list Brick,
    StageBuilder_addSafetyBricks this numBricks objects
    = objects ++ map (fun b => mkObject false (ABrick b)) bricks.
Proof.
  unfold StageBuilder_addSafetyBricks. cbv zeta. rewrite addSafetyLoop_eq.
  eexists (map _ (seq 0 (Z.to_nat numBricks))). rewrite map_map. reflexivity.
Qed.

Lemma StageBuilder_getLevel_appends
  (NUM_BRICKS_PER_LINE NUM_BRICK_ROWS NUM_SPECIAL_BRICKS NUM_EMPTY_ROWS : Z)
  (SPECIALS : list ascii) (rand : nat -> Z)
  (levels : Z -> option (list (list ascii)))
  (this : StageBuilder) (level : Z) (calls : nat) (objects : list Object) :
  (NUM_SPECIAL_BRICKS <= 0 \/ NUM_BRICKS_PER_LINE * NUM_BRICK_ROWS <> 0)%Z ->
  exists (loaded : bool) (calls' : nat) (bricks : list Brick),
    StageBuilder_getLevel NUM_BRICKS_PER_LINE NUM_BRICK_ROWS NUM_SPECIAL_BRICKS
      NUM_EMPTY_ROWS SPECIALS rand levels this level calls objects
    = Some (loaded,
            (calls', objects ++ map (fun b => mkObject false (ABrick b)) bricks))
    /\ (loaded = false -> bricks = [] /\ level <> 1%Z /\ levels level = None).
Proof.
  intros Hdiv. unfold StageBuilder_getLevel.
  destruct (Z.eqb_spec level 1) as [-> | Hne].
  - unfold StageBuilder_getLevel1. cbv zeta.
    assert (Hguard : ((0 <? NUM_SPECIAL_BRICKS)%Z
                      && (NUM_BRICKS_PER_LINE * NUM_BRICK_ROWS =? 0)%Z) = false).
    { destruct Hdiv as [H | H].
      - rewrite (proj2 (Z.ltb_ge _ _)) by lia. reflexivity.
      - rewrite (proj2 (Z.eqb_neq _ _) H). apply andb_false_r. }
    rewrite Hguard.
    rewrite (rowLoop_lay NUM_BRICKS_PER_LINE NUM_EMPTY_ROWS SPECIALS rand this
               _ _ (Z.to_nat NUM_BRICKS_PER_LINE) _ eq_refl).
    cbn [fst snd]. eexists true, _, _. split; [reflexivity|discriminate].
  - destruct (levels level) as [lines|] eqn:Efile.
    + unfold StageBuilder_loadLevelFromFile. cbv zeta.
      destruct (lineLoop_zero SPECIALS rand this lines 0 0
                  (mkLoadState Ascii.zero calls objects)) as [E1 E2].
      cbv zeta in E1, E2. cbn [ls_calls ls_objects] in E1, E2.
      rewrite E2. eexists true, _, _. split; [reflexivity|discriminate].
    + exists false, calls, []. cbn [map]. rewrite app_nil_r.
      split; [reflexivity|auto].
Qed.

Lemma GraphicsRunner_clear_take (g : GraphicsRunner) :
  (1 <= indexOfFirstSafetyBrick_ g)%Z -> objects_ g <> [] ->
  GraphicsRunner_clear g
  = Some (withObjects g
            (take (Z.to_nat (indexOfFirstSafetyBrick_ g)) (objects_ g))).
Proof.
  intros Hfirst Hne. unfold GraphicsRunner_clear.
  destruct (objects_ g) as [|o os] eqn:Eo; [contradiction|].
  rewrite (proj2 (Z.ltb_ge _ _)) by lia.
  rewrite clearLoop_take by lia. reflexivity.
Qed.

(** X26: [GraphicsRunner::nextLevel] sets the stage as the balls need it.
    In a game with the paddle at index 0 and the first safety brick at index
    2 or later, where the vector holds at least the objects before that
    index (and nothing else unless it is cleared), the call returns and
    leaves: the objects before the first safety brick as they were; behind
    them bricks only, as many as the two counters add up to; and behind the
    bricks one ball, attached to the paddle.  The layout that [Ball::move]
    relies on holds, the objects in the range of the bricks are bricks, and
    the objects after it are balls, whether the level was found or not. *)
Theorem GraphicsRunner_nextLevel_layout
  (NUM_SAFETY_BRICKS NUM_BRICKS_PER_LINE NUM_BRICK_ROWS NUM_SPECIAL_BRICKS
     NUM_EMPTY_ROWS : Z)
  (SPECIALS : list ascii) (BALL_RADIUS : R) (rand : nat -> Z)
  (levels : Z -> option (list (list ascii))) (builder_ : StageBuilder)
  (needClear : bool) (level_ : Z) (calls : nat) (g : GraphicsRunner) :
  (NUM_SPECIAL_BRICKS <= 0 \/ NUM_BRICKS_PER_LINE * NUM_BRICK_ROWS <> 0)%Z ->
  (exists d p, objects_ g !! 0%nat = Some (mkObject d (APaddle p))) ->
  (2 <= indexOfFirstSafetyBrick_ g)%Z ->
  (Z.to_nat (indexOfFirstSafetyBrick_ g) <= length (objects_ g))%nat ->
  (needClear = false ->
   length (objects_ g) = Z.to_nat (indexOfFirstSafetyBrick_ g)) ->
  exists (r : NextLevel) (bricks : list Brick),
    GraphicsRunner_nextLevel NUM_SAFETY_BRICKS NUM_BRICKS_PER_LINE
      NUM_BRICK_ROWS NUM_SPECIAL_BRICKS NUM_EMPTY_ROWS SPECIALS BALL_RADIUS
      rand levels builder_ needClear level_ calls g = Some r
    /\ nl_level_ r = (level_ + 1)%Z
    /\ objects_ (nl_game r)
       = take (Z.to_nat (indexOfFirstSafetyBrick_ g)) (objects_ g)
         ++ map (fun b => mkObject false (ABrick b)) bricks
         ++ [mkObject false (ABall (Ball_newAttached BALL_RADIUS))]
    /\ indexOfFirstSafetyBrick_ (nl_game r) = indexOfFirstSafetyBrick_ g
    /\ numSafetyBricks_ (nl_game r) = (NUM_SAFETY_BRICKS - (level_ + 1) + 1)%Z
    /\ (numSafetyBricks_ (nl_game r) + numBricks_ (nl_game r))%Z
       = Z.of_nat (length bricks)
    /\ layoutOk (nl_game r)
    /\ bricksInRange (nl_game r)
    /\ ballsAfterBricks (nl_game r).
Proof.
  intros Hdiv (d & p & Hpaddle) Hfirst Hlen Hkeep.
  set (first := indexOfFirstSafetyBrick_ g) in *.
  set (base := take (Z.to_nat first) (objects_ g)).
  assert (Hbase : length base = Z.to_nat first)
    by (unfold base; rewrite length_take; lia).
  assert (Hne : objects_ g <> []).
  { intros E. rewrite E in Hpaddle. discriminate. }
  (* the game after the clearing, if any *)
  assert (Hg1 : exists g1,
             (if needClear then GraphicsRunner_clear g else Some g) = Some g1
             /\ objects_ g1 = base
             /\ indexOfFirstSafetyBrick_ g1 = first
             /\ windowSize_ g1 = windowSize_ g).
  { destruct needClear.
    - rewrite GraphicsRunner_clear_take by (fold first; lia || exact Hne).
      eexists. split; [reflexivity|]. auto.
    - exists g. split; [reflexivity|]. split; [|auto].
      unfold base. rewrite take_ge; [reflexivity|].
      rewrite (Hkeep eq_refl). lia. }
  destruct Hg1 as (g1 & Eg1 & Ho1 & Hf1 & Hw1).
  unfold GraphicsRunner_nextLevel. cbv zeta. rewrite Eg1, Ho1, Hf1.
  destruct (StageBuilder_addSafetyBricks_appends builder_
              (NUM_SAFETY_BRICKS - (level_ + 1) + 1) base) as [safety ->].
  destruct (StageBuilder_getLevel_appends NUM_BRICKS_PER_LINE NUM_BRICK_ROWS
              NUM_SPECIAL_BRICKS NUM_EMPTY_ROWS SPECIALS rand levels builder_
              (level_ + 1) calls
              (base ++ map (fun b => mkObject false (ABrick b)) safety) Hdiv)
    as (loaded & calls' & bricks & -> & _).
  rewrite <- app_assoc, <- map_app.
  set (all := safety ++ bricks).
  set (asObject := fun b : Brick => mkObject false (ABrick b)).
  assert (Hbase0 : base !! 0%nat = Some (mkObject d (APaddle p))).
  { unfold base. rewrite lookup_take_lt by lia. exact Hpaddle. }
  rewrite (lookup_app_l_Some _ _ _ _ Hbase0).
  eexists _, all. split; [reflexivity|].
  cbn [nl_level_ nl_game objects_ indexOfFirstSafetyBrick_ numSafetyBricks_
       numBricks_].
  split; [reflexivity|]. split; [rewrite <- app_assoc; reflexivity|].
  split; [reflexivity|]. split; [reflexivity|].
  assert (Hsum : (NUM_SAFETY_BRICKS - (level_ + 1) + 1
                  + (Z.of_nat (length (base ++ map asObject all))
                     - (first + (NUM_SAFETY_BRICKS - (level_ + 1) + 1))))%Z
                 = Z.of_nat (length all)).
  { rewrite length_app, length_map, Hbase. lia. }
  split; [exact Hsum|].
  assert (Hmid : forall i : nat,
             (Z.to_nat first <= i < Z.to_nat first + length all)%nat ->
             exists b, ((base ++ map asObject all)
                        ++ [mkObject false (ABall (Ball_newAttached BALL_RADIUS))])
                       !! i = Some (mkObject false (ABrick b))).
  { intros i Hi.
    destruct (lookup_lt_is_Some_2 all (i - Z.to_nat first)) as [b Hb]; [lia|].
    exists b. rewrite lookup_app_l by (rewrite length_app, length_map; lia).
    rewrite lookup_app_r by lia. rewrite Hbase.
    rewrite list_lookup_fmap_Some_2 with (x := b); [reflexivity|exact Hb]. }
  split; [|split].
  - (* layoutOk *)
    unfold layoutOk.
    cbn [objects_ indexOfFirstSafetyBrick_ numSafetyBricks_ numBricks_].
    split.
    { exists d, p. rewrite <- app_assoc.
      apply lookup_app_l_Some. exact Hbase0. }
    split.
    { apply lookup_lt_is_Some_2. rewrite !length_app, Hbase. cbn. lia. }
    split; [lia|].
    rewrite Z.add_assoc in Hsum.
    replace (first + (NUM_SAFETY_BRICKS - (level_ + 1) + 1)
             + (Z.of_nat (length (base ++ map asObject all))
                - (first + (NUM_SAFETY_BRICKS - (level_ + 1) + 1))))%Z
      with (first + Z.of_nat (length all))%Z by lia.
    rewrite !length_app, length_map, Hbase. cbn [length]. lia.
  - (* bricksInRange *)
    intros i Hi.
    cbn [objects_ indexOfFirstSafetyBrick_ numSafetyBricks_ numBricks_] in Hi.
    destruct (Hmid (Z.to_nat i)) as [b Hb]; [lia|].
    exists false, b. unfold objectAt. cbn [objects_].
    rewrite (proj2 (Z.leb_le 0 i)) by lia. exact Hb.
  - (* ballsAfterBricks *)
    split.
    + cbn [indexOfFirstSafetyBrick_ numSafetyBricks_ numBricks_]. lia.
    + cbn [objects_ indexOfFirstSafetyBrick_ numSafetyBricks_ numBricks_].
      intros i o Hi Hlook.
      assert (Hstart : Z.to_nat
                         (first + (NUM_SAFETY_BRICKS - (level_ + 1) + 1)
                          + (Z.of_nat (length (base ++ map asObject all))
                             - (first + (NUM_SAFETY_BRICKS - (level_ + 1) + 1))))
                       = length (base ++ map asObject all)) by lia.
      rewrite Hstart in Hi.
      rewrite lookup_app_r in Hlook by exact Hi.
      destruct (i - length (base ++ map asObject all))%nat as [|k];
        [|destruct k; discriminate].
      cbn in Hlook. injection Hlook as <-. eauto.
Qed.

Lemma GraphicsRunner_nextLevel_layout_witness :
  exists (r : NextLevel) (bricks : list Brick),
    GraphicsRunner_nextLevel 5 10 4 6 3 ["b"%char; "l"%char] 5
      (fun k => Z.of_nat (7 * k + 3)) (fun _ => None)
      (mkStageBuilder (mkVector2 770 545) (mkVector2 15 55) 20 4)
      false 0 0 (game800 []) = Some r
    /\ layoutOk (nl_game r)
    /\ bricksInRange (nl_game r)
    /\ ballsAfterBricks (nl_game r).
Proof.
  assert (Hdiv : (6 <= 0 \/ 10 * 4 <> 0)%Z) by (right; lia).
  assert (Hfirst : (2 <= indexOfFirstSafetyBrick_ (game800 []))%Z)
    by (cbn; lia).
  assert (Hlen : (Z.to_nat (indexOfFirstSafetyBrick_ (game800 []))
                  <= length (objects_ (game800 [])))%nat) by (cbn; lia).
  destruct (GraphicsRunner_nextLevel_layout 5 10 4 6 3 ["b"%char; "l"%char] 5
              (fun k => Z.of_nat (7 * k + 3)) (fun _ => None)
              (mkStageBuilder (mkVector2 770 545) (mkVector2 15 55) 20 4)
              false 0 0 (game800 []) Hdiv
              (ex_intro _ false (ex_intro _ (Paddle_new 400 560 100 20) eq_refl))
              Hfirst Hlen (fun _ => eq_refl))
    as (r & bricks & E & _ & _ & _ & _ & _ & H1 & H2 & H3).
  exists r, bricks. auto.
Defined.
